(** * prettyhtml: the formatter's indentation engine and the tag registry

    A shallow embedding of

    - the formatter plugin ([format], [transform] and its [visitor], with the
      helper predicates that follow it in the source file), and
    - the tag-definition registry that is appended to [cli.js]
      ([HtmlTagDefinition], [getHtmlTagDefinition], [isKnownHTMLTag]),

    followed by the properties of the specification that were checked
    against them, and by further properties of the same code: of the
    registry, of the strings the formatter works on, of the visitor and
    the pass, of the breaks it inserts and of the levels it works with.

    Conventions.  JavaScript strings are modelled as [string], a sequence
    of code units below 256, that is of the characters U+0000 to U+00FF:
    the classes [\s] and [trim] know the white space among these and
    [toLowerCase] the capital letters among these; [toUpperCase] maps the
    letters [a-z], which is what JavaScript does on ASCII text
    ([Js.is_ascii]).  JavaScript
    numbers that hold indices and levels are [Z] (levels may become
    negative) or [nat] (array indices).  A node object is a record whose
    optional properties are [option]s.  The packages the sources require
    are parameters of the definitions; the examples are run with models
    of them: their lists of names, and the algorithm of the white-space
    pre-pass. *)

From Stdlib Require Import List String Ascii ZArith Bool Arith Lia.
Import ListNotations.

Local Open Scope string_scope.
Local Open Scope list_scope.

Set Warnings "-register-all".

(* ================================================================== *)
(** ** JavaScript string primitives used by the sources *)
(* ================================================================== *)

Module Js.

Definition LF : ascii := "010"%char.
Definition TAB : ascii := "009"%char.
Definition SPACE : ascii := " "%char.

Definition is_lf (c : ascii) : bool := Ascii.eqb c LF.

(** [[ \t]] *)
Definition is_blank (c : ascii) : bool :=
  Ascii.eqb c SPACE || Ascii.eqb c TAB.

(** [\s] among the characters below U+0100: TAB, LF, VT, FF, CR, SPACE
    and the no-break space U+00A0. *)
Definition is_space (c : ascii) : bool :=
  let n := nat_of_ascii c in
  Nat.eqb n 32 || (Nat.leb 9 n && Nat.leb n 13) || Nat.eqb n 160.

Fixpoint all_chars (p : ascii -> bool) (s : string) : bool :=
  match s with
  | EmptyString => true
  | String c r => p c && all_chars p r
  end.

(** A string used as a condition: the empty string is falsy. *)
Definition truthy (s : string) : bool :=
  match s with EmptyString => false | _ => true end.

Fixpoint drop (n : nat) (s : string) : string :=
  match n, s with
  | O, _ => s
  | S k, String _ r => drop k r
  | S _, EmptyString => EmptyString
  end.

(** [s.indexOf(sub) !== -1] *)
Fixpoint includes (sub s : string) : bool :=
  prefix sub s ||
  match s with
  | EmptyString => false
  | String _ r => includes sub r
  end.

(** [repeat(str, num)] of the repeat-string package: [num] copies, and the
    empty string when [num] is zero or negative. *)
Fixpoint repeat_nat (str : string) (num : nat) : string :=
  match num with
  | O => EmptyString
  | S k => str ++ repeat_nat str k
  end.

Definition repeat (str : string) (num : Z) : string :=
  repeat_nat str (Z.to_nat num).

(** [s.split('\n')]: never empty, one more piece than there are
    linefeeds. *)
Fixpoint split_lf (s : string) : list string :=
  match s with
  | EmptyString => [EmptyString]
  | String c r =>
      if is_lf c then EmptyString :: split_lf r
      else match split_lf r with
           | h :: t => String c h :: t
           | [] => [String c EmptyString]
           end
  end.

(** [lines.join('\n')] *)
Fixpoint join_lf (lines : list string) : string :=
  match lines with
  | [] => EmptyString
  | [l] => l
  | l :: rest => l ++ String LF (join_lf rest)
  end.

Fixpoint drop_while (p : ascii -> bool) (s : string) : string :=
  match s with
  | EmptyString => EmptyString
  | String c r => if p c then drop_while p r else s
  end.

Fixpoint drop_while_end (p : ascii -> bool) (s : string) : string :=
  match s with
  | EmptyString => EmptyString
  | String c r =>
      match drop_while_end p r with
      | EmptyString => if p c then EmptyString else String c EmptyString
      | r' => String c r'
      end
  end.

(** [s.trim()] *)
Definition trim (s : string) : string :=
  drop_while_end is_space (drop_while is_space s).

(** [s.replace(/^[ \t]+|[ \t]+$/g, '')] *)
Definition strip_blanks (s : string) : string :=
  drop_while_end is_blank (drop_while is_blank s).

(** [s.replace(/\n/g, '$&' + ins)]: [ins] is put after every linefeed
    ([ins] is an indentation, it holds no [$]). *)
Fixpoint after_each_lf (ins : string) (s : string) : string :=
  match s with
  | EmptyString => EmptyString
  | String c r =>
      if is_lf c then String c (ins ++ after_each_lf ins r)
      else String c (after_each_lf ins r)
  end.

(** [/\s*\n\s*$/.test(s)]: some linefeed is followed by white space only. *)
Fixpoint test_trailing_lf (s : string) : bool :=
  match s with
  | EmptyString => false
  | String c r => (is_lf c && all_chars is_space r) || test_trailing_lf r
  end.

(** [/^\s*\n/.test(s)]: a linefeed is preceded by white space only. *)
Fixpoint test_leading_lf (s : string) : bool :=
  match s with
  | EmptyString => false
  | String c r => is_lf c || (is_space c && test_leading_lf r)
  end.

(** [/^\s+$/.test(s)] *)
Definition test_only_space (s : string) : bool :=
  truthy s && all_chars is_space s.

(** [s.replace(/\s+/g, '').length] is not zero. *)
Definition has_ink (s : string) : bool := negb (all_chars is_space s).

Definition lower_char (c : ascii) : ascii :=
  let n := nat_of_ascii c in
  if (Nat.leb 65 n && Nat.leb n 90)
     || (Nat.leb 192 n && Nat.leb n 222 && negb (Nat.eqb n 215))
  then ascii_of_nat (n + 32) else c.

(** [s.toLowerCase()]: the letters [A-Z] and, past ASCII, the capital
    letters U+00C0 to U+00DE (the sign U+00D7 apart) go to the letter 32
    places on. *)
Fixpoint toLowerCase (s : string) : string :=
  match s with
  | EmptyString => EmptyString
  | String c r => String (lower_char c) (toLowerCase r)
  end.

(** A regular expression of the shape [/OPEN([\s\S]*?)CLOSE/g], tested
    with [lastIndex] reset to 0: at some position [OPEN] matches and
    [CLOSE] occurs somewhere after it. *)
Record Delimited := { opening : string; closing : string }.

Fixpoint test (re : Delimited) (s : string) : bool :=
  (prefix (opening re) s
     && includes (closing re) (drop (String.length (opening re)) s)) ||
  match s with
  | EmptyString => false
  | String _ r => test re r
  end.

(** What [RegExp.prototype.test] sees when it is handed a property that
    may be missing: [undefined] is converted to the string "undefined". *)
Definition to_string (v : option string) : string :=
  match v with Some s => s | None => "undefined" end.

(** [s.replace(/<\/script\s*>/g, '<\\/script>')].  [script_close_at s] is
    the length of a match of [/<\/script\s*>/] at the start of [s];
    [skip] counts the characters of the last match still to be passed. *)
Definition script_close : string := "</script".

Definition script_close_at (s : string) : option nat :=
  if prefix script_close s then
    let after := drop (String.length script_close) s in
    match drop_while is_space after with
    | String ">"%char rest =>
        Some (String.length s - String.length rest)
    | _ => None
    end
  else None.

Fixpoint escape_script_close_from (skip : nat) (s : string) : string :=
  match s with
  | EmptyString => EmptyString
  | String c r =>
      match skip with
      | S k => escape_script_close_from k r
      | O =>
          match script_close_at s with
          | Some n => "<\/script>" ++ escape_script_close_from (n - 1) r
          | None => String c (escape_script_close_from 0 r)
          end
      end
  end.

Definition escape_script_close (s : string) : string :=
  escape_script_close_from 0 s.

Definition upper_char (c : ascii) : ascii :=
  let n := nat_of_ascii c in
  if Nat.leb 97 n && Nat.leb n 122 then ascii_of_nat (n - 32) else c.

(** [s.toUpperCase()], as it is on ASCII text (see [is_ascii] below):
    the upper-case forms of U+00B5, U+00DF and U+00FF are not among the
    characters of a [string]. *)
Fixpoint toUpperCase (s : string) : string :=
  match s with
  | EmptyString => EmptyString
  | String c r => String (upper_char c) (toUpperCase r)
  end.

(** A string of ASCII characters (code units below 128).  On these,
    [toUpperCase] above is what JavaScript computes. *)
Definition is_ascii (s : string) : bool :=
  all_chars (fun c => Nat.ltb (nat_of_ascii c) 128) s.

End Js.

(* ================================================================== *)
(** ** Template-expression detector *)
(* ================================================================== *)

Definition DOUBLE_BRACKET_INTERPOLATION_REGEXP : Js.Delimited :=
  {| Js.opening := "{{"; Js.closing := "}}" |}.
Definition SINGLE_BRACKET_INTERPOLATION_REGEXP : Js.Delimited :=
  {| Js.opening := "{"; Js.closing := "}" |}.
Definition ARROW_PERC_INTERPOLATION_REGEXP : Js.Delimited :=
  {| Js.opening := "<%"; Js.closing := "%>" |}.

(** [isTemplateExpression(value)]; [value] is [child.value], which is
    missing on nodes that are neither text nor comment. *)
Definition isTemplateExpression (value : option string) : bool :=
  let v := Js.to_string value in
  (* erb ruby templates *)
  if Js.test ARROW_PERC_INTERPOLATION_REGEXP v then true
  (* angular, vue *)
  else if Js.test DOUBLE_BRACKET_INTERPOLATION_REGEXP v then true
  (* svelte *)
  else if Js.test SINGLE_BRACKET_INTERPOLATION_REGEXP v then true
  else false.

(* ================================================================== *)
(** ** Tag-definition registry *)
(* ================================================================== *)

Module Registry.

(** [TagContentType] of [./tags]. *)
Inductive TagContentType := RAW_TEXT | ESCAPABLE_RAW_TEXT | PARSABLE_DATA.

(** The argument object of the constructor; every property is optional. *)
Record Options := {
  o_closedByChildren : option (list string);
  o_requiredParents : option (list string);
  o_implicitNamespacePrefix : option string;
  o_contentType : option TagContentType;
  o_closedByParent : option bool;
  o_isVoid : option bool;
  o_ignoreFirstLf : option bool
}.

(** [{}] *)
Definition no_options : Options :=
  {| o_closedByChildren := None; o_requiredParents := None;
     o_implicitNamespacePrefix := None; o_contentType := None;
     o_closedByParent := None; o_isVoid := None; o_ignoreFirstLf := None |}.

(** An instance.  The two dictionaries [{ [key: string]: boolean }] only
    ever map a key to [true], so they are kept as the list of their own
    keys; [requiredParents] and [parentToAdd] stay unset when no parent is
    required. *)
Record HtmlTagDefinition := {
  closedByChildren : list string;
  closedByParent : bool;
  requiredParents : option (list string);
  parentToAdd : option string;
  implicitNamespacePrefix : option string;
  contentType : TagContentType;
  isVoid : bool;
  ignoreFirstLf : bool;
  canSelfClose : bool
}.

Definition or_default {A} (d : A) (o : option A) : A :=
  match o with Some a => a | None => d end.

(** The own keys of a dictionary filled by [dict[tagName] = true] for
    every name of a list: every name becomes an own key but [__proto__],
    for which the assignment runs the inherited setter, and that setter
    does nothing when it is handed [true]. *)
Definition own_keys (names : list string) : list string :=
  filter (fun name => negb (String.eqb name "__proto__")) names.

(** [constructor({...} = {})] *)
Definition new_HtmlTagDefinition (o : Options) : HtmlTagDefinition :=
  let contentType := or_default PARSABLE_DATA (o_contentType o) in
  let closedByParent := or_default false (o_closedByParent o) in
  let isVoid := or_default false (o_isVoid o) in
  let ignoreFirstLf := or_default false (o_ignoreFirstLf o) in
  {| closedByChildren :=
       match o_closedByChildren o with
       | Some (t :: ts) => own_keys (t :: ts)
       | _ => []
       end;
     isVoid := isVoid;
     closedByParent := closedByParent || isVoid;
     requiredParents :=
       match o_requiredParents o with
       | Some (t :: ts) => Some (own_keys (t :: ts))
       | _ => None
       end;
     parentToAdd :=
       match o_requiredParents o with
       | Some (t :: _) => Some t
       | _ => None
       end;
     implicitNamespacePrefix :=
       match o_implicitNamespacePrefix o with
       | Some p => if Js.truthy p then Some p else None
       | None => None
       end;
     contentType := contentType;
     ignoreFirstLf := ignoreFirstLf;
     canSelfClose := false |}.

(** The property names every object literal inherits from
    [Object.prototype]; the [in] operator and a computed member access
    find them as well as the object's own keys. *)
Definition Object_prototype_names : list string :=
  [ "constructor"; "__defineGetter__"; "__defineSetter__";
    "hasOwnProperty"; "__lookupGetter__"; "__lookupSetter__";
    "isPrototypeOf"; "propertyIsEnumerable"; "toString"; "valueOf";
    "__proto__"; "toLocaleString" ].

Definition mem (k : string) (keys : list string) : bool :=
  existsb (String.eqb k) keys.

(** [key in dict] *)
Definition js_in (key : string) (own_keys : list string) : bool :=
  mem key own_keys || mem key Object_prototype_names.

(** [isClosedByChild(name)] *)
Definition isClosedByChild (d : HtmlTagDefinition) (name : string) : bool :=
  isVoid d || js_in (Js.toLowerCase name) (closedByChildren d).

(** [requireExtraParent(currentParent)]; the empty string is falsy. *)
Definition requireExtraParent (d : HtmlTagDefinition)
    (currentParent : string) : bool :=
  match requiredParents d with
  | None => false
  | Some parents =>
      if negb (Js.truthy currentParent) then true
      else
        let lcParent := Js.toLowerCase currentParent in
        let isParentTemplate :=
          String.eqb lcParent "template"
          || String.eqb currentParent "ng-template" in
        negb isParentTemplate && negb (mem lcParent parents)
  end.

(** *** The table of [getHtmlTagDefinition] *)

(** The seven optional properties of the argument, in the order of the
    constructor's destructuring pattern. *)
Definition args (closedByChildren requiredParents : option (list string))
    (implicitNamespacePrefix : option string)
    (contentType : option TagContentType)
    (closedByParent isVoid ignoreFirstLf : option bool) : Options :=
  {| o_closedByChildren := closedByChildren;
     o_requiredParents := requiredParents;
     o_implicitNamespacePrefix := implicitNamespacePrefix;
     o_contentType := contentType;
     o_closedByParent := closedByParent;
     o_isVoid := isVoid;
     o_ignoreFirstLf := ignoreFirstLf |}.

(** [{ isVoid: true }] *)
Definition void_args : Options :=
  args None None None None None (Some true) None.
(** [{ closedByChildren: cs, closedByParent: true }] *)
Definition closing_args (cs : list string) : Options :=
  args (Some cs) None None None (Some true) None None.
(** [{ closedByChildren: cs }] *)
Definition children_args (cs : list string) : Options :=
  args (Some cs) None None None None None None.

(** An object literal whose values are tag definitions: its own
    properties, in source order. *)
Definition Table := list (string * HtmlTagDefinition).

Definition table (ignoreFirstLf : bool) : Table :=
  let new := new_HtmlTagDefinition in
  [ ("base", new void_args);
    ("meta", new void_args);
    ("area", new void_args);
    ("embed", new void_args);
    ("link", new void_args);
    ("img", new void_args);
    ("input", new void_args);
    ("param", new void_args);
    ("hr", new void_args);
    ("br", new void_args);
    ("source", new void_args);
    ("track", new void_args);
    ("wbr", new void_args);
    ("p", new (closing_args
       [ "address"; "article"; "aside"; "blockquote"; "div"; "dl";
         "fieldset"; "footer"; "form"; "h1"; "h2"; "h3"; "h4"; "h5"; "h6";
         "header"; "hgroup"; "hr"; "main"; "nav"; "ol"; "p"; "pre";
         "section"; "table"; "ul" ]));
    ("thead", new (children_args ["tbody"; "tfoot"]));
    ("tbody", new (closing_args ["tbody"; "tfoot"]));
    ("tfoot", new (closing_args ["tbody"]));
    ("tr", new (args (Some ["tr"]) (Some ["tbody"; "tfoot"; "thead"])
                  None None (Some true) None None));
    ("td", new (closing_args ["td"; "th"]));
    ("th", new (closing_args ["td"; "th"]));
    ("col", new (args None (Some ["colgroup"]) None None None
                   (Some true) None));
    ("svg", new (args None None (Some "svg") None None None None));
    ("math", new (args None None (Some "math") None None None None));
    ("li", new (closing_args ["li"]));
    ("dt", new (children_args ["dt"; "dd"]));
    ("dd", new (closing_args ["dt"; "dd"]));
    ("rb", new (closing_args ["rb"; "rt"; "rtc"; "rp"]));
    ("rt", new (closing_args ["rb"; "rt"; "rtc"; "rp"]));
    ("rtc", new (closing_args ["rb"; "rtc"; "rp"]));
    ("rp", new (closing_args ["rb"; "rt"; "rtc"; "rp"]));
    ("optgroup", new (closing_args ["optgroup"]));
    ("option", new (closing_args ["option"; "optgroup"]));
    ("pre", new (args None None None None None None (Some ignoreFirstLf)));
    ("listing",
       new (args None None None None None None (Some ignoreFirstLf)));
    ("style", new (args None None None (Some RAW_TEXT) None None None));
    ("script", new (args None None None (Some RAW_TEXT) None None None));
    ("title",
       new (args None None None (Some ESCAPABLE_RAW_TEXT) None None None));
    ("textarea",
       new (args None None None (Some ESCAPABLE_RAW_TEXT) None None
              (Some ignoreFirstLf))) ].

(** The own property [key] of an object literal. *)
Fixpoint own {A} (obj : list (string * A)) (key : string) : option A :=
  match obj with
  | [] => None
  | (k, v) :: rest => if String.eqb k key then Some v else own rest key
  end.

(** The module-level variables: the [Map] from cache key to table and
    the default definition, which is unset until the first lookup. *)
Record State := {
  TAG_DEFINITIONS : list (string * Table);
  _DEFAULT_TAG_DEFINITION : option HtmlTagDefinition
}.

Definition initial : State :=
  {| TAG_DEFINITIONS := []; _DEFAULT_TAG_DEFINITION := None |}.

(** What the lookup hands back.  [table[tagName] || default] is the own
    property when there is one; for a name inherited from
    [Object.prototype] it is that inherited (truthy) member and not a tag
    definition; otherwise it is the default variable. *)
Inductive Lookup :=
| Found (d : HtmlTagDefinition)
| Inherited (name : string)
| Undefined
| TypeError.

Definition cacheKeyOf (ignoreFirstLf : bool) : string :=
  "ignoreFirstLf:" ++ (if ignoreFirstLf then "true" else "false").

Definition getHtmlTagDefinition (tagName : string) (ignoreFirstLf : bool)
    (st : State) : Lookup * State :=
  let cacheKey := cacheKeyOf ignoreFirstLf in
  let st1 :=
    match own (TAG_DEFINITIONS st) cacheKey with
    | Some _ => st
    | None =>
        {| _DEFAULT_TAG_DEFINITION := Some (new_HtmlTagDefinition no_options);
           TAG_DEFINITIONS :=
             TAG_DEFINITIONS st ++ [(cacheKey, table ignoreFirstLf)] |}
    end in
  match own (TAG_DEFINITIONS st1) cacheKey with
  | None => (TypeError, st1)
  | Some defs =>
      match own defs tagName with
      | Some d => (Found d, st1)
      | None =>
          if mem tagName Object_prototype_names
          then (Inherited tagName, st1)
          else match _DEFAULT_TAG_DEFINITION st1 with
               | Some d => (Found d, st1)
               | None => (Undefined, st1)
               end
      end
  end.

(** The states the module can be in: every cached table is the one built
    for its key, and the default is set as soon as a table is cached. *)
Definition coherent (st : State) : Prop :=
  (forall key defs, own (TAG_DEFINITIONS st) key = Some defs ->
     exists flag, key = cacheKeyOf flag /\ defs = table flag) /\
  (TAG_DEFINITIONS st <> [] ->
     _DEFAULT_TAG_DEFINITION st = Some (new_HtmlTagDefinition no_options)).

(** *** Known tag names *)

(** [TAG_DICTIONARY]: the own properties of the object literal, in source
    order. *)
Definition TAG_DICTIONARY : list (string * string) :=
  [ ("A", "a"); ("ADDRESS", "address"); ("ANNOTATION_XML", "annotation-xml");
    ("APPLET", "applet"); ("AREA", "area"); ("ARTICLE", "article");
    ("ASIDE", "aside"); ("B", "b"); ("BASE", "base");
    ("BASEFONT", "basefont"); ("BGSOUND", "bgsound"); ("BIG", "big");
    ("BLOCKQUOTE", "blockquote"); ("BODY", "body"); ("BR", "br");
    ("BUTTON", "button"); ("CAPTION", "caption"); ("CENTER", "center");
    ("CODE", "code"); ("COL", "col"); ("COLGROUP", "colgroup"); ("DD", "dd");
    ("DESC", "desc"); ("DETAILS", "details"); ("DIALOG", "dialog");
    ("DIR", "dir"); ("DIV", "div"); ("DL", "dl"); ("DT", "dt"); ("EM", "em");
    ("EMBED", "embed"); ("FIELDSET", "fieldset");
    ("FIGCAPTION", "figcaption"); ("FIGURE", "figure"); ("FONT", "font");
    ("FOOTER", "footer"); ("FOREIGN_OBJECT", "foreignObject");
    ("FORM", "form"); ("FRAME", "frame"); ("FRAMESET", "frameset");
    ("H1", "h1"); ("H2", "h2"); ("H3", "h3"); ("H4", "h4"); ("H5", "h5");
    ("H6", "h6"); ("HEAD", "head"); ("HEADER", "header");
    ("HGROUP", "hgroup"); ("HR", "hr"); ("HTML", "html"); ("I", "i");
    ("IMG", "img"); ("IMAGE", "image"); ("INPUT", "input");
    ("IFRAME", "iframe"); ("KEYGEN", "keygen"); ("LABEL", "label");
    ("LI", "li"); ("LINK", "link"); ("LISTING", "listing"); ("MAIN", "main");
    ("MALIGNMARK", "malignmark"); ("MARQUEE", "marquee"); ("MATH", "math");
    ("MENU", "menu"); ("META", "meta"); ("MGLYPH", "mglyph"); ("MI", "mi");
    ("MO", "mo"); ("MN", "mn"); ("MS", "ms"); ("MTEXT", "mtext");
    ("NAV", "nav"); ("NOBR", "nobr"); ("NOFRAMES", "noframes");
    ("NOEMBED", "noembed"); ("NOSCRIPT", "noscript"); ("OBJECT", "object");
    ("OL", "ol"); ("OPTGROUP", "optgroup"); ("OPTION", "option"); ("P", "p");
    ("PARAM", "param"); ("PLAINTEXT", "plaintext"); ("PRE", "pre");
    ("RB", "rb"); ("RP", "rp"); ("RT", "rt"); ("RTC", "rtc");
    ("RUBY", "ruby"); ("S", "s"); ("SCRIPT", "script");
    ("SECTION", "section"); ("SELECT", "select"); ("SOURCE", "source");
    ("SMALL", "small"); ("SPAN", "span"); ("STRIKE", "strike");
    ("STRONG", "strong"); ("STYLE", "style"); ("SUB", "sub");
    ("SUMMARY", "summary"); ("SUP", "sup"); ("TABLE", "table");
    ("TBODY", "tbody"); ("TEMPLATE", "template"); ("TEXTAREA", "textarea");
    ("TFOOT", "tfoot"); ("TD", "td"); ("TH", "th"); ("THEAD", "thead");
    ("TITLE", "title"); ("TR", "tr"); ("TRACK", "track"); ("TT", "tt");
    ("U", "u"); ("UL", "ul"); ("SVG", "svg"); ("VAR", "var"); ("WBR", "wbr");
    ("XMP", "xmp") ].

(** [isKnownHTMLTag(tagName)] *)
Definition isKnownHTMLTag (tagName : string) : bool :=
  js_in (Js.toUpperCase tagName) (map fst TAG_DICTIONARY).

(** The states the module goes through: the one it is loaded in, and the
    one after every lookup. *)
Inductive reachable : State -> Prop :=
| reachable_initial : reachable initial
| reachable_lookup (st : State) (tagName : string) (flag : bool) :
    reachable st ->
    reachable (snd (getHtmlTagDefinition tagName flag st)).

End Registry.

(* ================================================================== *)
(** ** The formatter: tree, helper predicates, visitor and traversal *)
(* ================================================================== *)

Module Formatter.

(** *** Nodes (hast) *)

(** What a node is, with the properties that only that kind of node has:
    an element has a tag name and properties (attribute values are taken
    as strings), text and comments have a value. *)
Inductive Kind :=
| KRoot
| KElement (tagName : string) (properties : list (string * string))
| KText (value : string)
| KComment (value : string)
| KDoctype.

Inductive NodeType := root | element | text | comment | doctype.

(** A node object.  [children] is missing on the leaves the parser makes;
    [indentLevel] is [node.data.indentLevel], missing until [setData]
    writes it. *)
Inductive Node := mkNode {
  kind : Kind;
  children : option (list Node);
  indentLevel : option Z
}.

Definition type (n : Node) : NodeType :=
  match kind n with
  | KRoot => root
  | KElement _ _ => element
  | KText _ => text
  | KComment _ => comment
  | KDoctype => doctype
  end.

Definition tagName (n : Node) : option string :=
  match kind n with KElement t _ => Some t | _ => None end.

Definition properties (n : Node) : list (string * string) :=
  match kind n with KElement _ ps => ps | _ => [] end.

Definition value (n : Node) : option string :=
  match kind n with
  | KText v | KComment v => Some v
  | _ => None
  end.

Definition NodeType_eqb (a b : NodeType) : bool :=
  match a, b with
  | root, root | element, element | text, text
  | comment, comment | doctype, doctype => true
  | _, _ => false
  end.

(** [{ type: 'text', value: v }] *)
Definition text_node (v : string) : Node :=
  {| kind := KText v; children := None; indentLevel := None |}.

Definition set_children (cs : list Node) (n : Node) : Node :=
  {| kind := kind n; children := Some cs; indentLevel := indentLevel n |}.

Definition set_kind (k : Kind) (n : Node) : Node :=
  {| kind := k; children := children n; indentLevel := indentLevel n |}.

(** [setData(node, 'indentLevel', value)] *)
Definition setData (v : Z) (n : Node) : Node :=
  {| kind := kind n; children := children n; indentLevel := Some v |}.

(** [node.children || []] *)
Definition children_or_empty (n : Node) : list Node :=
  match children n with Some cs => cs | None => [] end.

(** [is(t, node)] of unist-util-is; [node] may be [undefined]. *)
Definition is_ (t : NodeType) (n : option Node) : bool :=
  match n with Some n => NodeType_eqb (type n) t | None => false end.

(** [isElement(node)] and [isElement(node, names)] of
    hast-util-is-element. *)
Definition isElement (n : Node) : bool := NodeType_eqb (type n) element.

Definition isElementNamed (names : list string) (n : Node) : bool :=
  match kind n with
  | KElement t _ => existsb (String.eqb t) names
  | _ => false
  end.

(** Nodes below and including [n], counted along the longest branch. *)
Fixpoint height (n : Node) : nat :=
  match n with
  | mkNode _ None _ => 1
  | mkNode _ (Some cs) _ => S (fold_right (fun c m => Nat.max (height c) m) 0 cs)
  end.

(** [find(tree, test)] of unist-util-find: the first node, in document
    order and starting with [tree] itself, that passes the test. *)
Fixpoint find (test : Node -> bool) (n : Node) : option Node :=
  if test n then Some n
  else
    match n with
    | mkNode _ None _ => None
    | mkNode _ (Some cs) _ =>
        (fix first (l : list Node) : option Node :=
           match l with
           | [] => None
           | c :: r =>
               match find test c with
               | Some hit => Some hit
               | None => first r
               end
           end) cs
    end.

(** [toString(node)] of hast-util-to-string: the values of the text
    nodes below, in document order. *)
Fixpoint toString_one (n : Node) : string :=
  match n with
  | mkNode (KText v) _ _ => v
  | mkNode _ None _ => EmptyString
  | mkNode _ (Some cs) _ =>
      fold_right (fun c acc => (toString_one c ++ acc)%string) EmptyString cs
  end.

Definition toString (n : Node) : string :=
  match children n with
  | Some cs => fold_right (fun c acc => (toString_one c ++ acc)%string) EmptyString cs
  | None => match value n with Some v => v | None => EmptyString end
  end.

(** *** Constants *)

Definition single : string := String Js.LF EmptyString.
Definition space : string := " ".
Definition double : string := String Js.LF (String Js.LF EmptyString).

(** *** Outcomes: a value, an exception, or the traversal's budget spent *)

Inductive Outcome (A : Type) :=
| Done (a : A)
| Thrown (what : string)
| OutOfFuel.
Arguments Done {A} a.
Arguments Thrown {A} what.
Arguments OutOfFuel {A}.

Definition bind {A B} (m : Outcome A) (k : A -> Outcome B) : Outcome B :=
  match m with
  | Done a => k a
  | Thrown w => Thrown w
  | OutOfFuel => OutOfFuel
  end.

Notation "x <- m ;; k" := (bind m (fun x => k))
  (at level 61, m at next level, right associativity).

(** What the visitor returns to the traversal: nothing, [visit.SKIP], or
    the index of the sibling to go on with. *)
Inductive Action := CONTINUE | SKIP | GOTO (index : nat).

(** *** Helper predicates, in source order *)

Definition endsWithNewline (node : option Node) : bool :=
  is_ text node &&
  match node with
  | Some n =>
      match value n with
      | Some v => Js.truthy v && Js.test_trailing_lf v
      | None => false
      end
  | None => false
  end.

Definition startsWithNewline (node : Node) : bool :=
  is_ text (Some node) &&
  match value node with
  | Some v => Js.truthy v && Js.test_leading_lf v
  | None => false
  end.

Definition containsOnlyTextNodes (children : list Node) : bool :=
  match children with
  | [] => false
  | _ => forallb (fun n => is_ text (Some n)) children
  end.

Definition containsOnlyEmptyTextNodes (node : Node) : bool :=
  match children_or_empty node with
  | [] => false
  | cs =>
      forallb (fun n => is_ text (Some n)
                        && Js.test_only_space (Js.to_string (value n))) cs
  end.

Definition handleTemplateExpression (child : Node) (children : list Node)
    : bool :=
  if isTemplateExpression (value child) then
    (* dont touch nodes with single text element *)
    if containsOnlyTextNodes children then false
    (* dont add newline when newline is already in text *)
    else if startsWithNewline child then false
    else true
  else false.

Definition beforeChildNodeAddedHook (node : Node) (children : list Node)
    (child : Node) (index : nat) (prev : option Node) : bool :=
  if handleTemplateExpression child children then true
  (* insert newline when tag is on the same line as the comment *)
  else if is_ comment prev then true
  else if isElementNamed ["script"; "style"] child && negb (index =? 0)%nat
  then true
  else
    (* don't add newline on the first element *)
    let isRootElement := NodeType_eqb (type node) root && (index =? 0)%nat in
    if isRootElement then false
    else
      let isChildTextElement := is_ text (Some child) in
      negb isChildTextElement.

Definition value_includes (sub : string) (n : option Node) : bool :=
  match n with
  | Some n =>
      match value n with Some v => Js.includes sub v | None => false end
  | None => false
  end.

Definition lower_value_includes (sub : string) (n : option Node) : bool :=
  match n with
  | Some n =>
      match value n with
      | Some v => Js.includes sub (Js.toLowerCase v)
      | None => false
      end
  | None => false
  end.

Definition isElementAfterConditionalComment (node child : Node)
    (index : nat) (prev : option Node) : bool :=
  (* insert double newline when conditional comment is before element *)
  is_ comment prev && value_includes "if" prev && isElement child.

Definition isConCommentFollowedByComment (node child : Node)
    (index : nat) (prev : option Node) : bool :=
  is_ comment prev && lower_value_includes "if" prev
  && is_ comment (Some child)
  && negb (lower_value_includes "if" (Some child)).

(** [indentPrettierOutput(formattedText, level)]; the unit here is two
    spaces whatever the configured indentation is. *)
Definition indentPrettierOutput (formattedText : string) (level : Z)
    : string :=
  let lines := Js.split_lf formattedText in
  Js.join_lf
    (map (fun line =>
            if Js.has_ink line then (Js.repeat "  " level ++ line)%string
            else line)
         lines).

(** [node.properties[name] ? node.properties[name].toLowerCase() : ''] *)
Definition lower_property (name : string) (node : Node) : string :=
  match Registry.own (properties node) name with
  | Some v => Js.toLowerCase v
  | None => EmptyString
  end.

(** *** [format(options)] *)

(** The options that reach the formatter.  [tabWidth] and [usePrettier]
    may be missing; the prettier options are part of the formatter the
    engine is run with (see [prettier_format] below). *)
Record Settings := {
  tabWidth : option Z;
  useTabs : bool;
  usePrettier : option bool
}.

(** [settings.tabWidth || 2]: a missing or zero width is two. *)
Definition tabWidth_of (settings : Settings) : Z :=
  match tabWidth settings with
  | Some w => if Z.eqb w 0 then 2%Z else w
  | None => 2%Z
  end.

Definition indent_of (settings : Settings) : string :=
  if useTabs settings then String Js.TAB EmptyString
  else Js.repeat space (tabWidth_of settings).

(** [settings.usePrettier !== false] *)
Definition usePrettier_of (settings : Settings) : bool :=
  match usePrettier settings with Some false => false | _ => true end.

(** The [parser] option [prettier.format] is called with: the name the
    formatter chose, or whatever [settings.prettier] holds under the key
    [parser] when it has that key. *)
Inductive Parser := Named (name : string) | Configured.

Section Engine.

(** The packages the formatter is linked with: the two tag-name lists
    (html-void-elements, html-whitespace-sensitive-tag-names), the
    white-space pre-pass (rehype-minify-whitespace with
    [newlines: true]) and [prettier.format], which answers [None] when it
    throws.  Its first argument is the [parser] option it is handed, its
    second the source text; the other options are those of
    [settings.prettier].  [prettierOpts_parser] says whether
    [settings.prettier] has a key [parser] of its own. *)
Variable voids : list string.
Variable sensitive : list string.
Variable minify : Node -> Node.
Variable prettierOpts_parser : bool.
Variable prettier_format : Parser -> string -> option string.

Definition isVoid (node : Node) : bool :=
  match tagName node with
  | Some t => existsb (String.eqb t) voids
  | None => false
  end.

(** [ignore(nodes)]: some node of the chain has a sensitive tag name. *)
Definition ignore (nodes : list Node) : bool :=
  existsb (fun n => match tagName n with
                    | Some t => existsb (String.eqb t) sensitive
                    | None => false
                    end) (rev nodes).

Definition isPageMode (ast : Node) : bool :=
  match find (isElementNamed ["html"; "body"; "head"]) ast with
  | Some _ => false
  | None => true
  end.

Definition afterChildNodesAddedHook (node : Node) (prev : option Node)
    : bool :=
  let hasChilds := (0 <? List.length (children_or_empty node))%nat in
  (* e.g <label><input/>foo</label> *)
  if hasChilds && negb (containsOnlyTextNodes (children_or_empty node))
     && negb (isVoid node)
  then true
  else
    (* e.g <label>foo</label> *)
    let isPrevRawText := is_ text prev in
    hasChilds && negb (isVoid node) && negb isPrevRawText.

(** The parser name chosen for a [style] and for a [script] element. *)
Definition style_parser (node : Node) : string :=
  let typeAttr := lower_property "type" node in
  if String.eqb typeAttr "text/x-scss" then "scss"
  else if String.eqb typeAttr "text/less" then "less"
  else
    let langAttr := lower_property "lang" node in
    if String.eqb langAttr "postcss" then "css"
    else if String.eqb langAttr "scss" then "scss"
    else if String.eqb langAttr "less" then "less"
    else "css".

Definition script_parser (node : Node) : string :=
  let typeAttr := lower_property "type" node in
  if Js.includes "json" typeAttr then "json"
  else if String.eqb typeAttr "application/x-typescript" then "typescript"
  else
    let langAttr := lower_property "lang" node in
    if String.eqb langAttr "ts" || String.eqb langAttr "tsx"
    then "typescript"
    else "babylon".

(** [Object.assign({ parser }, prettierOpts).parser]: a key [parser] of
    the prettier options replaces the parser that was chosen. *)
Definition parser_option (parser : string) : Parser :=
  if prettierOpts_parser then Configured else Named parser.

(** The parsers [getParser] can choose, and the [parser] options
    [prettier.format] can be handed in consequence. *)
Definition chosen_parsers : list string :=
  ["css"; "scss"; "less"; "json"; "typescript"; "babylon"].

Definition asked (p : Parser) : Prop :=
  exists name, In name chosen_parsers /\ p = parser_option name.

(** The three text nodes that replace the content of a formatted
    [style] or [script] element. *)
Definition embedded_children (formattedText indent : string) (level : Z)
    : list Node :=
  [ text_node single;
    text_node formattedText;
    text_node (Js.repeat indent (level - 1)) ].

Definition prettierEmbeddedContent (node : Node) (level : Z)
    (indent : string) : Outcome Node :=
  if isElementNamed ["style"] node then
    let content := toString node in
    match prettier_format (parser_option (style_parser node)) content with
    | None => Thrown "prettier.format"
    | Some formattedText =>
        let formattedText := indentPrettierOutput formattedText level in
        Done (set_children
                (embedded_children formattedText indent level) node)
    end
  else if isElementNamed ["script"] node then
    let content := toString node in
    match prettier_format (parser_option (script_parser node)) content with
    | None => Thrown "prettier.format"
    | Some formattedText =>
        let formattedText := indentPrettierOutput formattedText level in
        let formattedText := Js.escape_script_close formattedText in
        Done (set_children
                (embedded_children formattedText indent level) node)
    end
  else Done node.

(** *** The visitor *)

(** [level]: the number of ancestors, one less when [indentInitial] is
    [false]. *)
Definition level_of (indentInitial : bool) (parents : list Node) : Z :=
  let level := Z.of_nat (List.length parents) in
  if negb indentInitial then (level - 1)%Z else level.

(** The position of the first element of a child list. *)
Fixpoint first_element (cs : list Node) : option nat :=
  match cs with
  | [] => None
  | c :: rest =>
      if isElement c then Some 0%nat
      else option_map S (first_element rest)
  end.

(** The prettyhtml-ignore comment: when the visited node is such a
    comment and an element follows it in its parent, the index after
    that element.  [index] is [parent.children.indexOf(node)], the
    place at which the traversal found the node; it is missing, like
    the parent, for the tree's top node. *)
Definition ignore_flag (node : Node) (index : option nat)
    (parents : list Node) : option nat :=
  match kind node with
  | KComment v =>
      if Js.includes "prettyhtml-ignore" v then
        match last (map Some parents) None, index with
        | Some parent, Some nodeIndex =>
            match first_element
                    (skipn nodeIndex (children_or_empty parent)) with
            | Some k => Some (nodeIndex + k + 1)%nat
            | None => None
            end
        | _, _ => None
        end
      else None
  | _ => None
  end.

(** Indent the last line of a comment that has several lines. *)
Definition indent_last_line (indent : string) (level : Z) (v : string)
    : string :=
  let commentLines := Js.split_lf v in
  if (1 <? List.length commentLines)%nat then
    Js.join_lf
      (removelast commentLines
         ++ [ (Js.repeat indent (level - 1)
               ++ Js.trim (last commentLines EmptyString))%string ])
  else v.

Definition indent_comment (indent : string) (level : Z) (node : Node)
    : Node :=
  match kind node with
  | KComment v => set_kind (KComment (indent_last_line indent level v)) node
  | _ => node
  end.

(** The first loop over the children: text is trimmed of blanks at both
    ends and every linefeed in it is followed by the indentation. *)
Definition indent_text (indent : string) (level : Z) (child : Node)
    : Node :=
  match kind child with
  | KText v =>
      set_kind (KText (Js.after_each_lf (Js.repeat indent level)
                         (Js.strip_blanks v))) child
  | _ => child
  end.

Definition has_linefeed (child : Node) : bool :=
  match kind child with
  | KText v => Js.includes single v
  | _ => false
  end.

(** The text put before [child], if any: [double] or [single]. *)
Definition break_before (node : Node) (children : list Node)
    (child : Node) (index : nat) (prevChild : option Node)
    (newline : bool) : option string :=
  if isElementAfterConditionalComment node child index prevChild
     || isConCommentFollowedByComment node child index prevChild
  then Some double
  else if (negb (endsWithNewline prevChild)
           && beforeChildNodeAddedHook node children child index prevChild)
          || (newline && (index =? 0)%nat)
  then Some single
  else None.

(** The second loop: [rest] are the children from [index] on and
    [prevChild] is the child before them.  [children] is the whole
    array, of which the hooks read the node types only. *)
Fixpoint rebuild (node : Node) (children : list Node) (indent : string)
    (level : Z) (newline : bool) (index : nat) (prevChild : option Node)
    (rest : list Node) : list Node :=
  match rest with
  | [] => []
  | child :: rest' =>
      let indentLevel := level in
      let child := setData indentLevel child in
      let pushed :=
        match break_before node children child index prevChild newline with
        | Some linefeeds =>
            [ text_node (linefeeds ++ Js.repeat indent indentLevel) ]
        | None => []
        end in
      pushed ++ child
        :: rebuild node children indent level newline (S index)
             (Some child) rest'
  end.

(** [{ type: 'text', value: single + repeat(indent, level - 1) }] *)
Definition closing_break (indent : string) (level : Z) : Node :=
  text_node (single ++ Js.repeat indent (level - 1)).

(** The part of the visitor that rewrites the child list. *)
Definition rewrite_children (indent : string) (level : Z) (node : Node)
    : Node :=
  let children := children_or_empty node in
  let is_root := NodeType_eqb (type node) root in
  let newline := negb is_root && existsb has_linefeed children in
  let children :=
    if is_root then children else map (indent_text indent level) children in
  let result :=
    rebuild node children indent level newline 0 None children in
  let prevChild := last (map (fun c => Some (setData level c)) children) None in
  if afterChildNodesAddedHook (set_children result node) prevChild
     || newline
  then set_children (result ++ [closing_break indent level]) node
  else set_children result node.

(** The part of the visitor for a white-space sensitive node. *)
Definition skip_sensitive (indent : string) (usePrettier : bool)
    (level : Z) (node : Node) : Outcome (Node * Action) :=
  let length := List.length (children_or_empty node) in
  let node := setData (level - 1) node in
  if (0 <? length)%nat then
    (* clear empty script, textarea, pre, style tags *)
    let empty := containsOnlyEmptyTextNodes node in
    let node := if empty then set_children [] node else node in
    if usePrettier && negb empty then
      node <- prettierEmbeddedContent node level indent ;;
      Done (node, SKIP)
    else Done (node, SKIP)
  else Done (node, SKIP).

Definition visitor (indent : string) (usePrettier indentInitial : bool)
    (node : Node) (index : option nat) (parents : list Node)
    : Outcome (Node * Action) :=
  let level := level_of indentInitial parents in
  match ignore_flag node index parents with
  | Some next => Done (node, GOTO next)
  | None =>
      let node := indent_comment indent level node in
      if ignore (parents ++ [node]) then
        skip_sensitive indent usePrettier level node
      else Done (rewrite_children indent level node, CONTINUE)
  end.

(** *** The traversal (unist-util-visit-parents) *)

(** [all(children, parents)]: the children are visited from left to
    right; a visit that answers an index moves the loop to that index.
    [index] is the position of the head of [rest] and [next] the
    position the loop is to visit next.  The visitor above only ever
    answers an index beyond the visited child (see
    [visitor_goto_forward]), so the loop never turns back. *)
Fixpoint all_from (visit : Node -> nat -> Outcome (Node * Action))
    (index next : nat) (rest : list Node) : Outcome (list Node) :=
  match rest with
  | [] => Done []
  | child :: rest' =>
      if (index <? next)%nat then
        rest'' <- all_from visit (S index) next rest' ;;
        Done (child :: rest'')
      else
        r <- visit child index ;;
        let next :=
          match snd r with GOTO k => k | _ => S index end in
        rest'' <- all_from visit (S index) next rest' ;;
        Done (fst r :: rest'')
  end.

(** [one(node, index, parents)].  The visitor has rewritten
    [node.children] by the time they are walked, so the walk is over the
    new list; [fuel] bounds the depth of the walk. *)
Fixpoint one (fuel : nat) (indent : string)
    (usePrettier indentInitial : bool) (node : Node) (index : option nat)
    (parents : list Node) : Outcome (Node * Action) :=
  match fuel with
  | O => OutOfFuel
  | S fuel' =>
      r <- visitor indent usePrettier indentInitial node index parents ;;
      let (node, result) := r in
      match children node, result with
      | Some _, SKIP => Done (node, result)
      | Some cs, _ =>
          cs' <- all_from
                   (fun child i =>
                      one fuel' indent usePrettier indentInitial child
                        (Some i) (parents ++ [node]))
                   0 0 cs ;;
          Done (set_children cs' node, result)
      | None, _ => Done (node, result)
      end
  end.

(** [visit(root, visitor)].  The budget is the height of the tree, which
    is all a walk needs (see [one_fuel]). *)
Definition visit (indent : string) (usePrettier indentInitial : bool)
    (tree : Node) : Outcome Node :=
  r <- one (height tree) indent usePrettier indentInitial tree None [] ;;
  Done (fst r).

(** [transform(tree)], in the closure made by [format(options)]. *)
Definition transform (options : Settings) (tree : Node) : Outcome Node :=
  (* check if we are in page mode to indent the first level *)
  let indentInitial := isPageMode tree in
  let root := minify tree in
  visit (indent_of options) (usePrettier_of options) indentInitial root.

End Engine.

(** [format(options)] answers [transform]. *)
Definition format := transform.

(** *** The linked packages, for running the engine on examples *)

(** The names in html-void-elements. *)
Definition html_void_elements : list string :=
  [ "area"; "base"; "basefont"; "bgsound"; "br"; "col"; "command";
    "embed"; "frame"; "hr"; "image"; "img"; "input"; "isindex"; "keygen";
    "link"; "menuitem"; "meta"; "nextid"; "param"; "source"; "track";
    "wbr" ].

(** The names in html-whitespace-sensitive-tag-names. *)
Definition html_whitespace_sensitive_tag_names : list string :=
  [ "pre"; "script"; "style"; "textarea" ].

(** A formatter that hands its input back. *)
Definition prettier_echo (parser : Parser) (content : string)
    : option string :=
  Some content.

(** *** The white-space pre-pass

    rehype-minify-whitespace (version 2) with [newlines: true], which the
    formatter runs on the tree before it walks it.  In every text node
    outside white-space sensitive elements, each run of white space becomes
    one character, a linefeed if the run holds one and a space if not;
    then a white-space character at the start of the text is dropped when
    the node has no previous sibling or that sibling is not inline, and
    one at the end when it has no next sibling or that one is not inline;
    in the first [head] element every sibling counts as not inline.  A
    text node that is left empty is removed.  Which elements are inline is
    [inline]; text always is. *)
Section Minify.

Variable inline : Node -> bool.
Variable whitespaceSensitive : list string.

(** [collapseToNewLines(value)]; [run] is the run of white space that is
    being read, if any, with whether a linefeed was met in it. *)
Fixpoint collapse_from (run : option bool) (value : string) : string :=
  let close (rest : string) : string :=
    match run with
    | Some true => String Js.LF rest
    | Some false => String Js.SPACE rest
    | None => rest
    end in
  match value with
  | EmptyString => close EmptyString
  | String c r =>
      if Js.is_space c then
        collapse_from
          (Some (Js.is_lf c || match run with Some lf => lf | None => false end))
          r
      else close (String c (collapse_from None r))
  end.

Definition collapseToNewLines (value : string) : string :=
  collapse_from None value.

(** [empty(character)] *)
Definition empty (c : ascii) : bool :=
  Ascii.eqb c Js.SPACE || Ascii.eqb c Js.LF.

Definition collapsable (node : Node) : bool :=
  is_ text (Some node) || inline node.

(** [viable(node)]; [node] is a sibling, or [undefined]. *)
Definition viable (inside : bool) (node : option Node) : bool :=
  match node with
  | None => true
  | Some n => inside || negb (collapsable n)
  end.

Fixpoint drop_last (value : string) : string :=
  match value with
  | EmptyString => EmptyString
  | String c EmptyString => if empty c then EmptyString else value
  | String c r => String c (drop_last r)
  end.

(** [value.slice(start, end)] for the [start] and [end] the visitor
    computes. *)
Definition trimmed (inside : bool) (prev next : option Node)
    (value : string) : string :=
  let value :=
    match value with
    | String c r => if empty c && viable inside prev then r else value
    | EmptyString => value
    end in
  if viable inside next then drop_last value else value.

(** [visitor(node, index, parent)]: [prev] and [next] are the siblings
    of [node] in [parent.children] as it is when [node] is reached, and
    [seen] says whether a [head] element has been met.  The answer is
    what is left of [node], if anything, and the new [seen]. *)
Fixpoint minify_visitor (inside seen : bool) (prev next : option Node)
    (node : Node) : option Node * bool :=
  match node with
  | mkNode k ch d =>
      let value :=
        match k with
        | KText v => Some (trimmed inside prev next (collapseToNewLines v))
        | _ => None
        end in
      match value with
      | Some EmptyString => (None, seen)
      | _ =>
          let k :=
            match value with Some v => KText v | None => k end in
          let head :=
            negb seen && negb inside && isElementNamed ["head"] node in
          let inside := inside || head in
          let seen := seen || head in
          match ch with
          | Some cs =>
              if isElementNamed whitespaceSensitive node
              then (Some (mkNode k ch d), seen)
              else
                let (cs, seen) :=
                  (fix all (prev : option Node) (seen : bool)
                       (l : list Node) : list Node * bool :=
                     match l with
                     | [] => ([], seen)
                     | c :: rest =>
                         match minify_visitor inside seen prev
                                 (hd_error rest) c with
                         | (None, seen) => all prev seen rest
                         | (Some c, seen) =>
                             let (rest, seen) := all (Some c) seen rest in
                             (c :: rest, seen)
                         end
                     end) None seen cs in
                (Some (mkNode k (Some cs) d), seen)
          | None => (Some (mkNode k None d), seen)
          end
      end
  end.

(** [minify(tree, options)].  The tree handed to the formatter is a
    root; a tree that is itself a text node has no parent to look
    siblings up in, and is handed back. *)
Definition minify_whitespace (tree : Node) : Node :=
  match kind tree with
  | KText _ => tree
  | _ =>
      match minify_visitor false false None None tree with
      | (Some tree, _) => tree
      | (None, _) => tree
      end
  end.

End Minify.

(** The element names the package takes for inline (its [list]), with
    those of the embedded content (hast-util-embedded). *)
Definition inline_names : list string :=
  [ "a"; "abbr"; "acronym"; "b"; "basefont"; "big"; "bdi"; "bdo"; "blink";
    "button"; "cite"; "code"; "data"; "del"; "dfn"; "em"; "font"; "i";
    "input"; "ins"; "kbd"; "keygen"; "label"; "mark"; "marquee"; "meter";
    "nobr"; "output"; "q"; "rb"; "rbc"; "rp"; "rt"; "rtc"; "ruby"; "s";
    "samp"; "select"; "small"; "span"; "strike"; "strong"; "sub"; "sup";
    "textarea"; "time"; "tt"; "u"; "var"; "wbr";
    "audio"; "canvas"; "embed"; "iframe"; "img"; "math"; "object";
    "picture"; "svg"; "video" ].

(** The pre-pass as the formatter requires it. *)
Definition rehype_minify_whitespace : Node -> Node :=
  minify_whitespace (isElementNamed inline_names)
    html_whitespace_sensitive_tag_names.

Definition two_spaces : Settings :=
  {| tabWidth := Some 2%Z; useTabs := false; usePrettier := None |}.

(** Builders for example trees. *)
Definition Root (cs : list Node) : Node := mkNode KRoot (Some cs) None.
Definition Element (name : string) (cs : list Node) : Node :=
  mkNode (KElement name []) (Some cs) None.
Definition Text (v : string) : Node := text_node v.
Definition Comment (v : string) : Node := mkNode (KComment v) None None.

(** *** Example trees and runs *)

(** [<div><p>A</p><p>B</p></div>] *)
Definition fragment : Node :=
  Root [Element "div" [Element "p" [Text "A"]; Element "p" [Text "B"]]].

(** [<html><head></head><body><p>A</p></body></html>] *)
Definition page : Node :=
  Root [Element "html"
          [Element "head" []; Element "body" [Element "p" [Text "A"]]]].

(** [<div><!--[if IE]--><p></p></div>] *)
Definition conditional : Node :=
  Element "div" [Comment "[if IE]"; Element "p" []].

(** A [br] element that was given text children. *)
Definition br_one_line : Node := Element "br" [Text "a"].
Definition br_two_lines : Node :=
  Element "br" [Text ("a" ++ single ++ "b")%string].

(** [<pre>  foo\n   bar</pre>] and [<script>x</script>] *)
Definition preformatted : Node :=
  Element "pre" [Text ("  foo" ++ single ++ "   bar")%string].

(** The visitor and the transform, linked with the package lists and the
    echoing formatter. *)
Definition run_visitor :=
  visitor html_void_elements html_whitespace_sensitive_tag_names false
    prettier_echo.
Definition run_one :=
  one html_void_elements html_whitespace_sensitive_tag_names false prettier_echo.
Definition run_transform (minify : Node -> Node) :=
  transform html_void_elements html_whitespace_sensitive_tag_names minify
    false prettier_echo two_spaces.

(** [<p>a\nb</p>], a paragraph whose text has two lines. *)
Definition two_line_paragraph : Node :=
  Root [Element "p" [Text ("a" ++ single ++ "b")%string]].

(** The result of a walk that is known to end. *)
Definition run_one_result (fuel : nat) (indent : string)
    (usePrettier indentInitial : bool) (node : Node) (index : option nat)
    (parents : list Node) : Node * Action :=
  match run_one fuel indent usePrettier indentInitial node index parents with
  | Done r => r
  | _ => (node, CONTINUE)
  end.

(** The value of an outcome, if it has one. *)
Definition done {A} (o : Outcome A) : option A :=
  match o with Done a => Some a | _ => None end.

(** [fragment], formatted. *)
Definition formatted_fragment : Node :=
  Eval vm_compute in
    match run_transform rehype_minify_whitespace fragment with
    | Done r => r
    | _ => fragment
    end.

(** *** Vocabulary of the properties *)

(** [Within d n]: [d] is [n] or lies below it. *)
Inductive Within : Node -> Node -> Prop :=
| Within_self (n : Node) : Within n n
| Within_child (d c n : Node) (cs : list Node) :
    children n = Some cs -> In c cs -> Within d c -> Within d n.

(** The elements that make a tree a page. *)
Definition is_page_element (n : Node) : bool :=
  isElementNamed ["html"; "body"; "head"] n.

(** A break: a fresh text node holding one or two linefeeds and then
    copies of the indentation. *)
Definition is_break (indent : string) (n : Node) : Prop :=
  exists (linefeeds : string) (copies : nat),
    (linefeeds = single \/ linefeeds = double)
    /\ n = text_node (linefeeds ++ Js.repeat_nat indent copies).

(** [Interleaved indent originals result]: [result] is [originals], in
    their order, with breaks put between, before or after them. *)
Inductive Interleaved (indent : string) : list Node -> list Node -> Prop :=
| Interleaved_nil : Interleaved indent [] []
| Interleaved_keep (c : Node) (originals result : list Node) :
    Interleaved indent originals result ->
    Interleaved indent (c :: originals) (c :: result)
| Interleaved_break (b : Node) (originals result : list Node) :
    is_break indent b ->
    Interleaved indent originals result ->
    Interleaved indent originals (b :: result).

(** The children as the second loop finds them: the first loop has
    indented the text children, except under the root. *)
Definition prepared (indent : string) (level : Z) (node : Node) : list Node :=
  if NodeType_eqb (type node) root then children_or_empty node
  else map (indent_text indent level) (children_or_empty node).

(** What is left of a string when its white space is taken out. *)
Fixpoint ink (s : string) : string :=
  match s with
  | EmptyString => EmptyString
  | String c r => if Js.is_space c then ink r else String c (ink r)
  end.

(** The text of a node, without its white space. *)
Definition ink_of (n : Node) : option string :=
  match kind n with KText v => Some (ink v) | _ => None end.

(** What a skipped white-space sensitive node becomes when its content is
    not handed to prettier: annotated, and emptied if its content was
    blank. *)
Definition skipped (level : Z) (node : Node) : Node :=
  {| kind := kind node;
     children :=
       if containsOnlyEmptyTextNodes node then Some [] else children node;
     indentLevel := Some (level - 1)%Z |}.

(** [Survives lv c c']: what a walk through [c] leaves of it in [c']: its
    type, its kind unless it is a comment (whose last line may have been
    indented), and an annotation [lv] if it had that one. *)
Definition Survives (lv : Z) (c c' : Node) : Prop :=
  type c' = type c
  /\ (type c <> comment -> kind c' = kind c)
  /\ (indentLevel c = Some lv -> indentLevel c' = Some lv).

(** [flag_free n]: no comment in [n] holds the prettyhtml-ignore flag. *)
Fixpoint flag_free (n : Node) : bool :=
  match n with
  | mkNode k ch _ =>
      negb match k with
           | KComment v => Js.includes "prettyhtml-ignore" v
           | _ => false
           end
      && match ch with
         | None => true
         | Some cs => forallb flag_free cs
         end
  end.

(** [Alike sensitive n n']: the two trees are the same but for what a walk
    writes anew wherever it goes: the annotations, and the empty child
    list it gives to a leaf.  Below a node with a white-space sensitive
    tag name, where no walk goes, they are the same altogether. *)
Inductive Alike (sensitive : list string) : Node -> Node -> Prop :=
| Alike_walked (n n' : Node) :
    kind n = kind n' ->
    ignore sensitive [n] = false ->
    Forall2 (Alike sensitive) (children_or_empty n) (children_or_empty n') ->
    Alike sensitive n n'
| Alike_same (n n' : Node) :
    kind n = kind n' ->
    children n = children n' ->
    Alike sensitive n n'.

(** A child as the walk meets it next to the one it is alike: with the
    same annotation, and free of the prettyhtml-ignore flag. *)
Definition twin (sensitive : list string) (c c' : Node) : Prop :=
  Alike sensitive c c' /\ indentLevel c = indentLevel c'
  /\ flag_free c = true.

(** Parent chains in which the same tag names follow one another. *)
Definition same_chain (parents parents' : list Node) : Prop :=
  map tagName parents = map tagName parents'.

(** Running a transform on its own result. *)
Definition twice (f : Node -> Outcome Node) (tree : Node) : Outcome Node :=
  r <- f tree ;; f r.

(** The kind of a node, with the white space taken out of its text. *)
Definition gist (k : Kind) : Kind :=
  match k with
  | KText v => KText (ink v)
  | KComment v => KComment (ink v)
  | _ => k
  end.

(** What white space cannot change in a tree: its nodes in document
    order, each opened by the gist of its kind and closed by [None];
    a text node stands for itself there, and not at all when it holds
    white space only. *)
Fixpoint essence (n : Node) : list (option Kind) :=
  match n with
  | mkNode k ch _ =>
      match k with
      | KText v =>
          match ink v with
          | EmptyString => []
          | _ => [Some (gist k)]
          end
      | _ =>
          Some (gist k)
            :: match ch with
               | None => []
               | Some cs => flat_map essence cs
               end
            ++ [None]
      end
  end.

(** [embedded_free n]: no [style] and no [script] element in [n]. *)
Fixpoint embedded_free (n : Node) : bool :=
  match n with
  | mkNode k ch _ =>
      negb match k with
           | KElement t _ => existsb (String.eqb t) ["style"; "script"]
           | _ => false
           end
      && match ch with
         | None => true
         | Some cs => forallb embedded_free cs
         end
  end.

(** [<div><!-- prettyhtml-ignore --><p>a\nb</p></div>] *)
Definition ignored_paragraph : Node :=
  Element "div"
    [Comment " prettyhtml-ignore ";
     Element "p" [Text ("a" ++ single ++ "b")%string]].

(** *** Levels and annotations *)

(** [Kept indent level c c']: what the walk leaves in [c'] of a child [c]
    of a node whose level is [level]: its kind, but for the last line of
    a comment, which the visit of the child one level further down may
    have indented; and the annotation [level]. *)
Definition Kept (indent : string) (level : Z) (c c' : Node) : Prop :=
  (kind c' = kind c \/ kind c' = kind (indent_comment indent (level + 1) c))
  /\ indentLevel c' = Some level.

(** [Walked indent level x x']: what a walk leaves in [x'] of a node [x]
    in the child list of a node of level [level], whatever way the
    visitor ends: the kind as in [Kept], the annotation [level] if [x]
    had it, and the annotation [x] had if it has no tag name. *)
Definition Walked (indent : string) (level : Z) (x x' : Node) : Prop :=
  (kind x' = kind x \/ kind x' = kind (indent_comment indent (level + 1) x))
  /\ (indentLevel x = Some level -> indentLevel x' = Some level)
  /\ (tagName x = None -> indentLevel x' = indentLevel x).

(** A text node with the value [v] and without annotation. *)
Definition Break (v : string) (b : Node) : Prop :=
  kind b = KText v /\ indentLevel b = None.

(** [Annotated indent level originals walked]: [walked] is the children
    [originals] of a node of level [level], in their order and each as
    [Kept] has it; before any of them there may be a break of one or two
    linefeeds and [level] copies of the indentation, and after the last a
    break of one linefeed and [level - 1] copies.  There is nothing else
    in [walked]. *)
Inductive Annotated (indent : string) (level : Z)
    : list Node -> list Node -> Prop :=
| Annotated_nil : Annotated indent level [] []
| Annotated_closing (b : Node) :
    Break (String "010" (Js.repeat indent (level - 1))) b ->
    Annotated indent level [] [b]
| Annotated_child (c c' : Node) (originals walked : list Node) :
    Kept indent level c c' ->
    Annotated indent level originals walked ->
    Annotated indent level (c :: originals) (c' :: walked)
| Annotated_break (b c c' : Node) (originals walked : list Node) :
    Break (String "010" (Js.repeat indent level)) b
    \/ Break (String "010" (String "010" (Js.repeat indent level))) b ->
    Kept indent level c c' ->
    Annotated indent level originals walked ->
    Annotated indent level (c :: originals) (b :: c' :: walked).

(** [Placed indent level final c]: [c] carries the annotation [level], or
    it is a break for that level: without annotation, one or two
    linefeeds and [level] copies of the indentation, or, as the last of
    its siblings ([final]), one linefeed and [level - 1] copies. *)
Definition Placed (indent : string) (level : Z) (final : bool) (c : Node)
    : Prop :=
  indentLevel c = Some level
  \/ Break (String "010" (Js.repeat indent level)) c
  \/ Break (String "010" (String "010" (Js.repeat indent level))) c
  \/ (final = true /\ Break (String "010" (Js.repeat indent (level - 1))) c).

(** A comment that holds the prettyhtml-ignore flag. *)
Definition is_flag (n : Node) : bool :=
  match kind n with
  | KComment v => Js.includes "prettyhtml-ignore" v
  | _ => false
  end.

(** [shielded siblings i]: the sibling at [i] stands behind a comment
    with the prettyhtml-ignore flag, no element between the two, and is an
    element or has one after it: the traversal passes over it.  [open]
    says whether such a comment stands before the first of [siblings]. *)
Fixpoint shielded_from (open : bool) (siblings : list Node) (i : nat)
    : bool :=
  match siblings with
  | [] => false
  | c :: rest =>
      match i with
      | O => open && existsb isElement siblings
      | S i' =>
          shielded_from (negb (isElement c) && (open || is_flag c)) rest i'
      end
  end.

Definition shielded (siblings : list Node) (i : nat) : bool :=
  shielded_from false siblings i.

(** A node the visitor rewrites wherever it meets it outside white-space
    sensitive subtrees: not a comment, and without a sensitive tag
    name. *)
Definition plain (sensitive : list string) (n : Node) : bool :=
  negb (NodeType_eqb (type n) comment) && negb (ignore sensitive [n]).

(** [reached sensitive n path]: the node at the end of [path], which
    gives the index of a child at every step down from [n], when the
    traversal gets there and rewrites it: every node on the way, the last
    one too, is [plain], and none is passed over. *)
Fixpoint reached (sensitive : list string) (n : Node) (path : list nat)
    : option Node :=
  if plain sensitive n then
    match path with
    | [] => Some n
    | i :: rest =>
        if shielded (children_or_empty n) i then None
        else
          match nth_error (children_or_empty n) i with
          | Some c => reached sensitive c rest
          | None => None
          end
    end
  else None.

(** [page], formatted. *)
Definition formatted_page : Node :=
  Eval vm_compute in
    match run_transform rehype_minify_whitespace page with
    | Done r => r
    | _ => page
    end.

(** *** A paragraph of text and an inline element *)

(** A node as a walk leaves it: with the child list the visitor has
    given it and, if it had a parent, an annotation. *)
Definition walked_text (v : string) (level : option Z) : Node :=
  mkNode (KText v) (Some []) level.
Definition walked_element (name : string) (level : Z) (cs : list Node)
    : Node :=
  mkNode (KElement name []) (Some cs) (Some level).

(** [<p>foo <strong>bar</strong></p>] *)
Definition paragraph : Node :=
  Root [Element "p" [Text "foo "; Element "strong" [Text "bar"]]].

(** The same, formatted once: a break before [strong] and before the end
    tag of [p], none before [foo]. *)
Definition paragraph_once : Node :=
  Root
    [ walked_element "p" 0
        [ walked_text "foo" (Some 1%Z);
          walked_text (String "010" "  ") None;
          walked_element "strong" 1 [walked_text "bar" (Some 2%Z)];
          walked_text (String "010" "") None ];
      walked_text (String "010" "") None ].

(** What the pre-pass makes of [paragraph_once]: of the three breaks, the
    one between the text and the inline element stays, as a linefeed. *)
Definition paragraph_minified : Node :=
  Root
    [ walked_element "p" 0
        [ walked_text "foo" (Some 1%Z);
          walked_text (String "010" "") None;
          walked_element "strong" 1 [walked_text "bar" (Some 2%Z)] ] ].

(** [paragraph], formatted twice: now with a break before [foo] too. *)
Definition paragraph_twice : Node :=
  Root
    [ walked_element "p" 0
        [ walked_text (String "010" "  ") None;
          walked_text "foo" (Some 1%Z);
          walked_text (String "010" "  ") (Some 1%Z);
          walked_element "strong" 1 [walked_text "bar" (Some 2%Z)];
          walked_text (String "010" "") None ];
      walked_text (String "010" "") None ].

(** *** Conditional comments *)


(** Induction over a tree, with the property known for every child. *)
Section NodeInduction.
Variable P : Node -> Prop.
Hypothesis P_leaf : forall k d, P (mkNode k None d).
Hypothesis P_parent :
  forall k cs d, Forall P cs -> P (mkNode k (Some cs) d).

Fixpoint Node_induction (n : Node) : P n :=
  match n with
  | mkNode k None d => P_leaf k d
  | mkNode k (Some cs) d =>
      P_parent k cs d
        ((fix all_children (l : list Node) : Forall P l :=
            match l with
            | [] => Forall_nil P
            | c :: r => Forall_cons c (Node_induction c) (all_children r)
            end) cs)
  end.
End NodeInduction.

End Formatter.

(* ================================================================== *)
(** * Properties *)
(* ================================================================== *)

(** ** The regular expressions of the detector *)

Module JsFacts.
Import Js.

Lemma prefix_split (p s : string) :
  prefix p s = true <-> exists r, s = (p ++ r)%string.
Proof.
  revert s; induction p as [|a p IH]; intros s; simpl.
  - destruct s; split; eauto.
  - destruct s as [|b s]; simpl.
    + split; [discriminate | intros [r Hr]; discriminate].
    + destruct (ascii_dec a b) as [->|Hab].
      * rewrite IH. split; intros [r Hr]; exists r; congruence.
      * split; [discriminate | intros [r Hr]; congruence].
Qed.

Lemma drop_app (p r : string) : drop (String.length p) (p ++ r) = r.
Proof. induction p; simpl; auto. Qed.

Lemma includes_split (sub s : string) :
  includes sub s = true <-> exists a b, s = (a ++ sub ++ b)%string.
Proof.
  induction s as [|c s IH].
  - cbn [includes]. rewrite orb_false_r, prefix_split. split.
    + intros [r Hr]. exists EmptyString, r. exact Hr.
    + intros [a [b H]]. destruct a; [exists b; exact H | discriminate].
  - cbn [includes]. rewrite orb_true_iff, prefix_split, IH. split.
    + intros [[r Hr] | [a [b H]]].
      * exists EmptyString, r. exact Hr.
      * exists (String c a), b. simpl. congruence.
    + intros [a [b H]]. destruct a as [|c' a].
      * left. exists b. exact H.
      * right. exists a, b. simpl in H. congruence.
Qed.

(** The model of a delimited expression accepts exactly the strings in
    which the opening delimiter is followed, anywhere later, by the
    closing one. *)
Lemma test_split (re : Delimited) (s : string) :
  test re s = true <->
  exists a m b, s = (a ++ opening re ++ m ++ closing re ++ b)%string.
Proof.
  induction s as [|c s IH].
  - cbn [test]. rewrite orb_false_r, andb_true_iff, prefix_split. split.
    + intros [[r Hr] Hin]. rewrite Hr, drop_app in Hin.
      apply includes_split in Hin. destruct Hin as [m [b Hm]].
      exists EmptyString, m, b. simpl. congruence.
    + intros [a [m [b H]]]. destruct a; [|discriminate]. simpl in H.
      split; [eauto|]. rewrite H, drop_app. apply includes_split; eauto.
  - cbn [test]. rewrite orb_true_iff, andb_true_iff, prefix_split, IH. split.
    + intros [[[r Hr] Hin] | [a [m [b H]]]].
      * rewrite Hr, drop_app in Hin.
        apply includes_split in Hin. destruct Hin as [m [b Hm]].
        exists EmptyString, m, b. simpl. congruence.
      * exists (String c a), m, b. simpl. congruence.
    + intros [a [m [b H]]]. destruct a as [|c' a].
      * left. simpl in H. split; [eauto|].
        rewrite H, drop_app. apply includes_split; eauto.
      * right. exists a, m, b. simpl in H. congruence.
Qed.

Lemma all_chars_app (p : ascii -> bool) (a b : string) :
  all_chars p (a ++ b) = all_chars p a && all_chars p b.
Proof.
  induction a as [|c a IH]; simpl; [reflexivity|].
  now rewrite IH, andb_assoc.
Qed.

Lemma all_chars_repeat_nat (p : ascii -> bool) (unit : string) (n : nat) :
  all_chars p unit = true -> all_chars p (repeat_nat unit n) = true.
Proof.
  intros H. induction n as [|n IH]; simpl; [reflexivity|].
  now rewrite all_chars_app, H, IH.
Qed.

Lemma is_blank_is_space (c : ascii) : is_blank c = true -> is_space c = true.
Proof.
  unfold is_blank. rewrite orb_true_iff, !Ascii.eqb_eq.
  intros [-> | ->]; reflexivity.
Qed.

End JsFacts.

(** ** Template-expression detector *)


(** ** Tag-definition registry *)

Module RegistryFacts.
Import Registry.

Lemma own_app_fresh {A} (obj : list (string * A)) (k : string) (v : A) :
  own obj k = None -> own (obj ++ [(k, v)]) k = Some v.
Proof.
  induction obj as [|[k' v'] obj IH]; simpl; intros H.
  - now rewrite String.eqb_refl.
  - destruct (String.eqb k' k); [discriminate | auto].
Qed.

Lemma own_app_other {A} (obj : list (string * A)) (k k' : string) (v v' : A) :
  own (obj ++ [(k, v)]) k' = Some v' ->
  own obj k' = Some v' \/ (k = k' /\ v = v').
Proof.
  induction obj as [|[k0 v0] obj IH]; simpl.
  - destruct (String.eqb k k') eqn:E; [|discriminate].
    apply String.eqb_eq in E. intros [= ->]. auto.
  - destruct (String.eqb k0 k'); auto.
Qed.

Lemma cacheKeyOf_inj (a b : bool) : cacheKeyOf a = cacheKeyOf b -> a = b.
Proof. destruct a, b; auto; discriminate. Qed.

Lemma initial_coherent : coherent initial.
Proof. split; [discriminate | intros H; now elim H]. Qed.

(** A lookup leaves the module in a coherent state. *)
Lemma getHtmlTagDefinition_coherent tagName flag st :
  coherent st -> coherent (snd (getHtmlTagDefinition tagName flag st)).
Proof.
  intros [Htab Hdef].
  assert (Hst1 : coherent
            match own (TAG_DEFINITIONS st) (cacheKeyOf flag) with
            | Some _ => st
            | None =>
                {| _DEFAULT_TAG_DEFINITION :=
                     Some (new_HtmlTagDefinition no_options);
                   TAG_DEFINITIONS :=
                     TAG_DEFINITIONS st ++ [(cacheKeyOf flag, table flag)] |}
            end).
  { destruct (own (TAG_DEFINITIONS st) (cacheKeyOf flag)); [split; auto|].
    split; simpl; [|reflexivity].
    intros key defs H. apply own_app_other in H.
    destruct H as [H | [<- <-]]; eauto. }
  unfold getHtmlTagDefinition.
  set (st1 := match own (TAG_DEFINITIONS st) (cacheKeyOf flag) with
              | Some _ => st | None => _ end) in *.
  destruct (own (TAG_DEFINITIONS st1) (cacheKeyOf flag)); [|exact Hst1].
  destruct (own t tagName); [exact Hst1|].
  destruct (mem tagName Object_prototype_names); [exact Hst1|].
  destruct (_DEFAULT_TAG_DEFINITION st1); exact Hst1.
Qed.

(** In a coherent state the lookup reads the table built for the flag
    and the default made by [new HtmlTagDefinition()]. *)
Lemma getHtmlTagDefinition_reads tagName flag st :
  coherent st ->
  fst (getHtmlTagDefinition tagName flag st) =
    match own (table flag) tagName with
    | Some d => Found d
    | None =>
        if mem tagName Object_prototype_names then Inherited tagName
        else Found (new_HtmlTagDefinition no_options)
    end.
Proof.
  intros [Htab Hdef]. unfold getHtmlTagDefinition.
  destruct (own (TAG_DEFINITIONS st) (cacheKeyOf flag)) as [defs|] eqn:E.
  - rewrite E. destruct (Htab _ _ E) as [b [Hk ->]].
    apply cacheKeyOf_inj in Hk. subst b.
    destruct (own (table flag) tagName); [reflexivity|].
    destruct (mem tagName Object_prototype_names); [reflexivity|].
    rewrite Hdef; [reflexivity|].
    intros Hnil. rewrite Hnil in E. discriminate.
  - cbn [TAG_DEFINITIONS _DEFAULT_TAG_DEFINITION].
    rewrite (own_app_fresh _ _ _ E).
    destruct (own (table flag) tagName); [reflexivity|].
    destruct (mem tagName Object_prototype_names); reflexivity.
Qed.

(** C6, as the code has it.  The lookup compares the tag name with the
    keys of the table as it is written, without folding its case.  A name
    that is a key gets that key's definition.  A name that is neither a
    key nor a name every object inherits gets the default definition
    under either mode: not void, no required parents and no parent to
    add, parsable content, no child that closes it, not closed by its
    parent. *)
Theorem getHtmlTagDefinition_exact_or_default :
  forall (tagName : string) (flag : bool) (st : State),
    coherent st ->
    (forall d, own (table flag) tagName = Some d ->
       fst (getHtmlTagDefinition tagName flag st) = Found d)
    /\ (own (table flag) tagName = None ->
        mem tagName Object_prototype_names = false ->
        exists d,
          fst (getHtmlTagDefinition tagName flag st) = Found d
          /\ d = new_HtmlTagDefinition no_options
          /\ isVoid d = false
          /\ requiredParents d = None
          /\ parentToAdd d = None
          /\ contentType d = PARSABLE_DATA
          /\ closedByChildren d = []
          /\ closedByParent d = false
          /\ (forall name,
                mem (Js.toLowerCase name) Object_prototype_names = false ->
                isClosedByChild d name = false)).
Proof.
  intros tagName flag st Hst.
  rewrite (getHtmlTagDefinition_reads tagName flag st Hst). split.
  - intros d ->. reflexivity.
  - intros -> ->. exists (new_HtmlTagDefinition no_options).
    repeat split. intros name Hname.
    unfold isClosedByChild, js_in. simpl. exact Hname.
Qed.

Lemma getHtmlTagDefinition_exact_or_default_witness :
  fst (getHtmlTagDefinition "img" true initial)
    = Found (new_HtmlTagDefinition void_args)
  /\ fst (getHtmlTagDefinition "my-widget" true initial)
    = Found (new_HtmlTagDefinition no_options).
Proof.
  destruct (getHtmlTagDefinition_exact_or_default "img" true initial
              initial_coherent) as [Hkey _].
  destruct (getHtmlTagDefinition_exact_or_default "my-widget" true initial
              initial_coherent) as [_ Hdef].
  split.
  - apply Hkey. reflexivity.
  - destruct (Hdef eq_refl eq_refl) as [d [Hd [-> _]]]. exact Hd.
Defined.

(** C6 as the specification words it fails: the upper-case spelling of
    a void tag is not found and gets the default, which is not void,
    while the lower-case spelling gets the void definition; and a name
    that every object inherits, which is not in the table either, gets
    the inherited member instead of the default. *)
Lemma getHtmlTagDefinition_case_sensitive :
  fst (getHtmlTagDefinition "IMG" false initial)
    <> fst (getHtmlTagDefinition (Js.toLowerCase "IMG") false initial)
  /\ fst (getHtmlTagDefinition "IMG" false initial)
       = Found (new_HtmlTagDefinition no_options)
  /\ fst (getHtmlTagDefinition "img" false initial)
       = Found (new_HtmlTagDefinition void_args)
  /\ own (table false) "constructor" = None
  /\ fst (getHtmlTagDefinition "constructor" false initial)
       = Inherited "constructor".
Proof. repeat split. vm_compute. discriminate. Qed.

(** C10. A definition constructed with [isVoid: true] is void, reports
    [closedByParent] true whatever was passed for it, and is closed by
    every child name, whatever its [closedByChildren] are. *)
Theorem void_definition_is_closed :
  forall o : Options,
    o_isVoid o = Some true ->
    isVoid (new_HtmlTagDefinition o) = true
    /\ closedByParent (new_HtmlTagDefinition o) = true
    /\ forall name, isClosedByChild (new_HtmlTagDefinition o) name = true.
Proof.
  intros o Hvoid. unfold isClosedByChild. simpl. rewrite Hvoid. simpl.
  rewrite orb_true_r. auto.
Qed.

Lemma void_definition_is_closed_witness :
  o_closedByParent void_args = None
  /\ closedByChildren (new_HtmlTagDefinition void_args) = []
  /\ closedByParent (new_HtmlTagDefinition void_args) = true
  /\ isClosedByChild (new_HtmlTagDefinition void_args) "div" = true.
Proof.
  destruct (void_definition_is_closed void_args eq_refl) as [_ [Hp Hc]].
  split; [reflexivity|]. split; [reflexivity|]. split; [exact Hp | apply Hc].
Defined.

End RegistryFacts.

(** ** The formatter *)

Module FormatterFacts.
Import Formatter.

Lemma Within_inv (d n : Node) :
  Within d n ->
  d = n \/ exists cs c, children n = Some cs /\ In c cs /\ Within d c.
Proof. intros H. destruct H; eauto 6. Qed.

(** [find] answers the first node that passes the test, and answers
    nothing only when no node of the tree passes it. *)
Lemma find_spec (test : Node -> bool) (n : Node) :
  (find test n = None -> forall d, Within d n -> test d = false)
  /\ (forall hit, find test n = Some hit -> Within hit n /\ test hit = true).
Proof.
  induction n as [k d | k cs d IH] using Node_induction.
  - simpl. destruct (test (mkNode k None d)) eqn:E; split.
    + discriminate.
    + intros hit [= <-]. split; [constructor | exact E].
    + intros _ x Hx. apply Within_inv in Hx.
      destruct Hx as [-> | [cs [c [Hcs _]]]]; [exact E | discriminate].
    + discriminate.
  - cbn [find]. destruct (test (mkNode k (Some cs) d)) eqn:E.
    { split; [discriminate|]. intros hit [= <-]. split; [constructor|exact E]. }
    set (first := fix first (l : list Node) : option Node :=
           match l with
           | [] => None
           | c :: r => match find test c with
                       | Some hit => Some hit
                       | None => first r
                       end
           end).
    assert (Hfirst :
      (first cs = None -> forall c x, In c cs -> Within x c -> test x = false)
      /\ (forall hit, first cs = Some hit ->
            exists c, In c cs /\ Within hit c /\ test hit = true)).
    { subst first. revert IH. clear E.
      induction cs as [|c cs IHcs]; intros IH.
      - split; [intros _ c x []|discriminate].
      - inversion IH as [|? ? [Hc1 Hc2] Hrest]; subst. simpl.
        destruct (find test c) as [hit|] eqn:Ec.
        + split; [discriminate|]. intros hit' [= <-].
          exists c. destruct (Hc2 hit eq_refl). auto.
        + destruct (IHcs Hrest) as [Hn Hs]. split.
          * intros Hnone c' x [<-|Hin] Hx; eauto.
          * intros hit Hh. destruct (Hs hit Hh) as [c' [Hin Hw]]. eauto. }
    destruct Hfirst as [Hn Hs]. split.
    + intros Hnone x Hx. apply Within_inv in Hx.
      destruct Hx as [-> | [cs' [c [[= <-] [Hin Hw]]]]]; eauto.
    + intros hit Hh. destruct (Hs hit Hh) as [c [Hin [Hw Ht]]].
      split; [|exact Ht]. eapply Within_child; eauto. reflexivity.
Qed.

(** *** Ink: white space is all the first loop changes in a text *)

Lemma ink_app (a b : string) : ink (a ++ b) = (ink a ++ ink b)%string.
Proof.
  induction a as [|c a IH]; simpl; [reflexivity|].
  destruct (Js.is_space c); simpl; now rewrite IH.
Qed.

Lemma ink_blank (s : string) :
  Js.all_chars Js.is_space s = true -> ink s = EmptyString.
Proof.
  induction s as [|c s IH]; simpl; [reflexivity|].
  destruct (Js.is_space c); simpl; [exact IH | discriminate].
Qed.

Lemma ink_drop_while (s : string) : ink (Js.drop_while Js.is_blank s) = ink s.
Proof.
  induction s as [|c s IH]; simpl; [reflexivity|].
  destruct (Js.is_blank c) eqn:E; [|reflexivity].
  now rewrite (JsFacts.is_blank_is_space c E).
Qed.

Lemma ink_drop_while_end (s : string) :
  ink (Js.drop_while_end Js.is_blank s) = ink s.
Proof.
  induction s as [|c s IH]; simpl; [reflexivity|].
  destruct (Js.drop_while_end Js.is_blank s) as [|c' s'] eqn:E.
  - simpl in IH. destruct (Js.is_blank c) eqn:Ec.
    + rewrite (JsFacts.is_blank_is_space c Ec). exact IH.
    + simpl. now rewrite <- IH.
  - change (ink (String c (String c' s'))) with
      (if Js.is_space c then ink (String c' s')
       else String c (ink (String c' s'))).
    now rewrite IH.
Qed.

Lemma ink_after_each_lf (ins s : string) :
  Js.all_chars Js.is_space ins = true -> ink (Js.after_each_lf ins s) = ink s.
Proof.
  intros Hins. induction s as [|c s IH]; simpl; [reflexivity|].
  destruct (Js.is_lf c) eqn:E; simpl.
  - rewrite ink_app, (ink_blank ins Hins), IH. reflexivity.
  - now rewrite IH.
Qed.

Lemma indent_of_blank (settings : Settings) :
  Js.all_chars Js.is_space (indent_of settings) = true.
Proof.
  unfold indent_of. destruct (useTabs settings); [reflexivity|].
  apply JsFacts.all_chars_repeat_nat. reflexivity.
Qed.

Lemma indent_text_ink (indent : string) (level : Z) (c : Node) :
  Js.all_chars Js.is_space indent = true ->
  ink_of (indent_text indent level c) = ink_of c.
Proof.
  intros Hind. unfold indent_text, ink_of.
  destruct (kind c) eqn:E; rewrite ?E; try reflexivity.
  simpl. f_equal.
  rewrite ink_after_each_lf
    by (apply JsFacts.all_chars_repeat_nat; exact Hind).
  unfold Js.strip_blanks. now rewrite ink_drop_while_end, ink_drop_while.
Qed.

Lemma indent_text_other (indent : string) (level : Z) (c : Node) :
  type c <> text -> indent_text indent level c = c.
Proof.
  unfold indent_text, type. destruct (kind c); try reflexivity.
  intros H. now elim H.
Qed.

Lemma is_break_blank (indent : string) (b : Node) :
  Js.all_chars Js.is_space indent = true ->
  is_break indent b ->
  exists v, kind b = KText v /\ Js.all_chars Js.is_space v = true.
Proof.
  intros Hind [lf [k [Hlf ->]]]. eexists. split; [reflexivity|].
  rewrite JsFacts.all_chars_app, (JsFacts.all_chars_repeat_nat _ _ _ Hind).
  destruct Hlf as [-> | ->]; reflexivity.
Qed.

Section EngineFacts.

Variable voids : list string.
Variable sensitive : list string.
Variable minify : Node -> Node.
Variable prettierOpts_parser : bool.
Variable prettier_format : Parser -> string -> option string.

Abbreviation visitor :=
  (visitor voids sensitive prettierOpts_parser prettier_format).
Abbreviation one :=
  (one voids sensitive prettierOpts_parser prettier_format).
Abbreviation visit :=
  (visit voids sensitive prettierOpts_parser prettier_format).
Abbreviation transform :=
  (transform voids sensitive minify prettierOpts_parser prettier_format).
Abbreviation prettierEmbeddedContent :=
  (prettierEmbeddedContent prettierOpts_parser prettier_format).
Abbreviation ignore := (ignore sensitive).
Abbreviation isVoid := (isVoid voids).
Abbreviation rewrite_children := (rewrite_children voids).
Abbreviation skip_sensitive :=
  (skip_sensitive prettierOpts_parser prettier_format).

(** The tree is in page mode exactly when it holds no [html], [body] or
    [head] element. *)
Lemma isPageMode_false_iff (tree : Node) :
  isPageMode tree = false <->
  exists d, Within d tree /\ is_page_element d = true.
Proof.
  unfold isPageMode, is_page_element.
  destruct (find_spec (isElementNamed ["html"; "body"; "head"]) tree)
    as [Hnone Hsome].
  destruct (find _ tree) as [hit|].
  - split; [intros _|reflexivity]. exists hit. apply Hsome. reflexivity.
  - split; [discriminate|]. intros [d [Hw Hd]].
    rewrite (Hnone eq_refl d Hw) in Hd. discriminate.
Qed.


(** *** The three ways the visitor ends *)

Lemma skip_sensitive_action indent usePrettier level node r :
  skip_sensitive indent usePrettier level node = Done r -> snd r = SKIP.
Proof.
  unfold Formatter.skip_sensitive.
  destruct (0 <? _)%nat; [|intros H; injection H as <-; reflexivity].
  destruct (usePrettier && _); [|intros H; injection H as <-; reflexivity].
  destruct (prettierEmbeddedContent _ _ _); simpl; try discriminate.
  intros H; injection H as <-; reflexivity.
Qed.

Lemma visitor_cases indent usePrettier indentInitial node index parents r :
  visitor indent usePrettier indentInitial node index parents = Done r ->
  let level := level_of indentInitial parents in
  let node1 := indent_comment indent level node in
  (exists next,
     ignore_flag node index parents = Some next /\ r = (node, GOTO next))
  \/ (ignore_flag node index parents = None
      /\ ignore (parents ++ [node1]) = true
      /\ skip_sensitive indent usePrettier level node1 = Done r
      /\ snd r = SKIP)
  \/ (ignore_flag node index parents = None
      /\ ignore (parents ++ [node1]) = false
      /\ r = (rewrite_children indent level node1, CONTINUE)).
Proof.
  intros H level node1. unfold Formatter.visitor in H.
  destruct (ignore_flag node index parents) as [next|].
  - left. exists next. split; [reflexivity|]. now injection H as <-.
  - right. fold level node1 in H.
    destruct (ignore (parents ++ [node1])) eqn:E.
    + left. repeat split; auto. eapply skip_sensitive_action; eauto.
    + right. repeat split; auto. now injection H as <-.
Qed.

(** The visitor answers nothing (so that the traversal goes on into the
    node) exactly when it has rewritten the child list. *)
Lemma visitor_continue indent usePrettier indentInitial node index parents
    node' :
  visitor indent usePrettier indentInitial node index parents
    = Done (node', CONTINUE) ->
  ignore_flag node index parents = None
  /\ ignore (parents
               ++ [indent_comment indent (level_of indentInitial parents) node])
     = false
  /\ node' = rewrite_children indent (level_of indentInitial parents)
               (indent_comment indent (level_of indentInitial parents) node).
Proof.
  intros H. apply visitor_cases in H.
  destruct H as [[next [_ H]] | [[_ [_ [_ H]]] | [H1 [H2 H3]]]];
    try discriminate.
  injection H3 as ->. auto.
Qed.

Lemma indent_comment_children indent level node :
  children (indent_comment indent level node) = children node.
Proof. unfold indent_comment. destruct (kind node); reflexivity. Qed.

Lemma indent_comment_type indent level node :
  type (indent_comment indent level node) = type node.
Proof.
  unfold indent_comment, type. destruct (kind node) eqn:E; rewrite ?E; auto.
Qed.

Lemma indent_comment_tagName indent level node :
  tagName (indent_comment indent level node) = tagName node.
Proof.
  unfold indent_comment, tagName. destruct (kind node) eqn:E; rewrite ?E; auto.
Qed.

Lemma indent_comment_indentLevel indent level node :
  indentLevel (indent_comment indent level node) = indentLevel node.
Proof. unfold indent_comment. destruct (kind node); reflexivity. Qed.

Lemma indent_comment_other indent level node :
  type node <> comment -> indent_comment indent level node = node.
Proof.
  unfold indent_comment, type. destruct (kind node); try reflexivity.
  intros H. now elim H.
Qed.

(** *** The loop that rebuilds the child list *)

Lemma break_before_cases node children child index prevChild newline lf :
  break_before node children child index prevChild newline = Some lf ->
  lf = single \/ lf = double.
Proof.
  unfold break_before.
  destruct (_ || _); [intros [= <-]; auto|].
  destruct (_ || _); [intros [= <-]; auto | discriminate].
Qed.

Lemma repeat_is_repeat_nat (unit : string) (n : Z) :
  Js.repeat unit n = Js.repeat_nat unit (Z.to_nat n).
Proof. reflexivity. Qed.

Lemma rebuild_interleaved node children indent level newline rest :
  forall index prevChild,
    Interleaved indent (map (setData level) rest)
      (rebuild node children indent level newline index prevChild rest).
Proof.
  induction rest as [|child rest IH]; intros index prevChild; simpl.
  - constructor.
  - destruct (break_before _ _ _ _ _ _) as [lf|] eqn:E; simpl.
    + apply Interleaved_break.
      * exists lf, (Z.to_nat level). split; [|reflexivity].
        eapply break_before_cases; eauto.
      * apply Interleaved_keep, IH.
    + apply Interleaved_keep, IH.
Qed.

Lemma Interleaved_snoc indent originals result b :
  Interleaved indent originals result -> is_break indent b ->
  Interleaved indent originals (result ++ [b]).
Proof.
  intros H Hb. induction H; simpl.
  - apply Interleaved_break; [exact Hb | constructor].
  - now apply Interleaved_keep.
  - now apply Interleaved_break.
Qed.

Lemma closing_break_is_break indent level :
  is_break indent (closing_break indent level).
Proof.
  exists single, (Z.to_nat (level - 1)). split; [auto | reflexivity].
Qed.

Lemma rewrite_children_interleaved indent level node :
  exists result,
    children (rewrite_children indent level node) = Some result
    /\ Interleaved indent (map (setData level) (prepared indent level node))
         result.
Proof.
  unfold Formatter.rewrite_children, prepared.
  set (cs := if NodeType_eqb (type node) root then _ else _).
  destruct (_ || _); eexists; (split; [reflexivity|]).
  - apply Interleaved_snoc; [apply rebuild_interleaved|].
    apply closing_break_is_break.
  - apply rebuild_interleaved.
Qed.

Lemma prepared_indent_comment indent level level' node :
  prepared indent level (indent_comment indent level' node)
    = prepared indent level node.
Proof.
  unfold prepared, children_or_empty.
  now rewrite indent_comment_type, indent_comment_children.
Qed.

Lemma prepared_related indent level node :
  Js.all_chars Js.is_space indent = true ->
  Forall2 (fun c c' => ink_of c' = ink_of c /\ (type c <> text -> c' = c))
    (children_or_empty node) (prepared indent level node).
Proof.
  intros Hind. unfold prepared.
  destruct (NodeType_eqb (type node) root);
    induction (children_or_empty node) as [|c cs IH]; simpl; constructor;
    auto using indent_text_ink, indent_text_other.
Qed.


Lemma last_cons {A} (a d : A) (l : list A) : last (a :: l) d = last l a.
Proof.
  revert a d. induction l as [|b l IH]; intros a d; [reflexivity|].
  change (last (a :: b :: l) d) with (last (b :: l) d).
  now rewrite (IH b d), (IH b a).
Qed.

Lemma rebuild_app node children indent level newline before rest :
  forall index prevChild,
    rebuild node children indent level newline index prevChild
      (before ++ rest)
    = rebuild node children indent level newline index prevChild before
      ++ rebuild node children indent level newline
           (index + List.length before)
           (last (map (fun c => Some (setData level c)) before) prevChild)
           rest.
Proof.
  induction before as [|c before IH]; intros index prevChild.
  - simpl. now rewrite Nat.add_0_r.
  - cbn [app rebuild map List.length]. rewrite IH, last_cons.
    rewrite <- app_assoc, <- app_comm_cons.
    now replace (S index + List.length before)%nat
      with (index + S (List.length before))%nat by lia.
Qed.



(** *** Annotations *)

Lemma Interleaved_In indent originals result x :
  Interleaved indent originals result -> In x originals -> In x result.
Proof.
  intros H. induction H; simpl; intros Hx; auto.
  destruct Hx as [-> | Hx]; auto.
Qed.

Lemma prettierEmbeddedContent_keeps node level indent node' :
  prettierEmbeddedContent node level indent = Done node' ->
  kind node' = kind node /\ indentLevel node' = indentLevel node.
Proof.
  unfold prettierEmbeddedContent.
  destruct (isElementNamed ["style"] node).
  { destruct (prettier_format _ _); [|discriminate].
    intros H; injection H as <-. auto. }
  destruct (isElementNamed ["script"] node).
  { destruct (prettier_format _ _); [|discriminate].
    intros H; injection H as <-. auto. }
  intros H; injection H as <-. auto.
Qed.

Lemma skip_sensitive_keeps indent usePrettier level node node' result :
  skip_sensitive indent usePrettier level node = Done (node', result) ->
  kind node' = kind node /\ indentLevel node' = Some (level - 1)%Z.
Proof.
  unfold Formatter.skip_sensitive.
  destruct (0 <? _)%nat; [|intros H; injection H as <- <-; auto].
  set (node2 := if containsOnlyEmptyTextNodes _ then _ else _).
  assert (H2 : kind node2 = kind node
               /\ indentLevel node2 = Some (level - 1)%Z)
    by (subst node2; destruct (containsOnlyEmptyTextNodes _); auto).
  destruct (usePrettier && _); [|intros H; injection H as <- <-; auto].
  destruct (prettierEmbeddedContent _ _ _) as [n| |] eqn:E;
    simpl; try discriminate.
  intros H; injection H as <- <-.
  apply prettierEmbeddedContent_keeps in E. destruct E as [-> ->]. exact H2.
Qed.

Lemma rewrite_children_keeps indent level node :
  kind (rewrite_children indent level node) = kind node
  /\ indentLevel (rewrite_children indent level node) = indentLevel node.
Proof. unfold Formatter.rewrite_children. destruct (_ || _); auto. Qed.


(** *** Void elements *)

Lemma isVoid_not_comment node : isVoid node = true -> type node <> comment.
Proof.
  unfold Formatter.isVoid, tagName, type.
  destruct (kind node); discriminate.
Qed.

Lemma ignore_flag_not_comment node index parents :
  type node <> comment -> ignore_flag node index parents = None.
Proof.
  unfold ignore_flag, type. destruct (kind node); try reflexivity.
  intros H. now elim H.
Qed.

Lemma isVoid_not_root node :
  isVoid node = true -> NodeType_eqb (type node) root = false.
Proof.
  unfold Formatter.isVoid, tagName, type.
  destruct (kind node); try discriminate. reflexivity.
Qed.


(** *** White-space sensitive subtrees *)



Lemma containsOnlyEmptyTextNodes_setData v node :
  containsOnlyEmptyTextNodes (setData v node)
    = containsOnlyEmptyTextNodes node.
Proof. reflexivity. Qed.

Lemma isElementNamed_split a b node :
  isElementNamed [a; b] node = false ->
  isElementNamed [a] node = false /\ isElementNamed [b] node = false.
Proof.
  unfold isElementNamed. destruct (kind node); auto. simpl.
  rewrite !orb_false_r. apply orb_false_iff.
Qed.

Lemma prettierEmbeddedContent_other node level indent :
  isElementNamed ["style"; "script"] node = false ->
  prettierEmbeddedContent node level indent = Done node.
Proof.
  intros H. apply isElementNamed_split in H. destruct H as [H1 H2].
  unfold prettierEmbeddedContent. now rewrite H1, H2.
Qed.

Lemma prettierEmbeddedContent_children node level indent node' :
  isElementNamed ["style"; "script"] node = true ->
  prettierEmbeddedContent node level indent = Done node' ->
  exists formattedText,
    children node' = Some (embedded_children formattedText indent level).
Proof.
  intros Hel. unfold prettierEmbeddedContent.
  destruct (isElementNamed ["style"] node) eqn:E1.
  { destruct (prettier_format _ _); [|discriminate].
    intros H; injection H as <-. eexists. reflexivity. }
  destruct (isElementNamed ["script"] node) eqn:E2.
  { destruct (prettier_format _ _); [|discriminate].
    intros H; injection H as <-. eexists. reflexivity. }
  exfalso. revert Hel E1 E2. unfold isElementNamed.
  destruct (kind node); try discriminate. simpl.
  rewrite !orb_false_r. intros H E1 E2. rewrite E1, E2 in H. discriminate.
Qed.

Lemma skip_sensitive_plain indent usePrettier level node :
  usePrettier = false \/ isElementNamed ["style"; "script"] node = false ->
  skip_sensitive indent usePrettier level node
    = Done (skipped level node, SKIP).
Proof.
  intros Hplain. unfold Formatter.skip_sensitive, skipped.
  rewrite containsOnlyEmptyTextNodes_setData.
  destruct (0 <? _)%nat eqn:Elen.
  - destruct (containsOnlyEmptyTextNodes node) eqn:Eempty.
    + rewrite andb_false_r. reflexivity.
    + rewrite andb_true_r. destruct usePrettier; [|reflexivity].
      destruct Hplain as [Hp | Hp]; [discriminate|].
      rewrite prettierEmbeddedContent_other; [reflexivity | exact Hp].
  - apply Nat.ltb_ge in Elen.
    unfold containsOnlyEmptyTextNodes.
    destruct (children_or_empty node); [reflexivity | simpl in Elen; lia].
Qed.




(** *** The traversal ends *)

Lemma height_children k cs d c :
  In c cs -> (height c < height (mkNode k (Some cs) d))%nat.
Proof.
  intros Hin. cbn [height]. apply Nat.lt_succ_r.
  induction cs as [|c' cs IH]; [destruct Hin|].
  cbn [fold_right]. destruct Hin as [-> | Hin]; [lia|].
  specialize (IH Hin). lia.
Qed.

Lemma height_child node cs c :
  children node = Some cs -> In c cs -> (height c < height node)%nat.
Proof.
  destruct node as [k ch d]. simpl. intros ->. apply (height_children k cs d).
Qed.

Lemma height_children_only node node' :
  children node' = children node -> height node' = height node.
Proof.
  destruct node as [k ch d], node' as [k' ch' d']. simpl. intros ->.
  destruct ch; reflexivity.
Qed.

Lemma height_indent_text indent level c :
  height (indent_text indent level c) = height c.
Proof.
  apply height_children_only. unfold indent_text.
  destruct (kind c); reflexivity.
Qed.

Lemma rebuild_heights node children indent level newline rest x :
  forall index prevChild,
    In x (rebuild node children indent level newline index prevChild rest) ->
    height x = 1%nat \/ exists c, In c rest /\ height x = height c.
Proof.
  induction rest as [|child rest IH]; intros index prevChild; [intros []|].
  cbn [rebuild]. intros Hin. apply in_app_or in Hin.
  destruct Hin as [Hin | [<- | Hin]].
  - destruct (break_before _ _ _ _ _ _); [|destruct Hin].
    destruct Hin as [<- | []]. left. reflexivity.
  - right. exists child. split; [left; reflexivity|].
    apply height_children_only. reflexivity.
  - destruct (IH _ _ Hin) as [H1 | [c [Hc Hh]]]; [left; exact H1|].
    right. exists c. split; [right; exact Hc | exact Hh].
Qed.

Lemma prepared_heights indent level node c :
  In c (prepared indent level node) ->
  exists c0, In c0 (children_or_empty node) /\ height c = height c0.
Proof.
  unfold prepared. destruct (NodeType_eqb (type node) root); [eauto|].
  intros Hin. apply in_map_iff in Hin. destruct Hin as [c0 [<- Hc0]].
  exists c0. split; [exact Hc0 | apply height_indent_text].
Qed.

Lemma rewrite_children_heights indent level node x :
  In x (children_or_empty (rewrite_children indent level node)) ->
  (height x < height node)%nat.
Proof.
  unfold Formatter.rewrite_children. fold (prepared indent level node).
  destruct (children_or_empty node) as [|c0 cs0] eqn:Ecs.
  - assert (Hp : prepared indent level node = []).
    { unfold prepared. rewrite Ecs. now destruct (NodeType_eqb _ _). }
    rewrite Hp. cbn. rewrite andb_false_r. cbn. intros [].
  - assert (Hnode : forall c, In c (children_or_empty node) ->
                      (height c < height node)%nat).
    { intros c Hc. unfold children_or_empty in Hc, Ecs.
      destruct (children node) as [cs|] eqn:E; [|discriminate].
      eapply height_child; eauto. }
    assert (H2 : (2 <= height node)%nat).
    { specialize (Hnode c0). rewrite Ecs in Hnode.
      specialize (Hnode (or_introl eq_refl)).
      destruct c0 as [k [l|] d]; simpl in Hnode; lia. }
    rewrite <- Ecs in *. clear Ecs.
    assert (Hloop : forall y,
      In y (rebuild node (prepared indent level node) indent level
              (negb (NodeType_eqb (type node) root)
               && existsb has_linefeed (children_or_empty node))
              0 None (prepared indent level node)) ->
      (height y < height node)%nat).
    { intros y Hy. apply rebuild_heights in Hy.
      destruct Hy as [-> | [c [Hc ->]]]; [lia|].
      apply prepared_heights in Hc. destruct Hc as [c1 [Hc1 ->]]. auto. }
    destruct (_ || _); cbn [children_or_empty children set_children];
      intros Hin; [apply in_app_or in Hin; destruct Hin as [Hin | Hin]|];
      auto.
    destruct Hin as [<- | []]. cbn. lia.
Qed.

Lemma visitor_heights indent usePrettier indentInitial node index parents
    node' result x :
  visitor indent usePrettier indentInitial node index parents
    = Done (node', result) ->
  result <> SKIP ->
  In x (children_or_empty node') ->
  (height x < height node)%nat.
Proof.
  intros H Hr Hx. apply visitor_cases in H.
  destruct H as [[next [_ H]] | [[_ [_ [_ H]]] | [_ [_ H]]]].
  - injection H as -> ->. unfold children_or_empty in Hx.
    destruct (children node) eqn:E; [|destruct Hx].
    eapply height_child; eauto.
  - now elim Hr.
  - injection H as -> ->. apply rewrite_children_heights in Hx.
    now rewrite (height_children_only node (indent_comment indent _ node)
                   (indent_comment_children _ _ _)) in Hx.
Qed.

Lemma all_from_fuel (visit_child : Node -> nat -> Outcome (Node * Action))
    (rest : list Node) :
  (forall c i, In c rest -> visit_child c i <> OutOfFuel) ->
  forall index next, all_from visit_child index next rest <> OutOfFuel.
Proof.
  induction rest as [|c rest IH]; intros Hv index next; [discriminate|].
  assert (Hrest : forall idx nxt,
            all_from visit_child idx nxt rest <> OutOfFuel)
    by (intros; apply IH; intros; apply Hv; now right).
  cbn [all_from]. destruct (index <? next)%nat.
  - specialize (Hrest (S index) next).
    destruct (all_from visit_child (S index) next rest);
      cbn; congruence.
  - specialize (Hv c index (or_introl eq_refl)).
    destruct (visit_child c index) as [r| |]; cbn; try congruence.
    match goal with
    | |- context [all_from visit_child ?i ?n rest] =>
        specialize (Hrest i n);
        destruct (all_from visit_child i n rest); cbn; congruence
    end.
Qed.

Lemma visitor_fuel indent usePrettier indentInitial node index parents :
  visitor indent usePrettier indentInitial node index parents <> OutOfFuel.
Proof.
  unfold Formatter.visitor.
  destruct (ignore_flag node index parents); [discriminate|].
  destruct (ignore _); [|discriminate].
  unfold Formatter.skip_sensitive.
  destruct (0 <? _)%nat; [|discriminate].
  destruct (usePrettier && _); [|discriminate].
  unfold prettierEmbeddedContent.
  destruct (isElementNamed ["style"] _).
  { destruct (prettier_format _ _); discriminate. }
  destruct (isElementNamed ["script"] _); [|discriminate].
  destruct (prettier_format _ _); discriminate.
Qed.

(** A budget of the height of the node is enough for [one]. *)
Lemma one_fuel indent usePrettier indentInitial (fuel : nat) :
  forall node index parents,
    (height node <= fuel)%nat ->
    one fuel indent usePrettier indentInitial node index parents
      <> OutOfFuel.
Proof.
  induction fuel as [|fuel IH]; intros node index parents Hh.
  - destruct node as [k [cs|] d]; simpl in Hh; lia.
  - cbn [Formatter.one].
    destruct (visitor indent usePrettier indentInitial node index parents)
      as [[node' result]| |] eqn:Ev; cbn [bind]; try discriminate.
    destruct (children node') as [cs|] eqn:Ecs; [|discriminate].
    assert (Hwalk :
      result <> SKIP ->
      all_from
        (fun child i =>
           one fuel indent usePrettier indentInitial child (Some i)
             (parents ++ [node'])) 0 0 cs <> OutOfFuel).
    { intros Hr. apply all_from_fuel. intros c i Hc. apply IH.
      assert (height c < height node)%nat; [|lia].
      eapply visitor_heights; eauto.
      unfold children_or_empty. now rewrite Ecs. }
    destruct result; try discriminate.
    + destruct (all_from _ 0 0 cs) eqn:E; cbn [bind]; try discriminate.
      exfalso. now apply Hwalk.
    + destruct (all_from _ 0 0 cs) eqn:E; cbn [bind]; try discriminate.
      exfalso. now apply Hwalk.
    + exfalso. revert Ev. apply visitor_fuel.
Qed.

(** The pass always has the budget it needs: it ends with a tree, or with
    the exception of the embedded formatter. *)
Lemma transform_ends (options : Settings) (tree : Node) :
  transform options tree <> OutOfFuel.
Proof.
  unfold Formatter.transform, Formatter.visit.
  pose proof (one_fuel (indent_of options) (usePrettier_of options)
                (isPageMode tree) (height (minify tree)) (minify tree)
                None [] (le_n _)) as H.
  destruct (Formatter.one _ _ _ _ _ _ _ _ _ _); cbn [bind];
    congruence.
Qed.

(** *** What the walk below a node leaves of its children *)

Lemma level_of_child indentInitial parents node :
  level_of indentInitial (parents ++ [node])
    = (level_of indentInitial parents + 1)%Z.
Proof.
  unfold level_of. rewrite length_app, Nat.add_1_r, Nat2Z.inj_succ.
  destruct indentInitial; simpl; lia.
Qed.

(** The visitor only sends the traversal forward. *)
Lemma visitor_goto_forward indent usePrettier indentInitial node i parents
    node' next :
  visitor indent usePrettier indentInitial node (Some i) parents
    = Done (node', GOTO next) ->
  (i < next)%nat.
Proof.
  intros H. apply visitor_cases in H.
  destruct H as [[k [Hk H]] | [[_ [_ [_ H]]] | [_ [_ H]]]];
    try discriminate.
  injection H as _ <-. revert Hk. unfold ignore_flag.
  destruct (kind node); try discriminate.
  destruct (Js.includes _ _); [|discriminate].
  destruct (last (map Some parents) None); [|discriminate].
  destruct (first_element _); [|discriminate].
  intros [= <-]. lia.
Qed.

Lemma visitor_survives indent usePrettier indentInitial node index parents
    node' result :
  visitor indent usePrettier indentInitial node index parents
    = Done (node', result) ->
  Survives (level_of indentInitial parents - 1) node node'.
Proof.
  intros H. apply visitor_cases in H.
  destruct H as [[k [_ H]] | [[_ [_ [H _]]] | [_ [_ H]]]].
  - injection H as -> _. repeat split; auto.
  - apply skip_sensitive_keeps in H. destruct H as [Hk Hd].
    unfold Survives, type. rewrite Hk, Hd.
    fold (type (indent_comment indent (level_of indentInitial parents) node)).
    rewrite indent_comment_type. repeat split; auto.
    intros Hc. now rewrite indent_comment_other.
  - injection H as -> _.
    destruct (rewrite_children_keeps indent
                (level_of indentInitial parents)
                (indent_comment indent (level_of indentInitial parents) node))
      as [Hk Hd].
    unfold Survives, type. rewrite Hk, Hd, indent_comment_indentLevel.
    fold (type (indent_comment indent (level_of indentInitial parents) node)).
    rewrite indent_comment_type. repeat split; auto.
    intros Hc. now rewrite indent_comment_other.
Qed.

Lemma one_survives fuel indent usePrettier indentInitial node index parents
    node' result :
  one fuel indent usePrettier indentInitial node index parents
    = Done (node', result) ->
  Survives (level_of indentInitial parents - 1) node node'.
Proof.
  destruct fuel as [|fuel]; [discriminate|]. cbn [Formatter.one].
  destruct (visitor indent usePrettier indentInitial node index parents)
    as [[node1 result1]| |] eqn:Ev; cbn [bind]; try discriminate.
  apply visitor_survives in Ev.
  assert (Hset : forall cs, Survives (level_of indentInitial parents - 1)
                              node (set_children cs node1)) by (intros; exact Ev).
  destruct (children node1) as [cs|]; [|intros H; now injection H as <- _].
  destruct result1;
    try (intros H; now injection H as <- _);
    destruct (all_from _ 0 0 cs); cbn [bind]; try discriminate;
    intros H; injection H as <- _; apply Hset.
Qed.

Lemma all_from_Forall2 (P : Node -> Node -> Prop)
    (visit_child : Node -> nat -> Outcome (Node * Action)) :
  (forall c, P c c) ->
  (forall c i r, visit_child c i = Done r -> P c (fst r)) ->
  forall rest index next rest',
    all_from visit_child index next rest = Done rest' ->
    Forall2 P rest rest'.
Proof.
  intros Hrefl Hvisit. induction rest as [|c rest IH];
    intros index next rest'; cbn [all_from].
  - intros H; injection H as <-. constructor.
  - destruct (index <? next)%nat.
    + destruct (all_from visit_child (S index) next rest) eqn:E;
        cbn [bind]; try discriminate.
      intros H; injection H as <-. constructor; eauto.
    + destruct (visit_child c index) as [r| |] eqn:Ev;
        cbn [bind]; try discriminate.
      destruct (all_from visit_child (S index) _ rest) eqn:E;
        cbn [bind]; try discriminate.
      intros H; injection H as <-. constructor; eauto.
Qed.

(** The traversal of a rewritten node: its children are the children the
    visitor gave it, each after its own walk. *)
Lemma one_walks_children fuel indent usePrettier indentInitial node index
    parents node' :
  one fuel indent usePrettier indentInitial node index parents
    = Done (node', CONTINUE) ->
  let level := level_of indentInitial parents in
  exists rebuilt walked,
    children (rewrite_children indent level
                (indent_comment indent level node)) = Some rebuilt
    /\ children node' = Some walked
    /\ Forall2 (Survives level) rebuilt walked.
Proof.
  intros H level.
  destruct fuel as [|fuel]; [discriminate|]. cbn [Formatter.one] in H.
  destruct (visitor indent usePrettier indentInitial node index parents)
    as [[node1 result1]| |] eqn:Ev; cbn [bind] in H; try discriminate.
  destruct (children node1) as [cs|] eqn:Ecs.
  - destruct result1; try discriminate.
    + destruct (all_from _ 0 0 cs) as [walked| |] eqn:Ew;
        cbn [bind] in H; try discriminate.
      injection H as <-.
      apply visitor_continue in Ev. destruct Ev as [_ [_ ->]].
      fold level in Ecs. exists cs, walked. repeat split; auto.
      eapply all_from_Forall2; [| |exact Ew].
      * intros c. repeat split; auto.
      * intros c i r Hr. destruct r as [c' a]. apply one_survives in Hr.
        rewrite level_of_child in Hr.
        now replace (level_of indentInitial parents + 1 - 1)%Z
          with level in Hr by (unfold level; lia).
    + destruct (all_from _ 0 0 cs); cbn [bind] in H; discriminate.
  - injection H as <- ->. apply visitor_continue in Ev.
    destruct Ev as [_ [_ ->]].
    destruct (rewrite_children_interleaved indent
                (level_of indentInitial parents)
                (indent_comment indent (level_of indentInitial parents) node))
      as [r [Hr _]]. congruence.
Qed.

Lemma Forall2_In_l {A B} (P : A -> B -> Prop) (l : list A) (l' : list B) a :
  Forall2 P l l' -> In a l -> exists b, In b l' /\ P a b.
Proof.
  intros H. induction H as [|x y l l' Hxy _ IH]; intros Hin; [destruct Hin|].
  destruct Hin as [<- | Hin].
  - exists y. split; [left; reflexivity | exact Hxy].
  - destruct (IH Hin) as [b [Hb Hab]]. exists b. split; [right|]; assumption.
Qed.

Lemma one_result fuel indent usePrettier indentInitial node index parents
    node' result :
  one fuel indent usePrettier indentInitial node index parents
    = Done (node', result) ->
  exists node1,
    visitor indent usePrettier indentInitial node index parents
      = Done (node1, result)
    /\ kind node' = kind node1
    /\ indentLevel node' = indentLevel node1
    /\ (result = SKIP -> node' = node1).
Proof.
  destruct fuel as [|fuel]; [discriminate|]. cbn [Formatter.one].
  destruct (visitor indent usePrettier indentInitial node index parents)
    as [[node1 result1]| |] eqn:Ev; cbn [bind]; try discriminate.
  destruct (children node1) as [cs|].
  - destruct result1.
    + destruct (all_from _ 0 0 cs); cbn [bind]; try discriminate.
      intros H; injection H as <- <-. exists node1.
      repeat split; auto. discriminate.
    + intros H; injection H as <- <-. exists node1. repeat split; auto.
    + destruct (all_from _ 0 0 cs); cbn [bind]; try discriminate.
      intros H; injection H as <- <-. exists node1.
      repeat split; auto. discriminate.
  - intros H; injection H as <- <-. exists node1. repeat split; auto.
Qed.

Lemma ignore_indent_comment indent level parents node :
  ignore (parents ++ [indent_comment indent level node])
    = ignore (parents ++ [node]).
Proof.
  unfold Formatter.ignore. rewrite !rev_app_distr. simpl.
  now rewrite indent_comment_tagName.
Qed.

(** Outside white-space sensitive subtrees the visitor always ends, either
    at a prettyhtml-ignore comment or with the child list rewritten. *)
Lemma visitor_not_sensitive indent usePrettier indentInitial node index
    parents :
  ignore (parents ++ [node]) = false ->
  visitor indent usePrettier indentInitial node index parents
  = match ignore_flag node index parents with
    | Some next => Done (node, GOTO next)
    | None =>
        Done (rewrite_children indent (level_of indentInitial parents)
                (indent_comment indent (level_of indentInitial parents) node),
              CONTINUE)
    end.
Proof.
  intros Hign. unfold Formatter.visitor.
  destruct (ignore_flag node index parents); [reflexivity|].
  now rewrite ignore_indent_comment, Hign.
Qed.

(** *** Trees that a walk cannot tell apart *)

Lemma Alike_refl n : Alike sensitive n n.
Proof. now apply Alike_same. Qed.

Lemma Alike_kind n n' : Alike sensitive n n' -> kind n = kind n'.
Proof. now intros []. Qed.

Lemma Alike_setData v v' n n' :
  Alike sensitive n n' -> Alike sensitive (setData v n) (setData v' n').
Proof.
  intros [m m' Hk Hign Hcs | m m' Hk Hcs].
  - now apply Alike_walked.
  - now apply Alike_same.
Qed.

Lemma Alike_indent_text indent level n n' :
  Alike sensitive n n' ->
  Alike sensitive (indent_text indent level n) (indent_text indent level n').
Proof.
  intros H. pose proof (Alike_kind n n' H) as Hk.
  unfold indent_text. rewrite <- Hk.
  destruct (kind n) eqn:E; try exact H.
  destruct H as [m m' _ _ Hcs | m m' _ Hcs].
  - now apply Alike_walked.
  - now apply Alike_same.
Qed.

Lemma flag_free_children n c :
  flag_free n = true -> In c (children_or_empty n) -> flag_free c = true.
Proof.
  destruct n as [k [cs|] d]; simpl; [|intros _ []].
  rewrite andb_true_iff. intros [_ H] Hin.
  rewrite forallb_forall in H. now apply H.
Qed.

Lemma flag_free_ignore_flag n index parents :
  flag_free n = true -> ignore_flag n index parents = None.
Proof.
  destruct n as [k ch d]. unfold ignore_flag. simpl.
  destruct k; try reflexivity.
  rewrite andb_true_iff, negb_true_iff. now intros [-> _].
Qed.

Lemma flag_free_setData v n : flag_free (setData v n) = flag_free n.
Proof. now destruct n. Qed.

Lemma flag_free_indent_text indent level n :
  flag_free (indent_text indent level n) = flag_free n.
Proof. destruct n as [[] ch d]; reflexivity. Qed.

Lemma ignore_flag_kind n n' index parents :
  kind n = kind n' -> flag_free n = true ->
  ignore_flag n' index parents = None.
Proof.
  intros Hk Hf. rewrite <- (flag_free_ignore_flag n index parents Hf).
  unfold ignore_flag. now rewrite Hk.
Qed.

Lemma twin_kind c c' : twin sensitive c c' -> kind c = kind c'.
Proof. intros [H _]. now apply Alike_kind. Qed.

Lemma containsOnlyTextNodes_kinds l l' :
  Forall2 (fun c c' => kind c = kind c') l l' ->
  containsOnlyTextNodes l = containsOnlyTextNodes l'.
Proof.
  intros H. unfold containsOnlyTextNodes.
  assert (Hall : forallb (fun n => is_ text (Some n)) l
                 = forallb (fun n => is_ text (Some n)) l').
  { induction H as [|c c' l l' Hc _ IH]; [reflexivity|]. cbn [forallb].
    rewrite IH. unfold is_, type. now rewrite Hc. }
  destruct H; [reflexivity | exact Hall].
Qed.

Lemma has_linefeed_kinds l l' :
  Forall2 (fun c c' => kind c = kind c') l l' ->
  existsb has_linefeed l = existsb has_linefeed l'.
Proof.
  intros H. induction H as [|c c' l l' Hc _ IH]; [reflexivity|].
  cbn [existsb]. rewrite IH. unfold has_linefeed. now rewrite Hc.
Qed.

Lemma break_before_kinds node node' cs cs' child child' index prev prev' nl :
  kind node = kind node' ->
  containsOnlyTextNodes cs = containsOnlyTextNodes cs' ->
  kind child = kind child' ->
  option_map kind prev = option_map kind prev' ->
  break_before node cs child index prev nl
    = break_before node' cs' child' index prev' nl.
Proof.
  intros Hn Hcs Hc Hp.
  unfold break_before, isElementAfterConditionalComment,
    isConCommentFollowedByComment, endsWithNewline,
    beforeChildNodeAddedHook, handleTemplateExpression, startsWithNewline,
    value_includes, lower_value_includes, is_, isElement, isElementNamed,
    type, value.
  rewrite Hn, Hcs, Hc.
  destruct prev as [p|], prev' as [p'|]; simpl in Hp; try discriminate;
    [injection Hp as ->|]; reflexivity.
Qed.

Lemma Forall2_weaken {A B} (P Q : A -> B -> Prop) l l' :
  (forall a b, P a b -> Q a b) -> Forall2 P l l' -> Forall2 Q l l'.
Proof. intros HPQ H. induction H; constructor; auto. Qed.

Lemma rebuild_twin node node' cs cs' indent level nl rest rest' :
  kind node = kind node' ->
  containsOnlyTextNodes cs = containsOnlyTextNodes cs' ->
  Forall2 (fun c c' => Alike sensitive c c' /\ flag_free c = true)
    rest rest' ->
  forall index prev prev',
    option_map kind prev = option_map kind prev' ->
    Forall2 (twin sensitive)
      (rebuild node cs indent level nl index prev rest)
      (rebuild node' cs' indent level nl index prev' rest').
Proof.
  intros Hn Hcs H. induction H as [|c c' rest rest' [Hc Hf] _ IH];
    intros index prev prev' Hp; cbn [rebuild]; [constructor|].
  pose proof (Alike_kind c c' Hc) as Hk.
  rewrite (break_before_kinds node node' cs cs' (setData level c)
             (setData level c') index prev prev' nl Hn Hcs Hk Hp).
  apply Forall2_app.
  - destruct (break_before _ _ _ _ _ _); constructor; [|constructor].
    repeat split. apply Alike_refl.
  - constructor.
    + repeat split; [now apply Alike_setData | now rewrite flag_free_setData].
    + apply IH. simpl. now rewrite Hk.
Qed.

Lemma prepared_twin indent level n n' :
  kind n = kind n' ->
  Forall2 (fun c c' => Alike sensitive c c' /\ flag_free c = true)
    (children_or_empty n) (children_or_empty n') ->
  Forall2 (fun c c' => Alike sensitive c c' /\ flag_free c = true)
    (prepared indent level n) (prepared indent level n').
Proof.
  intros Hk H. unfold prepared, type. rewrite <- Hk.
  destruct (NodeType_eqb _ root); [exact H|].
  induction H as [|c c' l l' [Hc Hf] _ IH]; simpl; constructor; auto.
  split; [now apply Alike_indent_text | now rewrite flag_free_indent_text].
Qed.

Lemma last_annotated_kinds level l l' :
  Forall2 (fun c c' => kind c = kind c') l l' ->
  forall d d' : option Node,
    option_map kind d = option_map kind d' ->
    option_map kind (last (map (fun c => Some (setData level c)) l) d)
    = option_map kind (last (map (fun c => Some (setData level c)) l') d').
Proof.
  intros H. induction H as [|c c' l l' Hc _ IH]; intros d d' Hd; [exact Hd|].
  cbn [map]. rewrite !last_cons. apply IH. simpl. now rewrite Hc.
Qed.

Lemma afterChildNodesAddedHook_kinds n n' result result' prev prev' :
  kind n = kind n' ->
  Forall2 (fun c c' => kind c = kind c') result result' ->
  option_map kind prev = option_map kind prev' ->
  afterChildNodesAddedHook voids (set_children result n) prev
  = afterChildNodesAddedHook voids (set_children result' n') prev'.
Proof.
  intros Hn Hr Hp. unfold afterChildNodesAddedHook, Formatter.isVoid, tagName.
  cbn [children_or_empty children set_children kind].
  rewrite (containsOnlyTextNodes_kinds _ _ Hr), (Forall2_length Hr), Hn.
  replace (is_ text prev') with (is_ text prev); [reflexivity|].
  unfold is_, type.
  destruct prev as [p|], prev' as [p'|]; simpl in Hp; try discriminate;
    [injection Hp as ->|]; reflexivity.
Qed.

(** Two nodes of the same kind and annotation whose children are alike
    are rewritten to the same node, but for children that are twins. *)
Lemma rewrite_children_twin indent level n n' :
  kind n = kind n' ->
  indentLevel n = indentLevel n' ->
  Forall2 (fun c c' => Alike sensitive c c' /\ flag_free c = true)
    (children_or_empty n) (children_or_empty n') ->
  exists cs cs',
    rewrite_children indent level n
      = mkNode (kind n) (Some cs) (indentLevel n)
    /\ rewrite_children indent level n'
       = mkNode (kind n) (Some cs') (indentLevel n)
    /\ Forall2 (twin sensitive) cs cs'.
Proof.
  intros Hk Hd Hcs.
  assert (Hkinds : forall l l',
    Forall2 (fun c c' => Alike sensitive c c' /\ flag_free c = true) l l' ->
    Forall2 (fun c c' => kind c = kind c') l l').
  { intros l l'. apply Forall2_weaken. intros a b [H _].
    now apply Alike_kind. }
  pose proof (prepared_twin indent level n n' Hk Hcs) as Hprep.
  unfold Formatter.rewrite_children.
  fold (prepared indent level n) (prepared indent level n').
  replace (NodeType_eqb (type n') root) with (NodeType_eqb (type n) root)
    by (unfold type; now rewrite Hk).
  rewrite <- (has_linefeed_kinds _ _ (Hkinds _ _ Hcs)).
  set (nl := negb _ && _).
  pose proof (rebuild_twin n n' _ _ indent level nl _ _ Hk
                (containsOnlyTextNodes_kinds _ _ (Hkinds _ _ Hprep))
                Hprep 0%nat None None eq_refl) as Hloop.
  set (result := rebuild n _ indent level nl 0 None _) in *.
  set (result' := rebuild n' _ indent level nl 0 None _) in *.
  rewrite <- (afterChildNodesAddedHook_kinds n n' result result' _ _ Hk
                (Forall2_weaken _ _ _ _ twin_kind Hloop)
                (last_annotated_kinds level _ _ (Hkinds _ _ Hprep)
                   None None eq_refl)).
  destruct (_ || nl).
  - exists (result ++ [closing_break indent level]),
      (result' ++ [closing_break indent level]).
    unfold set_children. rewrite <- Hk, <- Hd. repeat split.
    apply Forall2_app; [exact Hloop|].
    constructor; [|constructor]. repeat split. apply Alike_refl.
  - exists result, result'.
    unfold set_children. rewrite <- Hk, <- Hd. repeat split. exact Hloop.
Qed.

Lemma height_unfold n :
  height n
  = S (fold_right (fun c m => Nat.max (height c) m) 0%nat
         (children_or_empty n)).
Proof. destruct n as [k [cs|] d]; reflexivity. Qed.

Lemma Alike_height n :
  forall n', Alike sensitive n n' -> height n = height n'.
Proof.
  induction n as [k d | k cs d IH] using Node_induction; intros n' H;
    rewrite (height_unfold n'), height_unfold; f_equal;
    inversion H as [m m' _ _ Hcs | m m' _ Hcs]; subst;
    try (unfold children_or_empty; now rewrite <- Hcs).
  - simpl in Hcs. inversion Hcs. reflexivity.
  - simpl in Hcs. revert Hcs. cbn [children_or_empty children].
    generalize (children_or_empty n'). clear H.
    induction IH as [|c cs Hc _ IHcs]; intros l Hl;
      inversion Hl; subst; [reflexivity|].
    cbn [fold_right]. erewrite Hc, IHcs; eauto.
Qed.

Lemma ignore_app l l' : ignore (l ++ l') = ignore l || ignore l'.
Proof.
  unfold Formatter.ignore. rewrite rev_app_distr, existsb_app.
  apply orb_comm.
Qed.

Lemma ignore_chain l l' : same_chain l l' -> ignore l = ignore l'.
Proof.
  unfold same_chain, Formatter.ignore.
  intros H.
  assert (Hex : forall l0 : list Node,
            existsb (fun n => match tagName n with
                              | Some t => existsb (String.eqb t) sensitive
                              | None => false
                              end) l0
            = existsb (fun t => match t with
                                | Some t => existsb (String.eqb t) sensitive
                                | None => false
                                end) (map tagName l0)).
  { induction l0 as [|a l0 IH]; simpl; [reflexivity | now rewrite IH]. }
  now rewrite !Hex, !map_rev, H.
Qed.

Lemma same_chain_length l l' :
  same_chain l l' -> List.length l = List.length l'.
Proof.
  intros H. apply (f_equal (@List.length _)) in H.
  now rewrite !length_map in H.
Qed.

Lemma same_chain_app l l' n n' :
  same_chain l l' -> kind n = kind n' -> same_chain (l ++ [n]) (l' ++ [n']).
Proof.
  unfold same_chain, tagName. intros H Hk. rewrite !map_app, H. simpl.
  now rewrite Hk.
Qed.

Lemma level_of_chain indentInitial l l' :
  same_chain l l' -> level_of indentInitial l = level_of indentInitial l'.
Proof. intros H. unfold level_of. now rewrite (same_chain_length l l' H). Qed.

Lemma all_from_twin
    (visit_child visit_child' : Node -> nat -> Outcome (Node * Action))
    (cs cs' : list Node) :
  Forall2 (twin sensitive) cs cs' ->
  (forall c c' i, twin sensitive c c' ->
     visit_child c i = visit_child' c' i
     /\ forall r, visit_child c i = Done r -> forall k, snd r <> GOTO k) ->
  forall index next,
    (next <= index)%nat ->
    all_from visit_child index next cs
      = all_from visit_child' index next cs'.
Proof.
  intros H Hvisit. induction H as [|c c' cs cs' Hc _ IH];
    intros index next Hle; [reflexivity|].
  cbn [all_from].
  replace (index <? next)%nat with false
    by (symmetry; apply Nat.ltb_ge; exact Hle).
  destruct (Hvisit c c' index Hc) as [Heq Hgo]. rewrite <- Heq.
  destruct (visit_child c index) as [r| |]; cbn [bind]; try reflexivity.
  specialize (Hgo r eq_refl).
  assert (Hnext : match snd r with GOTO k => k | _ => S index end = S index)
    by (destruct (snd r); [reflexivity | reflexivity | now elim (Hgo index0)]).
  rewrite Hnext, (IH (S index) (S index) (le_n _)). reflexivity.
Qed.

Lemma Forall2_with_left {A B} (P : A -> B -> Prop) (Q : A -> Prop) l l' :
  Forall2 P l l' -> (forall a, In a l -> Q a) ->
  Forall2 (fun a b => P a b /\ Q a) l l'.
Proof.
  intros H. induction H as [|a b l l' Hab _ IH]; intros HQ; constructor.
  - split; [exact Hab | apply HQ; now left].
  - apply IH. intros x Hx. apply HQ. now right.
Qed.

Lemma Forall2_refl {A} (P : A -> A -> Prop) l :
  (forall a, P a a) -> Forall2 P l l.
Proof. intros H. induction l; constructor; auto. Qed.

Lemma twin_children n n' :
  twin sensitive n n' ->
  ignore [n] = false ->
  Forall2 (fun c c' => Alike sensitive c c' /\ flag_free c = true)
    (children_or_empty n) (children_or_empty n').
Proof.
  intros [H [_ Hf]] Hign. apply Forall2_with_left.
  - destruct H as [m m' _ _ Hcs | m m' _ Hcs]; [exact Hcs|].
    unfold children_or_empty. rewrite <- Hcs.
    apply Forall2_refl, Alike_refl.
  - intros c. now apply flag_free_children.
Qed.

Lemma twin_skipped n n' :
  twin sensitive n n' -> ignore [n] = true -> n = n'.
Proof.
  intros [H [Hd _]] Hign. destruct H as [m m' Hk Hno Hcs | m m' Hk Hcs].
  - rewrite Hign in Hno. discriminate.
  - destruct m, m'. simpl in *. now subst.
Qed.

(** The walk gives the same result for twins below chains of the same
    tag names. *)
Lemma one_twin indent usePrettier indentInitial fuel :
  forall n n' index index' parents parents',
    twin sensitive n n' ->
    same_chain parents parents' ->
    ignore parents = false ->
    one fuel indent usePrettier indentInitial n index parents
      = one fuel indent usePrettier indentInitial n' index' parents'
    /\ forall r,
         one fuel indent usePrettier indentInitial n index parents = Done r ->
         forall k, snd r <> GOTO k.
Proof.
  induction fuel as [|fuel IH];
    intros n n' index index' parents parents' Htwin Hchain Hparents.
  { split; [reflexivity | discriminate]. }
  pose proof (twin_kind n n' Htwin) as Hk.
  destruct Htwin as [Halike [Hd Hfree]].
  set (level := level_of indentInitial parents).
  assert (Hlevel : level_of indentInitial parents' = level)
    by (symmetry; now apply level_of_chain).
  assert (Hkc : kind (indent_comment indent level n)
                = kind (indent_comment indent level n'))
    by (unfold indent_comment; rewrite <- Hk;
        destruct (kind n) eqn:E; simpl; congruence).
  assert (Hv : visitor indent usePrettier indentInitial n index parents
    = if ignore [n]
      then skip_sensitive indent usePrettier level
             (indent_comment indent level n)
      else Done (rewrite_children indent level
                   (indent_comment indent level n), CONTINUE)).
  { unfold Formatter.visitor. fold level.
    rewrite (flag_free_ignore_flag n index parents Hfree).
    now rewrite ignore_indent_comment, ignore_app, Hparents. }
  assert (Hv' : visitor indent usePrettier indentInitial n' index' parents'
    = if ignore [n]
      then skip_sensitive indent usePrettier level
             (indent_comment indent level n')
      else Done (rewrite_children indent level
                   (indent_comment indent level n'), CONTINUE)).
  { unfold Formatter.visitor. rewrite Hlevel.
    rewrite (ignore_flag_kind n n' index' parents' Hk Hfree).
    rewrite ignore_indent_comment, ignore_app.
    rewrite <- (ignore_chain _ _ Hchain), Hparents.
    replace (ignore [n']) with (ignore [n]); [reflexivity|].
    apply ignore_chain. unfold same_chain, tagName. simpl. now rewrite Hk. }
  cbn [Formatter.one]. rewrite Hv, Hv'.
  destruct (ignore [n]) eqn:Hign.
  - rewrite <- (twin_skipped n n' (conj Halike (conj Hd Hfree)) Hign).
    destruct (skip_sensitive indent usePrettier level
                (indent_comment indent level n)) as [[m a]| |] eqn:Es;
      cbn [bind]; try (split; [reflexivity | discriminate]).
    apply skip_sensitive_action in Es. simpl in Es. subst a.
    destruct (children m); (split; [reflexivity|]);
      intros r Hr; injection Hr as <-; discriminate.
  - destruct (rewrite_children_twin indent level
                (indent_comment indent level n)
                (indent_comment indent level n') Hkc)
      as [cs [cs' [Hm [Hm' Hcs]]]].
    { now rewrite !indent_comment_indentLevel. }
    { unfold children_or_empty. rewrite !indent_comment_children.
      apply twin_children; [repeat split; assumption | exact Hign]. }
    rewrite Hm, Hm'. cbn [bind children].
    set (m := mkNode _ (Some cs) _). set (m' := mkNode _ (Some cs') _).
    assert (Hwalk :
      all_from (fun child i =>
                  one fuel indent usePrettier indentInitial child (Some i)
                    (parents ++ [m])) 0 0 cs
      = all_from (fun child i =>
                    one fuel indent usePrettier indentInitial child (Some i)
                      (parents' ++ [m'])) 0 0 cs').
    { apply all_from_twin; [exact Hcs | | apply le_n].
      intros c c' i Hc. apply IH; [exact Hc | |].
      - now apply same_chain_app.
      - rewrite ignore_app, Hparents. simpl.
        rewrite <- Hign. apply ignore_chain.
        unfold same_chain. simpl. f_equal. subst m.
        change (tagName (mkNode ?k ?c ?d)) with
          (match k with KElement t _ => Some t | _ => None end).
        unfold indent_comment, tagName.
        destruct (kind n) eqn:E; simpl; now rewrite ?E. }
    rewrite Hwalk.
    destruct (all_from _ 0 0 cs') as [walked| |]; cbn [bind];
      try (split; [reflexivity | discriminate]).
    split; [reflexivity|]. intros r Hr. injection Hr as <-. discriminate.
Qed.

(** *** The properties of the specification *)

(** C9. Take a node that is not white-space sensitive.  The visitor
    either stops at once, the node being a prettyhtml-ignore comment, and
    leaves it as it is, or rewrites its child list; the new list then is
    the old children, each of them once and in their order, with breaks put
    in.  The old children come back with their annotation set and, for
    text outside the root, re-indented, which changes nothing but white
    space in them; a break is a text node of one or two linefeeds and
    copies of the indentation, so it is white space only. *)
Theorem rebuild_keeps_children :
  forall (settings : Settings) (indentInitial : bool) (node : Node)
         (index : option nat) (parents : list Node),
    ignore (parents ++ [node]) = false ->
    let indent := indent_of settings in
    let level := level_of indentInitial parents in
    (exists node' result,
       visitor indent (usePrettier_of settings) indentInitial node index
         parents = Done (node', result)
       /\ match result with
          | CONTINUE =>
              exists rebuilt,
                children node' = Some rebuilt
                /\ Interleaved indent
                     (map (setData level) (prepared indent level node))
                     rebuilt
          | _ => node' = node
          end)
    /\ Forall2
         (fun c c' => ink_of c' = ink_of c /\ (type c <> text -> c' = c))
         (children_or_empty node) (prepared indent level node)
    /\ (forall b, is_break indent b ->
          exists v, kind b = KText v /\ Js.all_chars Js.is_space v = true).
Proof.
  intros settings indentInitial node index parents Hign indent level.
  split; [|split].
  - rewrite (visitor_not_sensitive indent _ indentInitial node index parents
               Hign).
    destruct (ignore_flag node index parents) as [next|].
    + exists node, (GOTO next). split; reflexivity.
    + eexists _, CONTINUE. split; [reflexivity|]. fold level.
      rewrite <- (prepared_indent_comment indent level level node).
      apply rewrite_children_interleaved.
  - apply prepared_related, indent_of_blank.
  - intros b. apply is_break_blank, indent_of_blank.
Qed.


(** C4, as the code has it.  Outside white-space sensitive subtrees, a
    void element none of whose text children holds a linefeed gets, as its
    new child list, exactly what the loop over its children built; no
    closing break is appended to it. *)
Theorem void_element_no_closing_break :
  forall (indent : string) (usePrettier indentInitial : bool) (node : Node)
         (index : option nat) (parents : list Node),
    isVoid node = true ->
    ignore (parents ++ [node]) = false ->
    existsb has_linefeed (children_or_empty node) = false ->
    let level := level_of indentInitial parents in
    let children := prepared indent level node in
    visitor indent usePrettier indentInitial node index parents
    = Done (set_children
              (rebuild node children indent level false 0 None children)
              node,
            CONTINUE).
Proof.
  intros indent usePrettier indentInitial node index parents Hvoid Hign Hlf
    level cs.
  pose proof (isVoid_not_comment node Hvoid) as Hnc.
  unfold Formatter.visitor. fold level.
  rewrite (ignore_flag_not_comment node index parents Hnc).
  rewrite (indent_comment_other indent level node Hnc), Hign.
  unfold Formatter.rewrite_children. fold (prepared indent level node).
  fold cs. rewrite Hlf, andb_false_r.
  unfold afterChildNodesAddedHook.
  change (Formatter.isVoid voids (set_children ?r node)) with (isVoid node).
  rewrite Hvoid. cbn [negb]. rewrite !andb_false_r. reflexivity.
Qed.


(** X29. When formatting a formatted tree changes nothing.  The pass
    itself does not recognise its own output: it is the white-space
    pre-pass that has to undo the breaks of an earlier run.  Formatting a
    formatted tree gives back that tree whenever the pre-pass makes of the
    formatted tree what it made of the tree that was formatted, but for the
    annotations and the empty child lists of leaves that the walk writes
    anew anyway (and the same altogether below white-space sensitive
    elements); this for a tree without prettyhtml-ignore comment, and
    with the page mode of the two trees the same. *)
Theorem format_idempotent_when_restored :
  forall (options : Settings) (tree formatted : Node),
    transform options tree = Done formatted ->
    Alike sensitive (minify tree) (minify formatted) ->
    indentLevel (minify tree) = indentLevel (minify formatted) ->
    flag_free (minify tree) = true ->
    isPageMode formatted = isPageMode tree ->
    transform options formatted = Done formatted.
Proof.
  intros options tree formatted H Halike Hd Hfree Hmode.
  unfold Formatter.transform, Formatter.visit in *.
  rewrite Hmode, <- (Alike_height _ _ Halike).
  destruct (one_twin (indent_of options) (usePrettier_of options)
              (isPageMode tree) (height (minify tree))
              (minify tree) (minify formatted) None None [] [])
    as [Hsame _]; [repeat split; assumption | reflexivity | reflexivity |].
  now rewrite <- Hsame.
Qed.

End EngineFacts.

(** *** The properties on the example trees *)

(** C1 as the specification words it fails: [fragment] holds no [html],
    [body] or [head] element, and the level under its top node is the
    depth, 1, not the depth less one, so that the break before its first
    [p] is a linefeed and one indentation; [page] holds such elements, and
    there the level is the depth less one. *)
Lemma level_of_fragment_not_shifted :
  find is_page_element fragment = None
  /\ level_of (isPageMode fragment) [fragment] = 1%Z
  /\ level_of (isPageMode fragment) [fragment]
       <> (Z.of_nat (List.length [fragment]) - 1)%Z
  /\ option_map
       (fun r => map (fun d => map kind (firstn 1 (children_or_empty d)))
                   (firstn 1 (children_or_empty r)))
       (done (run_transform rehype_minify_whitespace fragment))
     = Some [[KText (single ++ "  ")]]
  /\ find is_page_element page <> None
  /\ level_of (isPageMode page) [page]
       <> Z.of_nat (List.length [page]).
Proof. repeat split; vm_compute; discriminate. Qed.

(** C2.  The claim, and the code against it.  [paragraph] is the
    example of the visitor's own comment, which documents
    [<p>foo <strong>bar</strong></p>] as formatted with [foo] on a line
    of its own.  The first run does not do that: it puts a break before
    [strong] and before the end of [p] only.  The pre-pass of the second
    run removes the last break of the first and keeps the one between the
    text and the inline element, as a linefeed; the visitor now finds a
    linefeed in the text of [p] and breaks before [foo] as well.  So the
    second run gives another tree than the first, the one the comment
    documents; a third run changes nothing any more. *)
Lemma paragraph_formatted_twice :
  rehype_minify_whitespace paragraph = paragraph
  /\ rehype_minify_whitespace paragraph_once = paragraph_minified
  /\ visit html_void_elements html_whitespace_sensitive_tag_names false
       prettier_echo "  " true true paragraph
     = Done paragraph_once
  /\ visit html_void_elements html_whitespace_sensitive_tag_names false
       prettier_echo "  " true true paragraph_minified
     = Done paragraph_twice
  /\ format html_void_elements html_whitespace_sensitive_tag_names
       rehype_minify_whitespace false prettier_echo two_spaces paragraph
     = Done paragraph_once
  /\ format html_void_elements html_whitespace_sensitive_tag_names
       rehype_minify_whitespace false prettier_echo two_spaces paragraph_once
     = Done paragraph_twice
  /\ format html_void_elements html_whitespace_sensitive_tag_names
       rehype_minify_whitespace false prettier_echo two_spaces paragraph_twice
     = Done paragraph_twice
  /\ paragraph_twice <> paragraph_once
  /\ map (fun p => map value (children_or_empty p))
       (children_or_empty paragraph_once)
     = [ [Some "foo"; Some (String "010" "  "); None; Some (String "010" "")];
         [] ]
  /\ map (fun p => map value (children_or_empty p))
       (children_or_empty paragraph_twice)
     = [ [Some (String "010" "  "); Some "foo"; Some (String "010" "  ");
          None; Some (String "010" "")];
         [] ].
Proof. repeat split; try reflexivity. intros H. discriminate H. Qed.

Lemma format_idempotent_when_restored_witness :
  run_transform rehype_minify_whitespace fragment = Done formatted_fragment
  /\ run_transform rehype_minify_whitespace formatted_fragment = Done formatted_fragment.
Proof.
  split; [reflexivity|].
  apply (format_idempotent_when_restored html_void_elements
           html_whitespace_sensitive_tag_names rehype_minify_whitespace false prettier_echo
           two_spaces fragment formatted_fragment); try reflexivity.
  repeat first
    [ apply Forall2_nil
    | apply Forall2_cons
    | apply Alike_walked; [reflexivity | reflexivity | simpl] ].
Defined.



(** C4 as the specification words it fails: a [br] element whose text
    child holds a linefeed ends with a closing break. *)
Lemma void_element_gets_closing_break :
  isVoid html_void_elements br_two_lines = true
  /\ option_map (fun r => last (children_or_empty (fst r)) (Root []))
       (done (run_visitor "  " true true br_two_lines (Some 0%nat)
                [Root [br_two_lines]]))
     = Some (closing_break "  " 1).
Proof. split; reflexivity. Qed.

Lemma void_element_no_closing_break_witness :
  run_visitor "  " true true br_one_line (Some 0%nat) [Root [br_one_line]]
  = Done (set_children [setData 1 (Text "a")] br_one_line, CONTINUE).
Proof.
  exact (void_element_no_closing_break html_void_elements
           html_whitespace_sensitive_tag_names false prettier_echo "  " true true
           br_one_line (Some 0%nat) [Root [br_one_line]]
           eq_refl eq_refl eq_refl).
Defined.



(** C8 as the specification words it fails: the pass visits the top node
    of [fragment] and the break it puts before the first [p], and leaves
    both without an annotation. *)
Lemma top_node_not_annotated :
  option_map indentLevel (done (run_transform rehype_minify_whitespace fragment))
    = Some None
  /\ option_map
       (fun r => map (fun d => map indentLevel (children_or_empty d))
                   (children_or_empty r))
       (done (run_transform rehype_minify_whitespace fragment))
     = Some [[None; Some 1%Z; None; Some 1%Z; None]; []].
Proof. split; reflexivity. Qed.

Lemma rebuild_keeps_children_witness :
  exists node' result,
    run_visitor "  " true true conditional (Some 0%nat) [Root [conditional]]
      = Done (node', result)
    /\ match result with
       | CONTINUE =>
           exists rebuilt,
             children node' = Some rebuilt
             /\ Interleaved "  "
                  [setData 1 (Comment "[if IE]"); setData 1 (Element "p" [])]
                  rebuilt
       | _ => node' = conditional
       end.
Proof.
  exact (proj1 (rebuild_keeps_children html_void_elements
           html_whitespace_sensitive_tag_names false prettier_echo two_spaces true
           conditional (Some 0%nat) [Root [conditional]] eq_refl)).
Defined.

End FormatterFacts.

(* ================================================================== *)
(** * Further properties of the registry *)
(* ================================================================== *)

Module RegistryMore.
Import Registry.

Lemma lower_char_idem (c : ascii) :
  Js.lower_char (Js.lower_char c) = Js.lower_char c.
Proof. destruct c as [[] [] [] [] [] [] [] []]; reflexivity. Qed.

Lemma upper_char_idem (c : ascii) :
  Js.upper_char (Js.upper_char c) = Js.upper_char c.
Proof. destruct c as [[] [] [] [] [] [] [] []]; reflexivity. Qed.

Lemma upper_lower_char (c : ascii) :
  Nat.ltb (nat_of_ascii c) 128 = true ->
  Js.upper_char (Js.lower_char c) = Js.upper_char c.
Proof. destruct c as [[] [] [] [] [] [] [] []]; (reflexivity || discriminate). Qed.

Lemma toLowerCase_idem (s : string) :
  Js.toLowerCase (Js.toLowerCase s) = Js.toLowerCase s.
Proof.
  induction s as [|c s IH]; simpl; [reflexivity|].
  now rewrite lower_char_idem, IH.
Qed.

Lemma toUpperCase_idem (s : string) :
  Js.toUpperCase (Js.toUpperCase s) = Js.toUpperCase s.
Proof.
  induction s as [|c s IH]; simpl; [reflexivity|].
  now rewrite upper_char_idem, IH.
Qed.

Lemma toUpperCase_toLowerCase (s : string) :
  Js.is_ascii s = true ->
  Js.toUpperCase (Js.toLowerCase s) = Js.toUpperCase s.
Proof.
  unfold Js.is_ascii.
  induction s as [|c s IH]; [reflexivity|]. cbn [Js.all_chars].
  intros H. apply andb_true_iff in H. destruct H as [Hc Hs]. simpl.
  now rewrite (upper_lower_char c Hc), (IH Hs).
Qed.


Lemma mem_In (k : string) (keys : list string) :
  mem k keys = true <-> In k keys.
Proof.
  unfold mem. rewrite existsb_exists. split.
  - intros [x [Hx E]]. apply String.eqb_eq in E. now subst.
  - intros H. exists k. split; [exact H | apply String.eqb_refl].
Qed.

Lemma own_In {A} (obj : list (string * A)) (k : string) (v : A) :
  own obj k = Some v -> In k (map fst obj).
Proof.
  induction obj as [|[k' v'] obj IH]; simpl; [discriminate|].
  destruct (String.eqb k' k) eqn:E; [|auto].
  apply String.eqb_eq in E. auto.
Qed.

Lemma In_own {A} (obj : list (string * A)) (k : string) :
  In k (map fst obj) -> exists v, own obj k = Some v.
Proof.
  induction obj as [|[k' v'] obj IH]; simpl; [intros []|].
  destruct (String.eqb k' k) eqn:E; [eauto|].
  intros [H | H]; [|auto]. subst. now rewrite String.eqb_refl in E.
Qed.

Lemma reachable_coherent (st : State) : reachable st -> coherent st.
Proof.
  induction 1 as [|st tagName flag _ IH].
  - apply RegistryFacts.initial_coherent.
  - now apply RegistryFacts.getHtmlTagDefinition_coherent.
Qed.

(** What a lookup does to the state: nothing when the table of the flag
    is cached, and otherwise it adds that table under a key that was not
    there. *)
Lemma getHtmlTagDefinition_state tagName flag st :
  snd (getHtmlTagDefinition tagName flag st)
  = match own (TAG_DEFINITIONS st) (cacheKeyOf flag) with
    | Some _ => st
    | None =>
        {| _DEFAULT_TAG_DEFINITION := Some (new_HtmlTagDefinition no_options);
           TAG_DEFINITIONS :=
             TAG_DEFINITIONS st ++ [(cacheKeyOf flag, table flag)] |}
    end.
Proof.
  unfold getHtmlTagDefinition.
  set (st1 := match own (TAG_DEFINITIONS st) (cacheKeyOf flag) with
              | Some _ => st | None => _ end).
  destruct (own (TAG_DEFINITIONS st1) (cacheKeyOf flag)); [|reflexivity].
  destruct (own t tagName); [reflexivity|].
  destruct (mem tagName Object_prototype_names); [reflexivity|].
  destruct (_DEFAULT_TAG_DEFINITION st1); reflexivity.
Qed.

Lemma reachable_keys (st : State) :
  reachable st ->
  NoDup (map fst (TAG_DEFINITIONS st))
  /\ incl (map fst (TAG_DEFINITIONS st)) [cacheKeyOf true; cacheKeyOf false].
Proof.
  induction 1 as [|st tagName flag _ [Hnd Hincl]].
  - split; [constructor | intros k []].
  - rewrite getHtmlTagDefinition_state.
    destruct (own (TAG_DEFINITIONS st) (cacheKeyOf flag)) eqn:E; [auto|].
    cbn [TAG_DEFINITIONS]. rewrite map_app. cbn [map fst]. split.
    + apply NoDup_app; [exact Hnd | repeat constructor; intros [] |].
      intros k Hk [<- | []]. apply In_own in Hk. destruct Hk as [v Hv].
      rewrite Hv in E. discriminate.
    + intros k Hk. apply in_app_or in Hk. destruct Hk as [Hk | [<- | []]].
      * now apply Hincl.
      * destruct flag; simpl; auto.
Qed.



(** X2. The cache holds one table for each flag that was looked up, so
    never more than two, and a lookup with a flag that was looked up
    before leaves the module as it is. *)
Theorem cache_bounded_and_stable :
  forall (st : State) (tagName tagName' : string) (flag : bool),
    reachable st ->
    (List.length (TAG_DEFINITIONS st) <= 2)%nat
    /\ snd (getHtmlTagDefinition tagName' flag
              (snd (getHtmlTagDefinition tagName flag st)))
       = snd (getHtmlTagDefinition tagName flag st).
Proof.
  intros st tagName tagName' flag H. split.
  - destruct (reachable_keys st H) as [Hnd Hincl].
    rewrite <- (length_map fst).
    exact (NoDup_incl_length Hnd Hincl).
  - rewrite (getHtmlTagDefinition_state tagName' flag).
    rewrite (getHtmlTagDefinition_state tagName flag).
    destruct (own (TAG_DEFINITIONS st) (cacheKeyOf flag)) eqn:E.
    + now rewrite E.
    + cbn [TAG_DEFINITIONS].
      now rewrite (RegistryFacts.own_app_fresh _ _ _ E).
Qed.

Lemma cache_bounded_and_stable_witness :
  (List.length
     (TAG_DEFINITIONS
        (snd (getHtmlTagDefinition "a" true
                (snd (getHtmlTagDefinition "b" false initial))))) <= 2)%nat.
Proof.
  exact (proj1 (cache_bounded_and_stable _ "a" "a" true
           (reachable_lookup _ "a" true
              (reachable_lookup initial "b" false reachable_initial)))).
Defined.

Lemma table_keys_lower (flag : bool) (k : string) :
  In k (map fst (table flag)) -> Js.toLowerCase k = k.
Proof.
  assert (H : forallb (fun k => String.eqb (Js.toLowerCase k) k)
                (map fst (table flag)) = true)
    by (destruct flag; vm_compute; reflexivity).
  rewrite forallb_forall in H. intros Hk. now apply String.eqb_eq, H.
Qed.

(** X3. A tag name with an upper-case letter is never found in the table:
    it gets the default definition, or the inherited member when it is a
    name every object inherits. *)
Theorem upper_case_name_not_found :
  forall (st : State) (tagName : string) (flag : bool),
    reachable st ->
    Js.toLowerCase tagName <> tagName ->
    own (table flag) tagName = None
    /\ (fst (getHtmlTagDefinition tagName flag st)
          = Found (new_HtmlTagDefinition no_options)
        \/ fst (getHtmlTagDefinition tagName flag st) = Inherited tagName).
Proof.
  intros st tagName flag H Hcase.
  assert (Hnone : own (table flag) tagName = None).
  { destruct (own (table flag) tagName) as [d|] eqn:E; [|reflexivity].
    elim Hcase. eapply table_keys_lower, own_In, E. }
  split; [exact Hnone|].
  rewrite RegistryFacts.getHtmlTagDefinition_reads
    by now apply reachable_coherent.
  rewrite Hnone. destruct (mem tagName Object_prototype_names); auto.
Qed.

Lemma upper_case_name_not_found_witness :
  own (table false) "Input" = None
  /\ (fst (getHtmlTagDefinition "Input" false initial)
        = Found (new_HtmlTagDefinition no_options)
      \/ fst (getHtmlTagDefinition "Input" false initial)
           = Inherited "Input").
Proof.
  apply (upper_case_name_not_found initial "Input" false reachable_initial).
  discriminate.
Defined.

Lemma own_related {A} (R : string -> A -> A -> Prop)
    (obj obj' : list (string * A)) (k : string) :
  Forall2 (fun e e' => fst e = fst e' /\ R (fst e) (snd e) (snd e')) obj obj' ->
  match own obj k, own obj' k with
  | Some v, Some v' => R k v v'
  | None, None => True
  | _, _ => False
  end.
Proof.
  induction 1 as [|[k1 v1] [k2 v2] obj obj' [Hk Hv] _ IH]; simpl; [exact I|].
  simpl in Hk, Hv. subst k2.
  destruct (String.eqb k1 k) eqn:E; [|exact IH].
  apply String.eqb_eq in E. now subst.
Qed.

(** X4. The tables of the two modes have the same keys; their definitions
    are the same but for [ignoreFirstLf], which is the mode's flag at
    [pre], [listing] and [textarea] and false everywhere else. *)
Theorem tables_differ_in_ignoreFirstLf_only :
  forall (flag : bool) (tagName : string),
    match own (table flag) tagName, own (table false) tagName with
    | Some d, Some d0 =>
        closedByChildren d = closedByChildren d0
        /\ closedByParent d = closedByParent d0
        /\ requiredParents d = requiredParents d0
        /\ parentToAdd d = parentToAdd d0
        /\ implicitNamespacePrefix d = implicitNamespacePrefix d0
        /\ contentType d = contentType d0
        /\ isVoid d = isVoid d0
        /\ ignoreFirstLf d0 = false
        /\ ignoreFirstLf d
           = flag && mem tagName ["pre"; "listing"; "textarea"]
    | None, None => True
    | _, _ => False
    end.
Proof.
  intros flag tagName.
  apply (own_related
           (fun k d d0 =>
              closedByChildren d = closedByChildren d0
              /\ closedByParent d = closedByParent d0
              /\ requiredParents d = requiredParents d0
              /\ parentToAdd d = parentToAdd d0
              /\ implicitNamespacePrefix d = implicitNamespacePrefix d0
              /\ contentType d = contentType d0
              /\ isVoid d = isVoid d0
              /\ ignoreFirstLf d0 = false
              /\ ignoreFirstLf d
                 = flag && mem k ["pre"; "listing"; "textarea"])).
  unfold table.
  repeat (apply Forall2_cons;
          [split; [reflexivity|]; cbn [fst snd];
           repeat split; try reflexivity;
           destruct flag; reflexivity|]).
  apply Forall2_nil.
Qed.

Lemma mem_own_keys (k : string) (names : list string) :
  mem k (own_keys names)
  = negb (String.eqb k "__proto__") && mem k names.
Proof.
  unfold mem, own_keys. induction names as [|n names IH]; simpl.
  - now rewrite andb_false_r.
  - destruct (String.eqb n "__proto__") eqn:En; simpl.
    + rewrite IH. apply String.eqb_eq in En. subst n.
      now destruct (String.eqb k "__proto__").
    + rewrite IH. destruct (String.eqb k "__proto__") eqn:Ek; simpl;
        [|reflexivity].
      apply String.eqb_eq in Ek. subst k. rewrite String.eqb_sym in En.
      now rewrite En.
Qed.

(** X5. A definition made without required parents never asks for an extra
    parent.  One made with required parents, the first of them a
    non-empty ASCII name in lower case, names that first one as the parent
    to add and asks for an extra parent when there is no current parent;
    below the parent it adds it asks for no extra parent any more, unless
    that parent is [__proto__], which never becomes a key of the
    dictionary: then it still asks for one. *)
Theorem parent_to_add_is_enough :
  forall (o : Options),
    ((o_requiredParents o = None \/ o_requiredParents o = Some []) ->
       forall currentParent,
         requireExtraParent (new_HtmlTagDefinition o) currentParent = false)
    /\ (forall p ps,
          o_requiredParents o = Some (p :: ps) ->
          Js.is_ascii p = true ->
          Js.toLowerCase p = p ->
          p <> EmptyString ->
          parentToAdd (new_HtmlTagDefinition o) = Some p
          /\ requireExtraParent (new_HtmlTagDefinition o) EmptyString = true
          /\ requireExtraParent (new_HtmlTagDefinition o) p
             = String.eqb p "__proto__").
Proof.
  intros o. split.
  - intros [H | H] currentParent; unfold requireExtraParent; simpl;
      now rewrite H.
  - intros p ps H _ Hlow Hne. unfold requireExtraParent.
    cbn [new_HtmlTagDefinition requiredParents parentToAdd]. rewrite H.
    repeat split. rewrite Hlow.
    destruct p as [|c p]; [now elim Hne|]. cbn [Js.truthy negb].
    rewrite mem_own_keys. unfold mem at 1. cbn [existsb].
    rewrite String.eqb_refl, orb_true_l, andb_true_r, negb_involutive.
    destruct (String.eqb (String c p) "__proto__") eqn:E.
    + apply String.eqb_eq in E. rewrite E. reflexivity.
    + destruct (String.eqb (String c p) "template"
                || String.eqb (String c p) "ng-template");
        reflexivity.
Qed.

Lemma parent_to_add_is_enough_witness :
  requireExtraParent (new_HtmlTagDefinition void_args) "div" = false
  /\ (parentToAdd
        (new_HtmlTagDefinition
           (args (Some ["tr"]) (Some ["tbody"; "tfoot"; "thead"])
              None None (Some true) None None)) = Some "tbody"
      /\ requireExtraParent
           (new_HtmlTagDefinition
              (args (Some ["tr"]) (Some ["tbody"; "tfoot"; "thead"])
                 None None (Some true) None None)) "" = true
      /\ requireExtraParent
           (new_HtmlTagDefinition
              (args (Some ["tr"]) (Some ["tbody"; "tfoot"; "thead"])
                 None None (Some true) None None)) "tbody" = false)
  /\ requireExtraParent
       (new_HtmlTagDefinition
          (args None (Some ["__proto__"]) None None None None None))
       "__proto__" = true.
Proof.
  split; [|split].
  - apply (proj1 (parent_to_add_is_enough void_args)). now left.
  - apply (proj2 (parent_to_add_is_enough
             (args (Some ["tr"]) (Some ["tbody"; "tfoot"; "thead"])
                None None (Some true) None None)) "tbody"
             ["tfoot"; "thead"]);
      [reflexivity | reflexivity | reflexivity | discriminate].
  - apply (proj2 (parent_to_add_is_enough
             (args None (Some ["__proto__"]) None None None None None))
             "__proto__" []);
      [reflexivity | reflexivity | reflexivity | discriminate].
Defined.



Lemma inherited_names_not_upper (name : string) :
  mem (Js.toUpperCase name) Object_prototype_names = false.
Proof.
  destruct (mem (Js.toUpperCase name) Object_prototype_names) eqn:E;
    [|reflexivity].
  apply mem_In in E.
  assert (H : forallb (fun x => negb (String.eqb (Js.toUpperCase x) x))
                Object_prototype_names = true) by reflexivity.
  rewrite forallb_forall in H. specialize (H _ E).
  now rewrite toUpperCase_idem, String.eqb_refl in H.
Qed.

(** X7. Whether a tag name of ASCII characters is known does not depend
    on its case. *)
Theorem isKnownHTMLTag_ignores_case :
  forall tagName : string,
    Js.is_ascii tagName = true ->
    isKnownHTMLTag (Js.toLowerCase tagName) = isKnownHTMLTag tagName
    /\ isKnownHTMLTag (Js.toUpperCase tagName) = isKnownHTMLTag tagName.
Proof.
  intros tagName Hascii. unfold isKnownHTMLTag.
  now rewrite (toUpperCase_toLowerCase tagName Hascii), toUpperCase_idem.
Qed.

Lemma isKnownHTMLTag_ignores_case_witness :
  Js.is_ascii "tAbLe" = true
  /\ isKnownHTMLTag (Js.toLowerCase "tAbLe") = isKnownHTMLTag "tAbLe"
  /\ isKnownHTMLTag (Js.toUpperCase "tAbLe") = isKnownHTMLTag "tAbLe".
Proof.
  split; [reflexivity|].
  apply (isKnownHTMLTag_ignores_case "tAbLe"). reflexivity.
Defined.

(** X8. Every tag name that has a definition in the table, under either
    mode, is a known tag name. *)
Theorem defined_tags_are_known :
  forall (flag : bool) (tagName : string) (d : HtmlTagDefinition),
    own (table flag) tagName = Some d ->
    isKnownHTMLTag tagName = true.
Proof.
  intros flag tagName d H. apply own_In in H.
  assert (Hall : forallb isKnownHTMLTag (map fst (table flag)) = true)
    by (destruct flag; vm_compute; reflexivity).
  rewrite forallb_forall in Hall. now apply Hall.
Qed.

Lemma defined_tags_are_known_witness : isKnownHTMLTag "textarea" = true.
Proof.
  exact (defined_tags_are_known true "textarea" _ eq_refl).
Defined.

(** X9. A tag name is known exactly when its upper-case form is a key of
    the dictionary; the names every object inherits never count, as none
    of them is in upper case.  The dictionary names two tags under keys
    that are not their upper-case form, and so of all the tag names it
    lists, [annotation-xml] and [foreignObject] are the ones that are not
    known. *)
Theorem isKnownHTMLTag_by_key :
  (forall tagName,
     isKnownHTMLTag tagName
       = mem (Js.toUpperCase tagName) (map fst TAG_DICTIONARY))
  /\ (forall key tagName,
        In (key, tagName) TAG_DICTIONARY ->
        isKnownHTMLTag tagName
          = negb (mem tagName ["annotation-xml"; "foreignObject"])).
Proof.
  split.
  - intros tagName. unfold isKnownHTMLTag, js_in.
    now rewrite inherited_names_not_upper, orb_false_r.
  - intros key tagName Hin.
    assert (H : forallb
                  (fun e => Bool.eqb (isKnownHTMLTag (snd e))
                              (negb (mem (snd e)
                                       ["annotation-xml"; "foreignObject"])))
                  TAG_DICTIONARY = true) by (vm_compute; reflexivity).
    rewrite forallb_forall in H. specialize (H _ Hin).
    now apply Bool.eqb_prop in H.
Qed.

Lemma isKnownHTMLTag_by_key_witness :
  isKnownHTMLTag "foreignObject" = false /\ isKnownHTMLTag "svg" = true.
Proof.
  split.
  - apply (proj2 isKnownHTMLTag_by_key "FOREIGN_OBJECT" "foreignObject").
    vm_compute. tauto.
  - apply (proj2 isKnownHTMLTag_by_key "SVG" "svg"). vm_compute. tauto.
Defined.

End RegistryMore.

(* ================================================================== *)
(** ** Lines, trimming and ink *)
(* ================================================================== *)

Module TextFacts.
Import Js.

Abbreviation no_lf := (all_chars (fun c => negb (is_lf c))).

Lemma split_lf_cons (s : string) : exists h t, split_lf s = h :: t.
Proof.
  induction s as [|c s [h [t IH]]]; simpl; [eauto|].
  destruct (is_lf c); [eauto|]. rewrite IH. eauto.
Qed.

(** Joining the lines of a string gives the string back. *)
Lemma join_split (s : string) : join_lf (split_lf s) = s.
Proof.
  induction s as [|c s IH]; [reflexivity|]. cbn [split_lf].
  destruct (split_lf_cons s) as [h [t Hs]]. rewrite Hs in *.
  destruct (is_lf c) eqn:E.
  - apply Ascii.eqb_eq in E. subst c.
    change (join_lf (EmptyString :: h :: t))
      with (String LF (join_lf (h :: t))).
    now rewrite IH.
  - rewrite <- IH. destruct t; reflexivity.
Qed.

Lemma split_lf_no_lf (s : string) :
  Forall (fun l => no_lf l = true) (split_lf s).
Proof.
  induction s as [|c s IH]; cbn [split_lf]; [repeat constructor|].
  destruct (is_lf c) eqn:E; [constructor; [reflexivity | exact IH]|].
  destruct (split_lf s) as [|h t]; [repeat constructor; simpl; now rewrite E|].
  inversion IH; subst. constructor; [|assumption]. simpl. now rewrite E.
Qed.

Lemma split_lf_line (l r : string) :
  no_lf l = true -> split_lf (l ++ String LF r) = l :: split_lf r.
Proof.
  induction l as [|c l IH]; [reflexivity|]. simpl.
  intros H. apply andb_true_iff in H. destruct H as [Hc Hl].
  apply negb_true_iff in Hc. now rewrite Hc, (IH Hl).
Qed.

Lemma split_lf_single (l : string) : no_lf l = true -> split_lf l = [l].
Proof.
  induction l as [|c l IH]; [reflexivity|]. simpl.
  intros H. apply andb_true_iff in H. destruct H as [Hc Hl].
  apply negb_true_iff in Hc. now rewrite Hc, (IH Hl).
Qed.

(** Splitting what was joined gives the lines back, as long as no line
    holds a linefeed. *)
Lemma split_join (ls : list string) :
  ls <> [] -> Forall (fun l => no_lf l = true) ls ->
  split_lf (join_lf ls) = ls.
Proof.
  induction ls as [|l ls IH]; intros Hne Hall; [now elim Hne|].
  inversion Hall as [|? ? Hl Hls]; subst.
  destruct ls as [|l' ls]; [now apply split_lf_single|].
  change (join_lf (l :: l' :: ls))
    with (l ++ String LF (join_lf (l' :: ls)))%string.
  rewrite (split_lf_line _ _ Hl), IH; [reflexivity | discriminate | exact Hls].
Qed.

Lemma split_lf_length (s : string) :
  includes (String LF EmptyString) s = false ->
  List.length (split_lf s) = 1%nat.
Proof.
  induction s as [|c s IH]; [reflexivity|]. cbn [includes prefix split_lf].
  destruct (ascii_dec LF c) as [<-|Hc]; [destruct s; discriminate|].
  simpl. intros H.
  assert (E : is_lf c = false).
  { apply Ascii.eqb_neq. congruence. }
  rewrite E. destruct (split_lf s); [reflexivity|]. simpl in *. now apply IH.
Qed.

Lemma all_chars_drop_while (p q : ascii -> bool) (s : string) :
  all_chars q s = true -> all_chars q (drop_while p s) = true.
Proof.
  induction s as [|c s IH]; simpl; [reflexivity|].
  intros H. destruct (p c); [|exact H].
  apply andb_true_iff in H. now apply IH.
Qed.

Lemma all_chars_drop_while_end (p q : ascii -> bool) (s : string) :
  all_chars q s = true -> all_chars q (drop_while_end p s) = true.
Proof.
  induction s as [|c s IH]; simpl; [reflexivity|].
  intros H. apply andb_true_iff in H. destruct H as [Hc Hs].
  specialize (IH Hs). destruct (drop_while_end p s).
  - destruct (p c); simpl; [reflexivity | now rewrite Hc].
  - simpl in IH |- *. now rewrite Hc, IH.
Qed.

Lemma drop_while_app_all (p : ascii -> bool) (ws y : string) :
  all_chars p ws = true -> drop_while p (ws ++ y) = drop_while p y.
Proof.
  induction ws as [|c ws IH]; simpl; [reflexivity|].
  intros H. apply andb_true_iff in H. destruct H as [-> Hs]. now apply IH.
Qed.

Lemma drop_while_end_idem (p : ascii -> bool) (s : string) :
  drop_while_end p (drop_while_end p s) = drop_while_end p s.
Proof.
  induction s as [|c s IH]; [reflexivity|]. cbn [drop_while_end].
  destruct (drop_while_end p s) as [|c' r] eqn:E.
  - destruct (p c) eqn:Ec; [reflexivity|]. simpl. now rewrite Ec.
  - cbn [drop_while_end]. cbn [drop_while_end] in IH. now rewrite IH.
Qed.

Lemma drop_while_head (p : ascii -> bool) (s : string) :
  drop_while p s = EmptyString
  \/ exists c r, drop_while p s = String c r /\ p c = false.
Proof.
  induction s as [|c s IH]; simpl; [now left|].
  destruct (p c) eqn:E; [exact IH | right; eauto].
Qed.

Lemma drop_while_end_head (p : ascii -> bool) (c : ascii) (r : string) :
  p c = false -> exists x, drop_while_end p (String c r) = String c x.
Proof.
  intros Hc. cbn [drop_while_end]. destruct (drop_while_end p r); [|eauto].
  rewrite Hc. eauto.
Qed.

Lemma drop_while_fixed (p : ascii -> bool) (s : string) :
  drop_while p (drop_while_end p (drop_while p s))
    = drop_while_end p (drop_while p s).
Proof.
  destruct (drop_while_head p s) as [-> | [c [r [-> Hc]]]]; [reflexivity|].
  destruct (drop_while_end_head p c r Hc) as [x ->]. simpl. now rewrite Hc.
Qed.

Lemma trim_idem (s : string) : trim (trim s) = trim s.
Proof. unfold trim. now rewrite drop_while_fixed, drop_while_end_idem. Qed.

Lemma trim_after_space (ws y : string) :
  all_chars is_space ws = true -> trim (ws ++ trim y) = trim y.
Proof.
  intros H. unfold trim at 1. rewrite (drop_while_app_all _ _ _ H).
  apply trim_idem.
Qed.

Lemma ink_drop_space (p : ascii -> bool) (s : string) :
  (forall c, p c = true -> is_space c = true) ->
  Formatter.ink (drop_while p s) = Formatter.ink s.
Proof.
  intros Hp. induction s as [|c s IH]; simpl; [reflexivity|].
  destruct (p c) eqn:E; [|reflexivity]. now rewrite (Hp c E).
Qed.

Lemma ink_drop_space_end (p : ascii -> bool) (s : string) :
  (forall c, p c = true -> is_space c = true) ->
  Formatter.ink (drop_while_end p s) = Formatter.ink s.
Proof.
  intros Hp. induction s as [|c s IH]; [reflexivity|]. cbn [drop_while_end].
  destruct (drop_while_end p s) as [|c' s'] eqn:E.
  - simpl in IH. destruct (p c) eqn:Ec.
    + simpl. rewrite (Hp c Ec). exact IH.
    + simpl. now rewrite <- IH.
  - change (Formatter.ink (String c (String c' s'))) with
      (if is_space c then Formatter.ink (String c' s')
       else String c (Formatter.ink (String c' s'))).
    rewrite IH. reflexivity.
Qed.

Lemma ink_trim (s : string) : Formatter.ink (trim s) = Formatter.ink s.
Proof.
  unfold trim. rewrite ink_drop_space_end, ink_drop_space; auto.
Qed.

(** The ink of joined lines is the ink of the lines, one after another. *)
Lemma ink_join (ls : list string) :
  Formatter.ink (join_lf ls)
    = fold_right (fun l acc => (Formatter.ink l ++ acc)%string) EmptyString ls.
Proof.
  induction ls as [|l ls IH]; [reflexivity|].
  destruct ls as [|l' ls].
  - simpl. clear IH. induction (Formatter.ink l); simpl; congruence.
  - change (join_lf (l :: l' :: ls))
      with (l ++ String LF (join_lf (l' :: ls)))%string.
    rewrite FormatterFacts.ink_app.
    change (Formatter.ink (String LF (join_lf (l' :: ls))))
      with (Formatter.ink (join_lf (l' :: ls))).
    now rewrite IH.
Qed.

Lemma blank_is_space (s : string) :
  all_chars is_blank s = true -> all_chars is_space s = true.
Proof.
  induction s as [|c s IH]; simpl; [reflexivity|].
  intros H. apply andb_true_iff in H. destruct H as [Hc Hs].
  now rewrite (JsFacts.is_blank_is_space c Hc), IH.
Qed.

Lemma blank_no_lf (s : string) :
  all_chars is_blank s = true -> no_lf s = true.
Proof.
  induction s as [|c s IH]; simpl; [reflexivity|].
  intros H. apply andb_true_iff in H. destruct H as [Hc Hs].
  rewrite (IH Hs), andb_true_r. apply negb_true_iff.
  unfold is_blank in Hc. apply orb_true_iff in Hc.
  destruct Hc as [Hc | Hc]; apply Ascii.eqb_eq in Hc; subst c; reflexivity.
Qed.

(** The indentation is made of spaces, or is one tab. *)
Lemma indent_of_blanks (settings : Formatter.Settings) :
  all_chars is_blank (Formatter.indent_of settings) = true.
Proof.
  unfold Formatter.indent_of.
  destruct (Formatter.useTabs settings); [reflexivity|].
  apply JsFacts.all_chars_repeat_nat. reflexivity.
Qed.

End TextFacts.

(* ================================================================== *)
(** ** More of the formatter: strings *)
(* ================================================================== *)

Module FormatterText.
Import Formatter.

Lemma double_brackets_are_single (s : string) :
  Js.test DOUBLE_BRACKET_INTERPOLATION_REGEXP s = true ->
  Js.test SINGLE_BRACKET_INTERPOLATION_REGEXP s = true.
Proof.
  rewrite !JsFacts.test_split. intros [a [m [b ->]]].
  exists a, (String "{" m), (String "}" b).
  cbn [Js.opening Js.closing DOUBLE_BRACKET_INTERPOLATION_REGEXP
       SINGLE_BRACKET_INTERPOLATION_REGEXP].
  reflexivity.
Qed.

(** X10. The detector answers true exactly for a string in which [<%] is
    followed somewhere by [%>], or an opening brace by a closing one: the
    test for double braces never decides, as what it accepts the test for
    single braces accepts too.  A node without a value is tested as the
    string [undefined] and is no template expression. *)
Theorem isTemplateExpression_one_brace_pair :
  (forall value : option string,
     isTemplateExpression value = true <->
     exists a m b : string,
       Js.to_string value = (a ++ "<%" ++ m ++ "%>" ++ b)%string
       \/ Js.to_string value = (a ++ "{" ++ m ++ "}" ++ b)%string)
  /\ isTemplateExpression None = false.
Proof.
  split; [|reflexivity]. intros value. unfold isTemplateExpression.
  set (v := Js.to_string value).
  pose proof (JsFacts.test_split ARROW_PERC_INTERPOLATION_REGEXP v) as Ha.
  pose proof (JsFacts.test_split SINGLE_BRACKET_INTERPOLATION_REGEXP v) as Hs.
  pose proof (double_brackets_are_single v) as Hd.
  cbn [Js.opening Js.closing ARROW_PERC_INTERPOLATION_REGEXP
       SINGLE_BRACKET_INTERPOLATION_REGEXP] in Ha, Hs.
  destruct (Js.test ARROW_PERC_INTERPOLATION_REGEXP v).
  { split; [intros _|reflexivity].
    destruct (proj1 Ha eq_refl) as [a [m [b H]]]. exists a, m, b. now left. }
  destruct (Js.test DOUBLE_BRACKET_INTERPOLATION_REGEXP v).
  { split; [intros _|reflexivity]. rewrite (Hd eq_refl) in Hs.
    destruct (proj1 Hs eq_refl) as [a [m [b H]]]. exists a, m, b. now right. }
  destruct (Js.test SINGLE_BRACKET_INTERPOLATION_REGEXP v).
  { split; [intros _|reflexivity].
    destruct (proj1 Hs eq_refl) as [a [m [b H]]]. exists a, m, b. now right. }
  split; [discriminate|]. intros [a [m [b [H | H]]]].
  - apply Ha. eauto.
  - apply Hs. eauto.
Qed.

Lemma Forall_removelast {A} (P : A -> Prop) (l : list A) :
  Forall P l -> Forall P (removelast l).
Proof.
  induction 1 as [|x l Hx Hl IH]; [constructor|].
  destruct l; [constructor|]. cbn [removelast]. now constructor.
Qed.

Lemma Forall_last {A} (P : A -> Prop) (l : list A) (d : A) :
  Forall P l -> P d -> P (last l d).
Proof.
  induction 1 as [|x l Hx Hl IH]; intros Hd; [exact Hd|].
  destruct l; [exact Hx|]. now apply IH.
Qed.

Lemma length_removelast_snoc {A} (l : list A) (x : A) :
  l <> [] -> List.length (removelast l ++ [x]) = List.length l.
Proof.
  intros Hne. pose proof (f_equal (@List.length A)
                            (app_removelast_last x Hne)) as H.
  rewrite !length_app in *. simpl in *. lia.
Qed.

Lemma no_lf_map_lines (f : string -> string) (ls : list string) :
  (forall l, TextFacts.no_lf l = true -> TextFacts.no_lf (f l) = true) ->
  Forall (fun l => TextFacts.no_lf l = true) ls ->
  Forall (fun l => TextFacts.no_lf l = true) (map f ls).
Proof.
  intros Hf H. induction H; simpl; constructor; auto.
Qed.

Lemma spaces_no_lf (level : Z) : TextFacts.no_lf (Js.repeat "  " level) = true.
Proof. apply JsFacts.all_chars_repeat_nat. reflexivity. Qed.

(** X18. The formatted text of an embedded [style] or [script] comes back
    from the indentation with the lines it had, as many of them and in
    their order: a line that holds ink has two spaces for every level put
    in front of it, a line of white space is left as it is. *)
Theorem indentPrettierOutput_lines :
  forall (formattedText : string) (level : Z),
    Js.split_lf (indentPrettierOutput formattedText level)
    = map (fun line =>
             if Js.has_ink line then (Js.repeat "  " level ++ line)%string
             else line)
          (Js.split_lf formattedText).
Proof.
  intros formattedText level. unfold indentPrettierOutput.
  apply TextFacts.split_join.
  - destruct (TextFacts.split_lf_cons formattedText) as [h [t ->]].
    discriminate.
  - apply no_lf_map_lines; [|apply TextFacts.split_lf_no_lf].
    intros l Hl. destruct (Js.has_ink l); [|exact Hl].
    now rewrite JsFacts.all_chars_app, spaces_no_lf, Hl.
Qed.

Lemma ink_spaces (level : Z) : ink (Js.repeat "  " level) = EmptyString.
Proof.
  apply FormatterFacts.ink_blank, JsFacts.all_chars_repeat_nat. reflexivity.
Qed.

Lemma ink_lines_map (f : string -> string) (ls : list string) :
  (forall l, ink (f l) = ink l) ->
  ink (Js.join_lf (map f ls)) = ink (Js.join_lf ls).
Proof.
  intros Hf. rewrite !TextFacts.ink_join.
  induction ls as [|l ls IH]; simpl; [reflexivity|]. now rewrite Hf, IH.
Qed.

(** X19. Indenting the formatted text changes white space only, and at a
    level of zero or below it changes nothing. *)
Theorem indentPrettierOutput_adds_white_space_only :
  forall (formattedText : string) (level : Z),
    ink (indentPrettierOutput formattedText level) = ink formattedText
    /\ ((level <= 0)%Z ->
        indentPrettierOutput formattedText level = formattedText).
Proof.
  intros formattedText level. unfold indentPrettierOutput. split.
  - rewrite ink_lines_map; [now rewrite TextFacts.join_split|].
    intros l. destruct (Js.has_ink l); [|reflexivity].
    now rewrite FormatterFacts.ink_app, ink_spaces.
  - intros Hlevel.
    replace (Js.repeat "  " level) with EmptyString
      by (unfold Js.repeat; destruct level; try reflexivity; lia).
    rewrite <- (TextFacts.join_split formattedText) at 2. f_equal.
    induction (Js.split_lf formattedText) as [|l ls IH]; [reflexivity|].
    cbn [map]. f_equal; [now destruct (Js.has_ink l) | exact IH].
Qed.

Lemma indentPrettierOutput_adds_white_space_only_witness :
  indentPrettierOutput ("a {" ++ single ++ "}") 0 = ("a {" ++ single ++ "}")%string.
Proof.
  apply (proj2 (indentPrettierOutput_adds_white_space_only
                  ("a {" ++ single ++ "}") 0)).
  discriminate.
Defined.

Lemma indent_last_line_lines (indent : string) (level : Z) (v : string) :
  Js.all_chars Js.is_blank indent = true ->
  (1 <? List.length (Js.split_lf v))%nat = true ->
  Js.split_lf (indent_last_line indent level v)
  = removelast (Js.split_lf v)
      ++ [(Js.repeat indent (level - 1)
           ++ Js.trim (last (Js.split_lf v) EmptyString))%string].
Proof.
  intros Hind Hlen. unfold indent_last_line. rewrite Hlen.
  pose proof (TextFacts.split_lf_no_lf v) as Hall.
  apply TextFacts.split_join.
  - destruct (removelast (Js.split_lf v)); discriminate.
  - apply Forall_app. split; [now apply Forall_removelast|].
    constructor; [|constructor].
    rewrite JsFacts.all_chars_app. apply andb_true_iff. split.
    + apply JsFacts.all_chars_repeat_nat, TextFacts.blank_no_lf, Hind.
    + unfold Js.trim.
      apply TextFacts.all_chars_drop_while_end,
            TextFacts.all_chars_drop_while.
      now apply Forall_last.
Qed.

(** Indenting the last line of a comment forgets what an earlier
    indentation did to it. *)
Lemma indent_last_line_again (indent : string) (level level' : Z)
    (v : string) :
  Js.all_chars Js.is_blank indent = true ->
  indent_last_line indent level' (indent_last_line indent level v)
    = indent_last_line indent level' v.
Proof.
  intros Hind.
  destruct (1 <? List.length (Js.split_lf v))%nat eqn:Hlen;
    [|unfold indent_last_line at 2; now rewrite Hlen].
  assert (Hne : Js.split_lf v <> [])
    by (destruct (Js.split_lf v); [discriminate Hlen | discriminate]).
  unfold indent_last_line at 1.
  rewrite (indent_last_line_lines indent level v Hind Hlen).
  rewrite length_removelast_snoc by exact Hne. rewrite Hlen.
  rewrite removelast_last, last_last.
  rewrite TextFacts.trim_after_space
    by (apply JsFacts.all_chars_repeat_nat, TextFacts.blank_is_space, Hind).
  unfold indent_last_line. now rewrite Hlen.
Qed.

Lemma indent_last_line_ink (indent : string) (level : Z) (v : string) :
  Js.all_chars Js.is_blank indent = true ->
  ink (indent_last_line indent level v) = ink v.
Proof.
  intros Hind. unfold indent_last_line.
  destruct (1 <? List.length (Js.split_lf v))%nat eqn:Hlen; [|reflexivity].
  assert (Hne : Js.split_lf v <> [])
    by (destruct (Js.split_lf v); [discriminate Hlen | discriminate]).
  rewrite <- (TextFacts.join_split v) at 3.
  rewrite (app_removelast_last EmptyString Hne) at 3.
  rewrite !TextFacts.ink_join, !fold_right_app. f_equal. simpl.
  rewrite FormatterFacts.ink_app, TextFacts.ink_trim.
  rewrite (FormatterFacts.ink_blank (Js.repeat indent (level - 1)));
    [reflexivity|].
  apply JsFacts.all_chars_repeat_nat, TextFacts.blank_is_space, Hind.
Qed.

(** X20. The visitor's care for a comment of several lines: only white
    space changes in it, all its lines but the last are left as they are,
    and doing it again, at the same or another level, gives what doing it
    once at that level gives; it is stable.  Nodes that are no comments,
    and the children of any node, are not touched. *)
Theorem comment_indentation_stable :
  forall (settings : Settings) (level level' : Z) (node : Node),
    let indent := indent_of settings in
    let node' := indent_comment indent level node in
    indent_comment indent level' node' = indent_comment indent level' node
    /\ indent_comment indent level node' = node'
    /\ option_map ink (value node') = option_map ink (value node)
    /\ option_map (fun v => removelast (Js.split_lf v)) (value node')
       = option_map (fun v => removelast (Js.split_lf v)) (value node)
    /\ children node' = children node
    /\ (type node <> comment -> node' = node).
Proof.
  intros settings level level' node indent node'.
  pose proof (TextFacts.indent_of_blanks settings) as Hind. fold indent in Hind.
  assert (Hagain : forall l,
            indent_comment indent l node' = indent_comment indent l node).
  { intros l. subst node'. unfold indent_comment.
    destruct node as [[| | |v|] ch d]; try reflexivity.
    cbn [kind set_kind children indentLevel].
    now rewrite indent_last_line_again. }
  split; [apply Hagain | split; [apply Hagain|]].
  subst node'. unfold indent_comment, value, type.
  destruct node as [[| | |v|] ch d]; cbn [kind set_kind children option_map];
    repeat split; try reflexivity; try (intros H; now elim H).
  - f_equal. now apply indent_last_line_ink.
  - f_equal. unfold indent_last_line at 1.
    destruct (1 <? List.length (Js.split_lf v))%nat eqn:Hlen; [|reflexivity].
    fold (indent_last_line indent level v).
    pose proof (indent_last_line_lines indent level v Hind Hlen) as H.
    unfold indent_last_line in H. rewrite Hlen in H. rewrite H.
    apply removelast_last.
Qed.

End FormatterText.

Lemma comment_indentation_stable_witness :
  Formatter.indent_comment "  " 2
    (Formatter.indent_comment "  " 5
       (Formatter.Comment ("a" ++ Formatter.single ++ "     b ")))
  = Formatter.indent_comment "  " 2
      (Formatter.Comment ("a" ++ Formatter.single ++ "     b ")).
Proof.
  exact (proj1 (FormatterText.comment_indentation_stable
                  Formatter.two_spaces 5 2
                  (Formatter.Comment
                     ("a" ++ Formatter.single ++ "     b ")))).
Defined.

(* ================================================================== *)
(** ** More of the formatter: the visitor and the pass *)
(* ================================================================== *)

Module FormatterMore.
Import Formatter.

Section EngineMore.

Variable voids : list string.
Variable sensitive : list string.
Variable minify : Node -> Node.
Variable prettierOpts_parser : bool.
Variable prettier_format : Parser -> string -> option string.

Abbreviation visitor :=
  (visitor voids sensitive prettierOpts_parser prettier_format).
Abbreviation one :=
  (one voids sensitive prettierOpts_parser prettier_format).
Abbreviation visit :=
  (visit voids sensitive prettierOpts_parser prettier_format).
Abbreviation transform :=
  (transform voids sensitive minify prettierOpts_parser prettier_format).
Abbreviation prettierEmbeddedContent :=
  (prettierEmbeddedContent prettierOpts_parser prettier_format).
Abbreviation ignore := (ignore sensitive).
Abbreviation isVoid := (isVoid voids).
Abbreviation rewrite_children := (rewrite_children voids).
Abbreviation skip_sensitive :=
  (skip_sensitive prettierOpts_parser prettier_format).
Abbreviation asked := (asked prettierOpts_parser).

(** *** When the pass fails *)

Lemma style_parser_chosen node : In (style_parser node) chosen_parsers.
Proof.
  unfold style_parser, chosen_parsers.
  repeat match goal with
         | |- context [String.eqb ?a ?b] => destruct (String.eqb a b)
         end; simpl; tauto.
Qed.

Lemma script_parser_chosen node : In (script_parser node) chosen_parsers.
Proof.
  unfold script_parser, chosen_parsers.
  destruct (Js.includes _ _); [simpl; tauto|].
  destruct (String.eqb _ _); [simpl; tauto|].
  destruct (_ || _); simpl; tauto.
Qed.

Lemma prettierEmbeddedContent_thrown node level indent what :
  prettierEmbeddedContent node level indent = Thrown what ->
  what = "prettier.format"
  /\ exists parser content,
       asked parser /\ prettier_format parser content = None.
Proof.
  unfold prettierEmbeddedContent.
  destruct (isElementNamed ["style"] node).
  { destruct (prettier_format _ _) eqn:E; [discriminate|].
    intros H; injection H as <-. split; [reflexivity|].
    exists (parser_option prettierOpts_parser (style_parser node)),
      (toString node).
    split; [|exact E]. exists (style_parser node).
    split; [apply style_parser_chosen | reflexivity]. }
  destruct (isElementNamed ["script"] node); [|discriminate].
  destruct (prettier_format _ _) eqn:E; [discriminate|].
  intros H; injection H as <-. split; [reflexivity|].
  exists (parser_option prettierOpts_parser (script_parser node)),
    (toString node).
  split; [|exact E]. exists (script_parser node).
  split; [apply script_parser_chosen | reflexivity].
Qed.

Lemma visitor_thrown indent usePrettier indentInitial node index parents
    what :
  visitor indent usePrettier indentInitial node index parents = Thrown what ->
  usePrettier = true
  /\ what = "prettier.format"
  /\ exists parser content,
       asked parser /\ prettier_format parser content = None.
Proof.
  unfold Formatter.visitor.
  destruct (ignore_flag node index parents); [discriminate|].
  destruct (ignore _); [|discriminate].
  unfold Formatter.skip_sensitive.
  destruct (0 <? _)%nat; [|discriminate].
  destruct usePrettier; [|discriminate].
  destruct (negb _); [|discriminate]. cbn [andb].
  destruct (prettierEmbeddedContent _ _ _) eqn:E; cbn [bind];
    try discriminate.
  intros H; injection H as <-.
  split; [reflexivity|]. eapply prettierEmbeddedContent_thrown, E.
Qed.

Lemma all_from_thrown (visit_child : Node -> nat -> Outcome (Node * Action))
    (what : string) (P : Prop) (rest : list Node) :
  (forall c i, In c rest -> visit_child c i = Thrown what -> P) ->
  forall index next,
    all_from visit_child index next rest = Thrown what -> P.
Proof.
  induction rest as [|c rest IH]; intros Hv index next;
    cbn [all_from]; [discriminate|].
  assert (Hrest : forall i n,
            all_from visit_child i n rest = Thrown what -> P)
    by (intros i n; apply IH; intros x j Hx; apply Hv; now right).
  destruct (index <? next)%nat.
  - destruct (all_from visit_child (S index) next rest) eqn:E; cbn [bind];
      try discriminate.
    intros H; injection H as <-. eapply Hrest, E.
  - destruct (visit_child c index) as [r| |] eqn:Ev; cbn [bind];
      try discriminate.
    + destruct (all_from visit_child (S index) _ rest) eqn:E; cbn [bind];
        try discriminate.
      intros H; injection H as <-. eapply Hrest, E.
    + intros H; injection H as <-. eapply Hv; [now left | exact Ev].
Qed.

Lemma one_thrown indent usePrettier indentInitial what (fuel : nat) :
  forall node index parents,
    one fuel indent usePrettier indentInitial node index parents
      = Thrown what ->
    usePrettier = true
    /\ what = "prettier.format"
    /\ exists parser content,
         asked parser /\ prettier_format parser content = None.
Proof.
  induction fuel as [|fuel IH]; intros node index parents; [discriminate|].
  cbn [Formatter.one].
  destruct (visitor indent usePrettier indentInitial node index parents)
    as [[node' result]| |] eqn:Ev; cbn [bind]; try discriminate.
  - destruct (children node') as [cs|]; [|discriminate].
    destruct result; try discriminate;
      destruct (all_from _ 0 0 cs) eqn:E; cbn [bind]; try discriminate;
      intros H; injection H as <-;
      (eapply all_from_thrown; [|exact E]); intros c i _ Hc; eapply IH, Hc.
  - intros H; injection H as <-. eapply visitor_thrown, Ev.
Qed.

(** *** What the pass asks of prettier *)

Section Formatters.

(** A second [prettier.format] that answers as the first whenever it is
    handed a parser the formatter can hand it. *)
Variable prettier_format' : Parser -> string -> option string.
Hypothesis same_answers :
  forall parser content,
    asked parser ->
    prettier_format' parser content = prettier_format parser content.

Lemma prettierEmbeddedContent_asks node level indent :
  Formatter.prettierEmbeddedContent prettierOpts_parser prettier_format'
    node level indent
  = prettierEmbeddedContent node level indent.
Proof.
  unfold Formatter.prettierEmbeddedContent.
  destruct (isElementNamed ["style"] node).
  { rewrite same_answers; [reflexivity|].
    exists (style_parser node).
    split; [apply style_parser_chosen | reflexivity]. }
  destruct (isElementNamed ["script"] node); [|reflexivity].
  rewrite same_answers; [reflexivity|].
  exists (script_parser node).
  split; [apply script_parser_chosen | reflexivity].
Qed.

Lemma visitor_asks indent usePrettier indentInitial node index parents :
  Formatter.visitor voids sensitive prettierOpts_parser prettier_format'
    indent usePrettier indentInitial node index parents
  = visitor indent usePrettier indentInitial node index parents.
Proof.
  unfold Formatter.visitor, Formatter.skip_sensitive.
  now rewrite prettierEmbeddedContent_asks.
Qed.

Lemma all_from_ext (f g : Node -> nat -> Outcome (Node * Action))
    (rest : list Node) :
  (forall c i, f c i = g c i) ->
  forall index next,
    all_from f index next rest = all_from g index next rest.
Proof.
  intros Hfg. induction rest as [|c rest IH]; intros index next;
    cbn [all_from]; [reflexivity|].
  rewrite Hfg. destruct (index <? next)%nat.
  - now rewrite IH.
  - destruct (g c index) as [[c' r]| |]; cbn [bind]; try reflexivity.
    now rewrite IH.
Qed.

Lemma one_asks indent usePrettier indentInitial (fuel : nat) :
  forall node index parents,
    Formatter.one voids sensitive prettierOpts_parser prettier_format'
      fuel indent usePrettier indentInitial node index parents
    = one fuel indent usePrettier indentInitial node index parents.
Proof.
  induction fuel as [|fuel IH]; intros node index parents; [reflexivity|].
  cbn [Formatter.one]. rewrite visitor_asks.
  destruct (visitor indent usePrettier indentInitial node index parents)
    as [[node' result]| |]; cbn [bind]; try reflexivity.
  destruct (children node') as [cs|]; [|reflexivity].
  destruct result; try reflexivity;
    (rewrite (all_from_ext _ _ cs
                (fun c i => IH c (Some i) (parents ++ [node'])));
     reflexivity).
Qed.

End Formatters.

(** X11. The pass over a tree always comes to an end: it answers the
    formatted tree, unless prettier is enabled and [prettier.format]
    throws on the content of some [style] or [script], and then the pass
    ends with that exception.  The [parser] option the pass hands to
    [prettier.format] is the parser of [settings.prettier] when that has
    one, and one of six names otherwise: the call that throws was handed
    such a parser, and what [prettier.format] answers for any other
    parser has no bearing on the result of the pass. *)
Theorem transform_ends_unless_prettier_throws :
  forall (options : Settings) (tree : Node),
    ((exists formatted, transform options tree = Done formatted)
     \/ (transform options tree = Thrown "prettier.format"
         /\ usePrettier_of options = true
         /\ exists parser content,
              asked parser /\ prettier_format parser content = None))
    /\ (forall parser, asked parser ->
          if prettierOpts_parser then parser = Configured
          else exists name,
                 In name ["css"; "scss"; "less"; "json"; "typescript";
                          "babylon"]
                 /\ parser = Named name)
    /\ (forall prettier_format' : Parser -> string -> option string,
          (forall parser content,
             asked parser ->
             prettier_format' parser content
             = prettier_format parser content) ->
          Formatter.transform voids sensitive minify prettierOpts_parser
            prettier_format' options tree
          = transform options tree).
Proof.
  intros options tree. split; [|split].
  - pose proof (FormatterFacts.transform_ends voids sensitive minify
                  prettierOpts_parser prettier_format options tree) as Hends.
    unfold Formatter.transform, Formatter.visit in *.
    destruct (Formatter.one _ _ _ _ _ _ _ _ _ _) as [r|what|] eqn:E;
      cbn [bind] in *.
    + left. eauto.
    + right. apply one_thrown in E. destruct E as [Hp [-> Hf]]. auto.
    + now elim Hends.
  - intros parser [name [Hin ->]]. unfold parser_option.
    destruct prettierOpts_parser; [reflexivity|]. now exists name.
  - intros prettier_format' Hsame.
    unfold Formatter.transform, Formatter.visit.
    now rewrite (one_asks prettier_format' Hsame).
Qed.

(** *** Text on one line, text on several lines *)

Lemma includes_single_no_lf (s : string) :
  Js.includes single s = false <-> TextFacts.no_lf s = true.
Proof.
  induction s as [|c s IH]; [split; reflexivity|].
  cbn [Js.includes Js.all_chars]. unfold single at 1. cbn [prefix].
  destruct (ascii_dec Js.LF c) as [<-|Hc].
  - split; [destruct s; discriminate | discriminate].
  - assert (E : Js.is_lf c = false) by (apply Ascii.eqb_neq; congruence).
    rewrite E. exact IH.
Qed.

Lemma after_each_lf_no_lf (ins s : string) :
  TextFacts.no_lf s = true -> Js.after_each_lf ins s = s.
Proof.
  induction s as [|c s IH]; [reflexivity|]. simpl.
  intros H. apply andb_true_iff in H. destruct H as [Hc Hs].
  apply negb_true_iff in Hc. now rewrite Hc, (IH Hs).
Qed.

Lemma indent_text_one_line indent level c v :
  kind c = KText v ->
  Js.includes single v = false ->
  kind (indent_text indent level c) = KText (Js.strip_blanks v).
Proof.
  intros Hk Hlf. unfold indent_text. rewrite Hk. cbn [kind set_kind].
  f_equal. apply after_each_lf_no_lf. unfold Js.strip_blanks.
  apply TextFacts.all_chars_drop_while_end, TextFacts.all_chars_drop_while.
  now apply includes_single_no_lf.
Qed.

Lemma indent_text_type indent level c :
  type (indent_text indent level c) = type c.
Proof.
  unfold indent_text, type. destruct (kind c) eqn:E; rewrite ?E; reflexivity.
Qed.

Lemma rebuild_texts node children indent level rest :
  NodeType_eqb (type node) root = false ->
  containsOnlyTextNodes children = true ->
  forallb (fun c => is_ text (Some c)) rest = true ->
  forall index prev,
    is_ comment prev = false ->
    rebuild node children indent level false index prev rest
      = map (setData level) rest.
Proof.
  intros Hroot Honly. induction rest as [|c rest IH]; [reflexivity|].
  intros Hall index prev Hprev. cbn [forallb] in Hall.
  apply andb_true_iff in Hall. destruct Hall as [Hc Hall].
  cbn [rebuild map].
  assert (Hbreak :
    break_before node children (setData level c) index prev false = None).
  { unfold break_before, isElementAfterConditionalComment,
      isConCommentFollowedByComment, beforeChildNodeAddedHook,
      handleTemplateExpression.
    rewrite Hprev, Honly, Hroot. cbn [andb orb].
    change (is_ text (Some (setData level c))) with (is_ text (Some c)).
    rewrite Hc.
    replace (isElementNamed ["script"; "style"] (setData level c))
      with false.
    - destruct (isTemplateExpression _); cbn [andb orb negb];
        rewrite ?andb_false_r; reflexivity.
    - unfold isElementNamed. cbn [kind setData]. unfold is_, type in Hc.
      destruct (kind c); try discriminate. reflexivity. }
  rewrite Hbreak. cbn [app]. f_equal. apply IH; [exact Hall|].
  unfold is_ in *. change (type (setData level c)) with (type c).
  destruct (type c); try discriminate. reflexivity.
Qed.

Lemma last_is_text level (l : list Node) :
  l <> [] ->
  forallb (fun c => is_ text (Some c)) l = true ->
  is_ text (last (map (fun c => Some (setData level c)) l) None) = true.
Proof.
  induction l as [|c l IH]; intros Hne Hall; [now elim Hne|].
  cbn [forallb] in Hall. apply andb_true_iff in Hall.
  destruct Hall as [Hc Hall]. destruct l as [|c' l]; [exact Hc|].
  change (last (map (fun c => Some (setData level c)) (c :: c' :: l)) None)
    with (last (map (fun c => Some (setData level c)) (c' :: l)) None).
  apply IH; [discriminate | exact Hall].
Qed.

Lemma forallb_text_map (f : Node -> Node) (l : list Node) :
  (forall c, type (f c) = type c) ->
  forallb (fun c => is_ text (Some c)) (map f l)
    = forallb (fun c => is_ text (Some c)) l.
Proof.
  intros Hf. induction l as [|c l IH]; [reflexivity|]. cbn [map forallb].
  unfold is_ at 1 3. now rewrite Hf, IH.
Qed.

(** X12. An element that holds text only, none of it with a linefeed, is
    kept on one line: outside white-space sensitive subtrees the visitor
    gives it back its children, annotated, with no break before, between
    or after them, and all it does to their text is to take the blanks
    off both ends. *)
Theorem text_only_element_stays_inline :
  forall (indent : string) (usePrettier indentInitial : bool) (node : Node)
         (index : option nat) (parents : list Node),
    type node = element ->
    ignore (parents ++ [node]) = false ->
    forallb (fun c => is_ text (Some c)) (children_or_empty node) = true ->
    existsb has_linefeed (children_or_empty node) = false ->
    let level := level_of indentInitial parents in
    visitor indent usePrettier indentInitial node index parents
    = Done (set_children
              (map (fun c => setData level (indent_text indent level c))
                 (children_or_empty node))
              node,
            CONTINUE)
    /\ (forall c v,
          In c (children_or_empty node) -> kind c = KText v ->
          kind (indent_text indent level c) = KText (Js.strip_blanks v)).
Proof.
  intros indent usePrettier indentInitial node index parents Hel Hign Hall
    Hlf level.
  assert (Hnc : type node <> comment) by (rewrite Hel; discriminate).
  assert (Hroot : NodeType_eqb (type node) root = false)
    by now rewrite Hel.
  split.
  - rewrite FormatterFacts.visitor_not_sensitive by exact Hign.
    rewrite FormatterFacts.ignore_flag_not_comment by exact Hnc.
    fold level. rewrite FormatterFacts.indent_comment_other by exact Hnc.
    do 2 f_equal. unfold Formatter.rewrite_children.
    rewrite Hroot, Hlf. cbn [negb andb].
    set (cs := map (indent_text indent level) (children_or_empty node)).
    assert (Hcs : forallb (fun c => is_ text (Some c)) cs = true).
    { subst cs. rewrite forallb_text_map; [exact Hall|].
      apply indent_text_type. }
    destruct cs as [|c0 cs0] eqn:Ecs.
    + cbn. destruct (children_or_empty node); [reflexivity | discriminate].
    + rewrite <- Ecs in *.
      assert (Hne : cs <> []) by (rewrite Ecs; discriminate).
      assert (Honly : containsOnlyTextNodes cs = true)
        by (unfold containsOnlyTextNodes; rewrite Ecs; rewrite <- Ecs;
            exact Hcs).
      rewrite (rebuild_texts node cs indent level cs Hroot Honly Hcs 0 None
                 eq_refl).
      assert (Hhook :
        afterChildNodesAddedHook voids
          (set_children (map (setData level) cs) node)
          (last (map (fun c => Some (setData level c)) cs) None) = false).
      { unfold afterChildNodesAddedHook.
        cbn [children_or_empty children set_children].
        assert (Honly' :
          containsOnlyTextNodes (map (setData level) cs) = true).
        { unfold containsOnlyTextNodes.
          rewrite forallb_text_map by reflexivity. rewrite Hcs.
          rewrite Ecs. reflexivity. }
        rewrite Honly', (last_is_text level cs Hne Hcs).
        cbn [negb]. now rewrite !andb_false_r. }
      rewrite Hhook. cbn [orb]. subst cs. now rewrite map_map.
  - intros c v Hin Hk. apply indent_text_one_line; [exact Hk|].
    destruct (Js.includes single v) eqn:E; [|reflexivity].
    rewrite <- Hlf. symmetry. apply existsb_exists. exists c.
    split; [exact Hin|]. unfold has_linefeed. now rewrite Hk.
Qed.

Lemma break_before_first_newline node children child :
  break_before node children child 0 None true = Some single.
Proof.
  unfold break_before, isElementAfterConditionalComment,
    isConCommentFollowedByComment.
  cbn [is_ andb orb Nat.eqb]. now rewrite orb_true_r.
Qed.

(** X13. As soon as one text child of an element holds a linefeed, the
    content of the element goes on lines of its own: outside white-space
    sensitive subtrees the new child list starts with a break of one
    linefeed and the indentation of the level, before the first child,
    and ends with the closing break. *)
Theorem text_with_linefeed_breaks_content :
  forall (indent : string) (usePrettier indentInitial : bool) (node : Node)
         (index : option nat) (parents : list Node) (c : Node)
         (rest : list Node),
    type node = element ->
    ignore (parents ++ [node]) = false ->
    children node = Some (c :: rest) ->
    existsb has_linefeed (c :: rest) = true ->
    let level := level_of indentInitial parents in
    exists middle,
      visitor indent usePrettier indentInitial node index parents
      = Done (set_children
                (text_node (single ++ Js.repeat indent level)
                   :: setData level (indent_text indent level c)
                   :: middle ++ [closing_break indent level])
                node,
              CONTINUE).
Proof.
  intros indent usePrettier indentInitial node index parents c rest Hel Hign
    Hcs Hlf level.
  assert (Hnc : type node <> comment) by (rewrite Hel; discriminate).
  rewrite FormatterFacts.visitor_not_sensitive by exact Hign.
  rewrite FormatterFacts.ignore_flag_not_comment by exact Hnc.
  fold level. rewrite FormatterFacts.indent_comment_other by exact Hnc.
  unfold Formatter.rewrite_children, children_or_empty.
  rewrite Hcs, Hel, Hlf. cbn [NodeType_eqb negb andb map rebuild].
  rewrite break_before_first_newline, orb_true_r.
  eexists. cbn [app]. reflexivity.
Qed.

(** *** The top of the tree *)

(** X14. Under the root the first child is not put on a line of its own:
    outside white-space sensitive subtrees the new child list of a root
    starts with its first child, unless that child is a template
    expression that does not start with a linefeed (and some child of the
    root is not text); then a break comes first.  The text under a root
    is not touched. *)
Theorem root_first_child_break :
  forall (indent : string) (usePrettier indentInitial : bool) (node : Node)
         (index : option nat) (parents : list Node) (c : Node)
         (rest : list Node),
    type node = root ->
    ignore (parents ++ [node]) = false ->
    children node = Some (c :: rest) ->
    let level := level_of indentInitial parents in
    exists node' tail,
      visitor indent usePrettier indentInitial node index parents
        = Done (node', CONTINUE)
      /\ children node'
         = Some ((if handleTemplateExpression c (c :: rest)
                  then [text_node (single ++ Js.repeat indent level)]
                  else [])
                 ++ setData level c :: tail).
Proof.
  intros indent usePrettier indentInitial node index parents c rest Hroot
    Hign Hcs level.
  assert (Hnc : type node <> comment) by (rewrite Hroot; discriminate).
  rewrite FormatterFacts.visitor_not_sensitive by exact Hign.
  rewrite FormatterFacts.ignore_flag_not_comment by exact Hnc.
  fold level. rewrite FormatterFacts.indent_comment_other by exact Hnc.
  assert (Hchildren : exists tail,
    children (rewrite_children indent level node)
    = Some ((if handleTemplateExpression c (c :: rest)
             then [text_node (single ++ Js.repeat indent level)]
             else [])
            ++ setData level c :: tail));
    [|destruct Hchildren as [tail Ht]; eexists _, tail;
      split; [reflexivity | exact Ht]].
  unfold Formatter.rewrite_children, children_or_empty.
  rewrite Hcs, Hroot. cbn [NodeType_eqb negb andb rebuild].
  assert (Hbreak :
    break_before node (c :: rest) (setData level c) 0 None false
    = if handleTemplateExpression c (c :: rest) then Some single else None).
  { unfold break_before, isElementAfterConditionalComment,
      isConCommentFollowedByComment, beforeChildNodeAddedHook.
    rewrite Hroot.
    change (handleTemplateExpression (setData level c) (c :: rest))
      with (handleTemplateExpression c (c :: rest)).
    cbn [is_ andb orb Nat.eqb negb NodeType_eqb].
    rewrite andb_false_r, orb_false_r.
    destruct (handleTemplateExpression c (c :: rest)); reflexivity. }
  rewrite Hbreak.
  destruct (handleTemplateExpression c (c :: rest)), (_ || _);
    eexists; cbn [children set_children app]; reflexivity.
Qed.

(** *** How many children a node gets *)

Lemma rebuild_length node children indent level newline rest :
  forall index prev,
    (List.length rest
       <= List.length (rebuild node children indent level newline index prev
                         rest)
       <= 2 * List.length rest)%nat.
Proof.
  induction rest as [|c rest IH]; intros index prev; [simpl; lia|].
  cbn [rebuild]. rewrite length_app. cbn [List.length].
  specialize (IH (S index) (Some (setData level c))).
  destruct (break_before _ _ _ _ _ _); simpl; lia.
Qed.

(** X16. The visitor puts at most one break before each child and at
    most one after the last: a node with [n] children gets between [n] and
    [2 n + 1] of them, and a node without children gets none, never
    a closing break alone. *)
Theorem rewritten_children_count :
  forall (indent : string) (level : Z) (node : Node),
    exists result,
      children (rewrite_children indent level node) = Some result
      /\ (List.length (children_or_empty node) <= List.length result
          <= 2 * List.length (children_or_empty node) + 1)%nat
      /\ (List.length (children_or_empty node) = 0%nat -> result = []).
Proof.
  intros indent level node. unfold Formatter.rewrite_children.
  set (cs := if NodeType_eqb (type node) root then _ else _).
  assert (Hlen : List.length cs = List.length (children_or_empty node))
    by (subst cs; destruct (NodeType_eqb _ _); [reflexivity | apply length_map]).
  set (nl := negb _ && _).
  pose proof (rebuild_length node cs indent level nl cs 0 None) as Hr.
  destruct (children_or_empty node) as [|c0 rest] eqn:Ecs.
  - destruct cs; [|discriminate]. subst nl. cbn.
    rewrite andb_false_r. cbn. exists []. repeat split; auto.
  - rewrite Hlen in Hr.
    destruct (_ || _); eexists; (split; [reflexivity|]);
      rewrite ?length_app; cbn [List.length] in *;
      (split; [lia | discriminate]).
Qed.

(** *** The end of the formatted tree *)

Lemma containsOnlyTextNodes_other (l : list Node) (x : Node) :
  In x l -> type x <> text -> containsOnlyTextNodes l = false.
Proof.
  intros Hin Hx. unfold containsOnlyTextNodes.
  destruct l as [|c l]; [reflexivity|].
  destruct (forallb _ (c :: l)) eqn:E; [|reflexivity].
  rewrite forallb_forall in E. specialize (E x Hin).
  unfold is_ in E. destruct (type x); try discriminate. now elim Hx.
Qed.

Lemma top_level_closing_break indent indentInitial :
  closing_break indent (level_of indentInitial []) = text_node single.
Proof. destruct indentInitial; reflexivity. Qed.

(** X15. A formatted tree ends with a linefeed.  When the pass is over a
    root that has a child that is not text, the last child of the
    formatted root is a text node that holds one linefeed and nothing
    else. *)
Theorem formatted_tree_ends_with_linefeed :
  forall (options : Settings) (tree formatted c : Node),
    transform options tree = Done formatted ->
    type (minify tree) = root ->
    In c (children_or_empty (minify tree)) ->
    type c <> text ->
    exists before final,
      children formatted = Some (before ++ [final])
      /\ kind final = KText single.
Proof.
  intros options tree formatted c H Hroot Hin Hc.
  unfold Formatter.transform, Formatter.visit in H.
  set (indent := indent_of options) in *.
  set (indentInitial := Formatter.isPageMode tree) in *.
  set (top := minify tree) in *.
  destruct (Formatter.one _ _ _ _ _ _ _ _ _ _) as [[node' result]| |] eqn:E;
    cbn [bind] in H; try discriminate.
  injection H as <-. cbn [fst].
  assert (Hnc : type top <> comment) by (rewrite Hroot; discriminate).
  assert (Hign : ignore ([] ++ [top]) = false).
  { unfold Formatter.ignore, tagName, type in *. cbn.
    destruct (kind top); try discriminate. reflexivity. }
  pose proof (FormatterFacts.visitor_not_sensitive voids sensitive
                prettierOpts_parser prettier_format indent (usePrettier_of options)
                indentInitial top None [] Hign) as Hv.
  rewrite FormatterFacts.ignore_flag_not_comment in Hv by exact Hnc.
  rewrite FormatterFacts.indent_comment_other in Hv by exact Hnc.
  assert (result = CONTINUE) as ->.
  { apply FormatterFacts.one_result in E. destruct E as [node1 [Hv1 _]].
    rewrite Hv in Hv1. now injection Hv1 as _ <-. }
  apply FormatterFacts.one_walks_children in E.
  destruct E as [rebuilt [walked [Hreb [Hwalked Hsurv]]]].
  rewrite FormatterFacts.indent_comment_other in Hreb by exact Hnc.
  assert (Hclosed : exists result,
    rebuilt = result ++ [text_node single]).
  { revert Hreb. unfold Formatter.rewrite_children.
    rewrite Hroot. cbn [NodeType_eqb negb andb].
    set (result := rebuild _ _ _ _ _ _ _ _).
    assert (Hres : In (setData (level_of indentInitial []) c) result).
    { eapply FormatterFacts.Interleaved_In;
        [apply FormatterFacts.rebuild_interleaved | now apply in_map]. }
    assert (Hhook :
      afterChildNodesAddedHook voids (set_children result top)
        (last (map (fun c => Some (setData (level_of indentInitial []) c))
                 (children_or_empty top)) None) = true).
    { unfold afterChildNodesAddedHook.
      cbn [children_or_empty children set_children].
      rewrite (containsOnlyTextNodes_other result _ Hres) by exact Hc.
      replace (Formatter.isVoid voids (set_children result top)) with false
        by (unfold Formatter.isVoid, tagName, type in *; cbn;
            destruct (kind top); try discriminate; reflexivity).
      destruct result; [destruct Hres | reflexivity]. }
    rewrite Hhook. cbn [orb children set_children].
    rewrite top_level_closing_break. intros Hreb; injection Hreb as <-.
    eauto. }
  destruct Hclosed as [result ->].
  apply Forall2_app_inv_l in Hsurv.
  destruct Hsurv as [before [rest [_ [Hrest ->]]]].
  inversion Hrest as [|? final ? rest' Hfinal Hnil]; subst.
  inversion Hnil; subst.
  exists before, final. split; [exact Hwalked|].
  destruct Hfinal as [_ [Hk _]]. apply Hk. discriminate.
Qed.

(** *** The prettyhtml-ignore flag *)

Lemma firstn_nth_error {A} (n : nat) (l l' : list A) (i : nat) :
  firstn n l = firstn n l' -> (i < n)%nat -> nth_error l i = nth_error l' i.
Proof.
  revert l l' i. induction n as [|n IH]; intros l l' i H Hi; [lia|].
  destruct l as [|a l], l' as [|a' l']; try discriminate; [reflexivity|].
  cbn [firstn] in H. injection H as <- H.
  destruct i as [|i]; [reflexivity|]. cbn [nth_error]. apply IH; [exact H|lia].
Qed.

(** While the traversal is on its way to the index a visitor gave it, it
    leaves the children as they are, up to and with the first element. *)
Lemma all_from_skips (visit_child : Node -> nat -> Outcome (Node * Action))
    (rest : list Node) :
  forall index k rest',
    first_element rest = Some k ->
    all_from visit_child index (index + k + 1) rest = Done rest' ->
    firstn (S k) rest' = firstn (S k) rest.
Proof.
  induction rest as [|c rest IH]; intros index k rest' Hk; [discriminate|].
  cbn [all_from].
  replace (index <? index + k + 1)%nat with true
    by (symmetry; apply Nat.ltb_lt; lia).
  destruct (all_from visit_child (S index) (index + k + 1) rest)
    as [rest''| |] eqn:E; cbn [bind]; try discriminate.
  intros H; injection H as <-. cbn [first_element] in Hk.
  destruct (isElement c); [injection Hk as <-; reflexivity|].
  destruct (first_element rest) as [k'|]; [|discriminate].
  injection Hk as <-. cbn [firstn]. f_equal.
  apply (IH (S index) k' rest'' eq_refl).
  now replace (S index + k' + 1)%nat with (index + S k' + 1)%nat by lia.
Qed.

Lemma skipn_tail {A} (n : nat) (l : list A) (h : A) (t : list A) :
  skipn n l = h :: t -> skipn (S n) l = t.
Proof.
  revert l. induction n as [|n IH]; intros l H.
  - simpl in H. subst l. reflexivity.
  - destruct l as [|a l]; [discriminate|]. cbn [skipn] in *. now apply IH.
Qed.

Lemma comment_not_element (c : Node) (v : string) :
  kind c = KComment v -> isElement c = false.
Proof. unfold isElement, type. now intros ->. Qed.

Section Flag.

Variable indent : string.
Variable usePrettier indentInitial : bool.
Variable fuel : nat.
Variable parents : list Node.
Variable parent : Node.
Variable cs : list Node.
Hypothesis parent_children : children parent = Some cs.

Abbreviation visit_child :=
  (fun child i =>
     one fuel indent usePrettier indentInitial child (Some i)
       (parents ++ [parent])).

Lemma ignore_flag_target c i next :
  ignore_flag c (Some i) (parents ++ [parent]) = Some next ->
  exists v k,
    kind c = KComment v
    /\ first_element (skipn i cs) = Some k
    /\ next = (i + k + 1)%nat.
Proof.
  unfold ignore_flag. destruct (kind c) as [| | |v|]; try discriminate.
  destruct (Js.includes _ _); [|discriminate].
  rewrite map_app. cbn [map]. rewrite last_last.
  unfold children_or_empty. rewrite parent_children.
  destruct (first_element (skipn i cs)) as [k|]; [|discriminate].
  intros H; injection H as <-. eauto.
Qed.

Lemma visit_goto_target c i r next :
  visit_child c i = Done r -> snd r = GOTO next ->
  exists v k,
    kind c = KComment v
    /\ first_element (skipn i cs) = Some k
    /\ next = (i + k + 1)%nat.
Proof.
  destruct r as [c' a]. cbn [snd]. intros H ->.
  apply FormatterFacts.one_result in H. destruct H as [node1 [Hv _]].
  apply FormatterFacts.visitor_cases in Hv.
  destruct Hv as [[k [Hk Hv]] | [[_ [_ [_ Hv]]] | [_ [_ Hv]]]];
    try discriminate.
  injection Hv as _ <-. now apply ignore_flag_target.
Qed.

Lemma visit_flag_goto c i v k r :
  kind c = KComment v ->
  Js.includes "prettyhtml-ignore" v = true ->
  first_element (skipn i cs) = Some k ->
  visit_child c i = Done r ->
  snd r = GOTO (i + k + 1).
Proof.
  intros Hk Hflag Hfirst H. destruct r as [c' a]. cbn [snd].
  apply FormatterFacts.one_result in H. destruct H as [node1 [Hv _]].
  revert Hv. unfold Formatter.visitor, ignore_flag.
  rewrite Hk, Hflag, map_app. cbn [map]. rewrite last_last.
  unfold children_or_empty. rewrite parent_children, Hfirst.
  now intros H; injection H as _ <-.
Qed.

(** The traversal of the children of [parent], from any place on: the
    nodes that follow a prettyhtml-ignore comment, up to and with the
    first element, are left as they are. *)
Lemma all_from_flag (rest : list Node) :
  forall index next rest',
    rest = skipn index cs ->
    (next <= index)%nat
    \/ (exists k, first_element rest = Some k /\ next = (index + k + 1)%nat) ->
    all_from visit_child index next rest = Done rest' ->
    forall i c v k m,
      nth_error rest i = Some c ->
      kind c = KComment v ->
      Js.includes "prettyhtml-ignore" v = true ->
      first_element (skipn i rest) = Some k ->
      (1 <= m <= k)%nat ->
      nth_error rest' (i + m) = nth_error rest (i + m).
Proof.
  induction rest as [|h rest IH];
    intros index next rest' Hrest Hinv Hall i c v k m Hc Hk Hflag Hfirst Hm;
    [destruct i; discriminate|].
  pose proof (skipn_tail index cs h rest (eq_sym Hrest)) as Hrest1.
  symmetry in Hrest1.
  cbn [all_from] in Hall.
  (* The index the traversal goes on with, and what it leaves of [rest]. *)
  assert (Hstep : exists h' next' rest'',
    rest' = h' :: rest''
    /\ all_from visit_child (S index) next' rest = Done rest''
    /\ ((next' <= S index)%nat
        \/ exists k', first_element rest = Some k'
                      /\ next' = (S index + k' + 1)%nat)
    /\ (i = 0%nat -> exists k', first_element rest = Some k'
                                /\ k = S k'
                                /\ next' = (S index + k' + 1)%nat)).
  { destruct (index <? next)%nat eqn:Elt.
    - apply Nat.ltb_lt in Elt.
      destruct Hinv as [Hle | [k0 [Hk0 ->]]]; [lia|].
      destruct (all_from visit_child (S index) _ rest) as [rest''| |] eqn:E;
        cbn [bind] in Hall; try discriminate.
      injection Hall as <-. exists h, (index + k0 + 1)%nat, rest''.
      split; [reflexivity | split; [exact E|]].
      cbn [first_element] in Hk0.
      destruct (isElement h) eqn:Eh.
      + injection Hk0 as <-. split; [left; lia|].
        intros ->. cbn [nth_error] in Hc. injection Hc as ->.
        rewrite (comment_not_element c v Hk) in Eh. discriminate.
      + destruct (first_element rest) as [k'|] eqn:Ek'; [|discriminate].
        injection Hk0 as <-. split; [right; exists k'; split; [auto|lia]|].
        intros ->. cbn [skipn first_element] in Hfirst.
        rewrite Eh, Ek' in Hfirst. injection Hfirst as <-.
        exists k'. repeat split; lia.
    - destruct (visit_child h index) as [r| |] eqn:Ev; cbn [bind] in Hall;
        try discriminate.
      destruct (all_from visit_child (S index) _ rest) as [rest''| |] eqn:E;
        cbn [bind] in Hall; try discriminate.
      injection Hall as <-. eexists (fst r), _, rest''.
      split; [reflexivity | split; [exact E|]]. split.
      + destruct (snd r) as [| |n] eqn:Er; try (left; lia).
        destruct (visit_goto_target h index r n Ev Er)
          as [v0 [k0 [Hk0 [Hf0 ->]]]].
        rewrite <- Hrest in Hf0. cbn [first_element] in Hf0.
        rewrite (comment_not_element h v0 Hk0) in Hf0.
        destruct (first_element rest) as [k'|]; [|discriminate].
        injection Hf0 as <-. right. exists k'. split; [auto|lia].
      + intros ->. cbn [nth_error] in Hc. injection Hc as ->.
        cbn [skipn] in Hfirst.
        assert (Hf : first_element (skipn index cs) = Some k)
          by now rewrite <- Hrest.
        rewrite (visit_flag_goto c index v k r Hk Hflag Hf Ev).
        cbn [first_element] in Hfirst.
        rewrite (comment_not_element c v Hk) in Hfirst.
        destruct (first_element rest) as [k'|]; [|discriminate].
        injection Hfirst as <-. exists k'. repeat split; lia. }
  destruct Hstep as [h' [next' [rest'' [-> [Hall' [Hinv' Hzero]]]]]].
  destruct i as [|i].
  - destruct (Hzero eq_refl) as [k' [Hk' [-> ->]]].
    destruct m as [|m]; [lia|]. cbn [Nat.add nth_error].
    apply (firstn_nth_error (S k')); [|lia].
    eapply all_from_skips; [exact Hk' | exact Hall'].
  - cbn [Nat.add nth_error]. cbn [nth_error skipn] in Hc, Hfirst.
    eapply (IH (S index) next' rest'' Hrest1 Hinv' Hall' i c v k m); eauto.
Qed.

End Flag.

(** X17. The prettyhtml-ignore flag.  When the walk has rewritten the
    child list of a node and a comment with the flag is in that list,
    then the element that follows the comment, and whatever stands between
    the two, come out of the walk as the rewriting left them: nothing
    below the element is visited. *)
Theorem ignore_flag_keeps_next_element :
  forall (fuel : nat) (indent : string) (usePrettier indentInitial : bool)
         (node : Node) (index : option nat) (parents : list Node)
         (rewritten walked : Node) (result : Action) (cs : list Node)
         (i k : nat) (c : Node) (v : string),
    visitor indent usePrettier indentInitial node index parents
      = Done (rewritten, CONTINUE) ->
    children rewritten = Some cs ->
    nth_error cs i = Some c ->
    kind c = KComment v ->
    Js.includes "prettyhtml-ignore" v = true ->
    first_element (skipn i cs) = Some k ->
    one (S fuel) indent usePrettier indentInitial node index parents
      = Done (walked, result) ->
    exists cs',
      children walked = Some cs'
      /\ (forall m, (1 <= m <= k)%nat ->
            nth_error cs' (i + m) = nth_error cs (i + m))
      /\ exists e, nth_error cs' (i + k) = Some e /\ isElement e = true.
Proof.
  intros fuel indent usePrettier indentInitial node index parents rewritten
    walked result cs i k c v Hv Hcs Hc Hk Hflag Hfirst H.
  cbn [Formatter.one] in H. rewrite Hv in H. cbn [bind] in H.
  rewrite Hcs in H.
  destruct (all_from _ 0 0 cs) as [cs'| |] eqn:E; cbn [bind] in H;
    try discriminate.
  injection H as <- _. exists cs'. split; [reflexivity|].
  assert (Hkept : forall m, (1 <= m <= k)%nat ->
            nth_error cs' (i + m) = nth_error cs (i + m)).
  { intros m Hm.
    eapply (all_from_flag indent usePrettier indentInitial fuel parents
              rewritten cs Hcs cs 0 0 cs' eq_refl (or_introl (le_n 0)) E);
      eauto. }
  split; [exact Hkept|].
  assert (Hpos : (1 <= k)%nat).
  { destruct k; [|lia]. exfalso.
    assert (Hs : exists t, skipn i cs = c :: t).
    { clear - Hc. revert cs Hc. induction i as [|i IH]; intros cs Hc.
      - destruct cs as [|a l]; [discriminate|]. injection Hc as ->.
        exists l. reflexivity.
      - destruct cs as [|a l]; [discriminate|]. cbn [nth_error skipn] in *.
        now apply IH. }
    destruct Hs as [t Hs]. rewrite Hs in Hfirst. cbn [first_element] in Hfirst.
    rewrite (comment_not_element c v Hk) in Hfirst.
    destruct (first_element t); discriminate. }
  rewrite (Hkept k) by lia.
  clear - Hfirst. revert cs Hfirst. induction i as [|i IH]; intros cs Hfirst.
  - cbn [skipn Nat.add] in *. revert k Hfirst.
    induction cs as [|a cs IHcs]; intros k Hfirst; [discriminate|].
    cbn [first_element] in Hfirst. destruct (isElement a) eqn:Ea.
    + injection Hfirst as <-. exists a. auto.
    + destruct (first_element cs) as [k'|]; [|discriminate].
      injection Hfirst as <-. cbn [nth_error]. now apply IHcs.
  - destruct cs as [|a cs]; [discriminate|]. cbn [skipn Nat.add nth_error] in *.
    now apply IH.
Qed.

(** *** What the pass leaves of the tree *)

Lemma essence_setData v n : essence (setData v n) = essence n.
Proof. destruct n as [k ch d]. reflexivity. Qed.

Lemma essence_by_parts (n n' : Node) :
  gist (kind n) = gist (kind n') ->
  (type n <> text ->
   flat_map essence (children_or_empty n)
     = flat_map essence (children_or_empty n')) ->
  essence n = essence n'.
Proof.
  destruct n as [k ch d], n' as [k' ch' d'].
  unfold children_or_empty, type. cbn [kind children].
  intros Hk Hch.
  destruct k, k'; cbn [gist] in Hk; try discriminate Hk;
    cbn [essence gist];
    try (injection Hk as Hk; rewrite Hk; reflexivity);
    specialize (Hch ltac:(discriminate));
    destruct ch, ch'; cbn [flat_map] in Hch |- *; congruence.
Qed.

Lemma essence_set_children cs n :
  flat_map essence cs = flat_map essence (children_or_empty n) ->
  essence (set_children cs n) = essence n.
Proof.
  intros H. apply essence_by_parts; [reflexivity|]. intros _. exact H.
Qed.

Lemma essence_indent_text indent level c :
  Js.all_chars Js.is_space indent = true ->
  essence (indent_text indent level c) = essence c.
Proof.
  intros Hind. pose proof (FormatterFacts.indent_text_ink indent level c Hind)
    as Hink.
  apply essence_by_parts.
  - revert Hink. unfold indent_text, ink_of. destruct c as [k ch d].
    cbn [kind]. destruct k; cbn [kind set_kind gist]; try reflexivity.
    now intros H; injection H as ->.
  - intros Ht. rewrite indent_text_type in Ht.
    now rewrite FormatterFacts.indent_text_other.
Qed.

Lemma essence_indent_comment indent level n :
  Js.all_chars Js.is_blank indent = true ->
  essence (indent_comment indent level n) = essence n.
Proof.
  intros Hind. apply essence_by_parts.
  - unfold indent_comment. destruct n as [k ch d]. cbn [kind].
    destruct k; cbn [kind set_kind gist]; try reflexivity.
    now rewrite FormatterText.indent_last_line_ink.
  - intros _. unfold children_or_empty.
    now rewrite FormatterFacts.indent_comment_children.
Qed.

Lemma essence_break indent b :
  Js.all_chars Js.is_space indent = true ->
  is_break indent b -> essence b = [].
Proof.
  intros Hind Hb.
  destruct (FormatterFacts.is_break_blank indent b Hind Hb) as [v [Hk Hv]].
  destruct b as [k ch d]. cbn [kind] in Hk. subst k. cbn [essence].
  now rewrite (FormatterFacts.ink_blank v Hv).
Qed.

Lemma essence_interleaved indent originals result :
  Js.all_chars Js.is_space indent = true ->
  Interleaved indent originals result ->
  flat_map essence result = flat_map essence originals.
Proof.
  intros Hind H. induction H as [|c originals result _ IH
                                  |b originals result Hb _ IH];
    cbn [flat_map]; [reflexivity | now rewrite IH|].
  now rewrite (essence_break indent b Hind Hb).
Qed.

Lemma flat_map_essence_map (f : Node -> Node) (l : list Node) :
  (forall c, essence (f c) = essence c) ->
  flat_map essence (map f l) = flat_map essence l.
Proof.
  intros Hf. induction l as [|c l IH]; [reflexivity|].
  cbn [map flat_map]. now rewrite Hf, IH.
Qed.

Lemma essence_rewrite_children indent level n :
  Js.all_chars Js.is_space indent = true ->
  essence (rewrite_children indent level n) = essence n.
Proof.
  intros Hind. apply essence_by_parts.
  - now destruct (FormatterFacts.rewrite_children_keeps voids indent level n)
      as [-> _].
  - intros _.
    destruct (FormatterFacts.rewrite_children_interleaved voids indent level n)
      as [result [Hres Hint]].
    unfold children_or_empty at 1. rewrite Hres.
    rewrite (essence_interleaved _ _ _ Hind Hint).
    rewrite flat_map_essence_map by (intros; apply essence_setData).
    unfold prepared. destruct (NodeType_eqb _ _); [reflexivity|].
    apply flat_map_essence_map. intros c. now apply essence_indent_text.
Qed.

Lemma blank_texts_essence (l : list Node) :
  forallb (fun n => is_ text (Some n)
                    && Js.test_only_space (Js.to_string (value n))) l = true ->
  flat_map essence l = [].
Proof.
  induction l as [|c l IH]; [reflexivity|]. cbn [forallb flat_map].
  intros H. apply andb_true_iff in H. destruct H as [Hc Hl].
  rewrite (IH Hl), app_nil_r.
  apply andb_true_iff in Hc. destruct Hc as [Ht Hv].
  destruct c as [k ch d]. unfold is_, type, value in Ht, Hv.
  cbn [kind] in Ht, Hv. destruct k; try discriminate.
  cbn [Js.to_string] in Hv. unfold Js.test_only_space in Hv.
  apply andb_true_iff in Hv. destruct Hv as [_ Hv].
  cbn [essence]. now rewrite (FormatterFacts.ink_blank _ Hv).
Qed.

Lemma essence_skipped level n : essence (skipped level n) = essence n.
Proof.
  apply essence_by_parts; [reflexivity|]. intros _.
  unfold skipped, children_or_empty at 1. cbn [children].
  destruct (containsOnlyEmptyTextNodes n) eqn:E; [|reflexivity].
  unfold containsOnlyEmptyTextNodes in E.
  destruct (children_or_empty n) as [|c0 cs0]; [reflexivity|].
  symmetry. now apply blank_texts_essence.
Qed.

Lemma embedded_free_not_named n :
  embedded_free n = true -> isElementNamed ["style"; "script"] n = false.
Proof.
  destruct n as [k ch d]. cbn [embedded_free]. unfold isElementNamed.
  cbn [kind]. intros H. apply andb_true_iff in H. destruct H as [H _].
  apply negb_true_iff in H. destruct k; auto.
Qed.

Lemma embedded_free_children n cs c :
  embedded_free n = true -> children n = Some cs -> In c cs ->
  embedded_free c = true.
Proof.
  destruct n as [k ch d]. cbn [embedded_free children]. intros H ->.
  apply andb_true_iff in H. destruct H as [_ H].
  rewrite forallb_forall in H. apply H.
Qed.

Lemma embedded_free_by_parts (n n' : Node) :
  embedded_free n = true ->
  type n' = type n ->
  (type n <> text -> kind n' = kind n) ->
  Forall (fun c => embedded_free c = true) (children_or_empty n') ->
  embedded_free n' = true.
Proof.
  destruct n as [k ch d], n' as [k' ch' d'].
  unfold type, children_or_empty. cbn [embedded_free kind children].
  intros H Ht Hk Hch. apply andb_true_iff in H. destruct H as [H _].
  apply andb_true_iff. split.
  - destruct k; try (rewrite Hk by discriminate; exact H).
    destruct k'; try discriminate. reflexivity.
  - destruct ch'; [|reflexivity]. now apply forallb_forall, Forall_forall.
Qed.

Lemma embedded_free_indent_text indent level c :
  embedded_free (indent_text indent level c) = embedded_free c.
Proof.
  destruct c as [k ch d]. unfold indent_text. cbn [kind].
  destruct k; reflexivity.
Qed.

Lemma embedded_free_setData v c : embedded_free (setData v c) = embedded_free c.
Proof. destruct c. reflexivity. Qed.

Lemma embedded_free_rewrite_children indent level n :
  embedded_free n = true ->
  embedded_free (rewrite_children indent level n) = true.
Proof.
  intros H.
  destruct (FormatterFacts.rewrite_children_keeps voids indent level n)
    as [Hk _].
  apply (embedded_free_by_parts n); [exact H | | auto |].
  { unfold type. now rewrite Hk. }
  destruct (FormatterFacts.rewrite_children_interleaved voids indent level n)
    as [result [Hres Hint]].
  unfold children_or_empty. rewrite Hres.
  assert (Hprep : Forall (fun c => embedded_free c = true)
                    (map (setData level) (prepared indent level n))).
  { apply Forall_forall. intros x Hx. apply in_map_iff in Hx.
    destruct Hx as [y [<- Hy]]. rewrite embedded_free_setData.
    assert (Hkids : forall z, In z (children_or_empty n) ->
                      embedded_free z = true).
    { intros z Hz. unfold children_or_empty in Hz.
      destruct (children n) as [l|] eqn:E; [|destruct Hz].
      eapply embedded_free_children; eauto. }
    unfold prepared in Hy. destruct (NodeType_eqb _ _); [auto|].
    apply in_map_iff in Hy. destruct Hy as [z [<- Hz]].
    rewrite embedded_free_indent_text. auto. }
  clear Hres. induction Hint as [|c originals result _ IH
                                  |b originals result Hb _ IH].
  - constructor.
  - inversion Hprep; subst. constructor; auto.
  - constructor; [|auto]. destruct Hb as [lf [copies [_ ->]]]. reflexivity.
Qed.

Lemma embedded_free_indent_comment indent level n :
  embedded_free (indent_comment indent level n) = embedded_free n.
Proof.
  destruct n as [k ch d]. unfold indent_comment. cbn [kind].
  destruct k; reflexivity.
Qed.

(** What the visitor leaves of a node whose content it does not hand to
    prettier. *)
Lemma visitor_essence indent usePrettier indentInitial node index parents
    node' result :
  Js.all_chars Js.is_blank indent = true ->
  usePrettier = false \/ embedded_free node = true ->
  visitor indent usePrettier indentInitial node index parents
    = Done (node', result) ->
  essence node' = essence node
  /\ (result <> SKIP -> embedded_free node = true ->
      embedded_free node' = true).
Proof.
  intros Hind Hplain H.
  pose proof (TextFacts.blank_is_space indent Hind) as Hsp.
  apply FormatterFacts.visitor_cases in H.
  destruct H as [[next [_ H]] | [[_ [_ [H _]]] | [_ [_ H]]]].
  - injection H as -> ->. auto.
  - rewrite FormatterFacts.skip_sensitive_plain in H.
    + injection H as <- <-. split; [|intros Hr; now elim Hr].
      now rewrite essence_skipped, essence_indent_comment.
    + destruct Hplain as [Hp | Hp]; [now left | right].
      apply embedded_free_not_named.
      now rewrite embedded_free_indent_comment.
  - injection H as -> ->. split.
    + now rewrite essence_rewrite_children, essence_indent_comment.
    + intros _ Hfree. apply embedded_free_rewrite_children.
      now rewrite embedded_free_indent_comment.
Qed.

Lemma Forall2_flat_map_essence (l l' : list Node) :
  Forall2 (fun c c' => essence c' = essence c) l l' ->
  flat_map essence l' = flat_map essence l.
Proof.
  induction 1 as [|c c' l l' Hc _ IH]; [reflexivity|].
  cbn [flat_map]. now rewrite Hc, IH.
Qed.

Lemma all_from_Forall2_in (P : Node -> Node -> Prop)
    (visit_child : Node -> nat -> Outcome (Node * Action)) (all : list Node) :
  (forall c, P c c) ->
  (forall c i r, In c all -> visit_child c i = Done r -> P c (fst r)) ->
  forall rest index next rest',
    incl rest all ->
    all_from visit_child index next rest = Done rest' ->
    Forall2 P rest rest'.
Proof.
  intros Hrefl Hvisit. induction rest as [|c rest IH];
    intros index next rest' Hincl; cbn [all_from].
  - intros H; injection H as <-. constructor.
  - assert (Hc : In c all) by (apply Hincl; now left).
    assert (Hrest : incl rest all) by (intros x Hx; apply Hincl; now right).
    destruct (index <? next)%nat.
    + destruct (all_from visit_child (S index) next rest) eqn:E;
        cbn [bind]; try discriminate.
      intros H; injection H as <-. constructor; eauto.
    + destruct (visit_child c index) as [r| |] eqn:Ev;
        cbn [bind]; try discriminate.
      destruct (all_from visit_child (S index) _ rest) eqn:E;
        cbn [bind]; try discriminate.
      intros H; injection H as <-. constructor; eauto.
Qed.

Lemma one_essence indent usePrettier indentInitial (fuel : nat) :
  Js.all_chars Js.is_blank indent = true ->
  forall node index parents r,
    usePrettier = false \/ embedded_free node = true ->
    one fuel indent usePrettier indentInitial node index parents = Done r ->
    essence (fst r) = essence node.
Proof.
  intros Hind. induction fuel as [|fuel IH];
    intros node index parents r Hplain; [discriminate|].
  cbn [Formatter.one].
  destruct (visitor indent usePrettier indentInitial node index parents)
    as [[node1 result]| |] eqn:Ev; cbn [bind]; try discriminate.
  destruct (visitor_essence _ _ _ _ _ _ _ _ Hind Hplain Ev) as [Hess Hfree].
  destruct (children node1) as [cs|] eqn:Ecs;
    [|intros H; injection H as <-; exact Hess].
  assert (Hwalk : forall cs',
    result <> SKIP ->
    all_from
      (fun child i =>
         one fuel indent usePrettier indentInitial child (Some i)
           (parents ++ [node1])) 0 0 cs = Done cs' ->
    essence (set_children cs' node1) = essence node).
  { intros cs' Hr Hall. rewrite <- Hess.
    apply essence_set_children. unfold children_or_empty. rewrite Ecs.
    apply Forall2_flat_map_essence.
    eapply (all_from_Forall2_in _ _ cs); [reflexivity | | apply incl_refl
                                         | exact Hall].
    intros c i r' Hc Hr'. eapply IH; [|exact Hr'].
    destruct Hplain as [Hp | Hp]; [now left | right].
    eapply embedded_free_children; [apply Hfree; assumption | exact Ecs
                                   | exact Hc]. }
  destruct result.
  - destruct (all_from _ 0 0 cs) as [cs'| |] eqn:E; cbn [bind];
      try discriminate.
    intros H; injection H as <-. apply Hwalk; [discriminate | reflexivity].
  - intros H; injection H as <-. exact Hess.
  - destruct (all_from _ 0 0 cs) as [cs'| |] eqn:E; cbn [bind];
      try discriminate.
    intros H; injection H as <-. apply Hwalk; [discriminate | reflexivity].
Qed.

Lemma visitor_not_thrown indent usePrettier indentInitial node index
    parents what :
  usePrettier = false \/ embedded_free node = true ->
  visitor indent usePrettier indentInitial node index parents
    <> Thrown what.
Proof.
  intros Hplain. unfold Formatter.visitor.
  destruct (ignore_flag node index parents); [discriminate|].
  destruct (ignore _); [|discriminate].
  rewrite FormatterFacts.skip_sensitive_plain; [discriminate|].
  destruct Hplain as [Hp | Hp]; [now left | right].
  apply embedded_free_not_named. now rewrite embedded_free_indent_comment.
Qed.

Lemma one_not_thrown indent usePrettier indentInitial what (fuel : nat) :
  Js.all_chars Js.is_blank indent = true ->
  forall node index parents,
    usePrettier = false \/ embedded_free node = true ->
    one fuel indent usePrettier indentInitial node index parents
      <> Thrown what.
Proof.
  intros Hind. induction fuel as [|fuel IH]; intros node index parents Hplain;
    [discriminate|].
  cbn [Formatter.one].
  destruct (visitor indent usePrettier indentInitial node index parents)
    as [[node1 result]| |] eqn:Ev; cbn [bind]; try discriminate.
  - destruct (visitor_essence _ _ _ _ _ _ _ _ Hind Hplain Ev) as [_ Hfree].
    destruct (children node1) as [cs|] eqn:Ecs; [|discriminate].
    assert (Hwalk : result <> SKIP ->
      all_from
        (fun child i =>
           one fuel indent usePrettier indentInitial child (Some i)
             (parents ++ [node1])) 0 0 cs <> Thrown what).
    { intros Hr Hall. eapply all_from_thrown; [|exact Hall].
      intros c i Hc. apply IH.
      destruct Hplain as [Hp | Hp]; [now left | right].
      eapply embedded_free_children; [now apply Hfree | exact Ecs
                                     | exact Hc]. }
    destruct result; try discriminate;
      destruct (all_from _ 0 0 cs) eqn:Ea; cbn [bind]; try discriminate;
      intros Hw; injection Hw as ->; eapply Hwalk; eauto; discriminate.
  - intros Hw; injection Hw as ->. revert Ev. now apply visitor_not_thrown.
Qed.

(** X21. Formatting changes white space only.  When prettier is
    disabled, or the tree holds no [style] and no [script] element, the
    pass ends with a tree that has the essence of the tree it was given
    by the pre-pass: the same nodes in the same order and nesting, the
    same tag names and attributes, and the same text and comments but for
    white space; what it adds and what it drops are text nodes of white
    space. *)
Theorem transform_changes_white_space_only :
  forall (options : Settings) (tree : Node),
    usePrettier_of options = false \/ embedded_free (minify tree) = true ->
    exists formatted,
      transform options tree = Done formatted
      /\ essence formatted = essence (minify tree).
Proof.
  intros options tree Hplain.
  pose proof (FormatterFacts.transform_ends voids sensitive minify
                prettierOpts_parser prettier_format options tree) as Hends.
  unfold Formatter.transform, Formatter.visit in *.
  destruct (Formatter.one _ _ _ _ _ _ _ _ _ _) as [r|what|] eqn:E;
    cbn [bind] in *.
  - exists (fst r). split; [reflexivity|].
    eapply one_essence; [apply TextFacts.indent_of_blanks | exact Hplain
                        | exact E].
  - exfalso. revert E.
    apply one_not_thrown; [apply TextFacts.indent_of_blanks | exact Hplain].
  - now elim Hends.
Qed.

End EngineMore.

(** *** The properties on example trees *)

Lemma text_only_element_stays_inline_witness :
  run_visitor "  " true true (Element "p" [Text "  a "]) None []
  = Done (set_children [setData 0 (Text "a")] (Element "p" [Text "  a "]),
          CONTINUE).
Proof.
  exact (proj1 (text_only_element_stays_inline
                  html_void_elements html_whitespace_sensitive_tag_names
                  false prettier_echo "  " true true (Element "p" [Text "  a "])
                  None [] eq_refl eq_refl eq_refl eq_refl)).
Defined.

Lemma text_with_linefeed_breaks_content_witness :
  exists middle,
    run_visitor "  " true true
      (Element "p" [Text ("a" ++ single ++ "b")]) None []
    = Done (set_children
              (Text single
                 :: setData 0 (Text ("a" ++ single ++ "b"))
                 :: middle ++ [Text single])
              (Element "p" [Text ("a" ++ single ++ "b")]),
            CONTINUE).
Proof.
  exact (text_with_linefeed_breaks_content
           html_void_elements html_whitespace_sensitive_tag_names
           false prettier_echo "  " true true
           (Element "p" [Text ("a" ++ single ++ "b")]) None []
           (Text ("a" ++ single ++ "b")) [] eq_refl eq_refl eq_refl eq_refl).
Defined.

Lemma root_first_child_break_witness :
  exists node' tail,
    run_visitor "  " true true fragment None [] = Done (node', CONTINUE)
    /\ children node'
       = Some (setData 0
                 (Element "div"
                    [Element "p" [Text "A"]; Element "p" [Text "B"]])
               :: tail).
Proof.
  exact (root_first_child_break
           html_void_elements html_whitespace_sensitive_tag_names
           false prettier_echo "  " true true fragment None []
           (Element "div" [Element "p" [Text "A"]; Element "p" [Text "B"]])
           [] eq_refl eq_refl eq_refl).
Defined.

Lemma formatted_tree_ends_with_linefeed_witness :
  exists before final,
    children formatted_fragment = Some (before ++ [final])
    /\ kind final = KText single.
Proof.
  apply (formatted_tree_ends_with_linefeed
           html_void_elements html_whitespace_sensitive_tag_names
           rehype_minify_whitespace false prettier_echo two_spaces fragment formatted_fragment
           (Element "div" [Element "p" [Text "A"]; Element "p" [Text "B"]]));
    [vm_compute; reflexivity | reflexivity | left; reflexivity
    | discriminate].
Defined.

Lemma ignore_flag_keeps_next_element_witness :
  exists cs',
    children (fst (run_one_result 3 "  " true true ignored_paragraph None []))
      = Some cs'
    /\ nth_error cs' 3
       = Some (setData 0 (Element "p" [Text ("a" ++ single ++ "b")])).
Proof.
  destruct (ignore_flag_keeps_next_element
              html_void_elements html_whitespace_sensitive_tag_names
              false prettier_echo 2 "  " true true ignored_paragraph None []
              (rewrite_children html_void_elements "  " 0 ignored_paragraph)
              (fst (run_one_result 3 "  " true true ignored_paragraph None []))
              CONTINUE
              (children_or_empty
                 (rewrite_children html_void_elements "  " 0
                    ignored_paragraph))
              1 2 (setData 0 (Comment " prettyhtml-ignore "))
              " prettyhtml-ignore "
              eq_refl eq_refl eq_refl eq_refl eq_refl eq_refl eq_refl)
    as [cs' [Hcs [Hkept _]]].
  exists cs'. split; [exact Hcs|].
  exact (eq_trans (Hkept 2%nat (conj (le_S 1 1 (le_n 1)) (le_n 2))) eq_refl).
Defined.

Lemma transform_changes_white_space_only_witness :
  exists formatted,
    run_transform rehype_minify_whitespace fragment = Done formatted
    /\ essence formatted = essence (rehype_minify_whitespace fragment).
Proof.
  apply (transform_changes_white_space_only
           html_void_elements html_whitespace_sensitive_tag_names
           rehype_minify_whitespace false prettier_echo two_spaces fragment).
  right. reflexivity.
Defined.

End FormatterMore.

(* ================================================================== *)
(** ** The closing tag in the text of an embedded script *)
(* ================================================================== *)

Module EmbeddedScript.
Import Formatter.

Abbreviation no_lt := (Js.all_chars (fun c => negb (Ascii.eqb c "<"))).

Lemma append_assoc (a b c : string) :
  ((a ++ b) ++ c)%string = (a ++ b ++ c)%string.
Proof. induction a as [|x a IH]; simpl; congruence. Qed.

Lemma escape_from_drop (skip : nat) (s : string) :
  Js.escape_script_close_from skip s
    = Js.escape_script_close_from 0 (Js.drop skip s).
Proof.
  revert skip. induction s as [|c r IH]; intros [|k]; try reflexivity.
  cbn [Js.escape_script_close_from Js.drop]. apply IH.
Qed.

Lemma length_drop (n : nat) (s : string) :
  (String.length (Js.drop n s) <= String.length s)%nat.
Proof.
  revert s. induction n as [|n IH]; intros [|c s]; simpl; try lia.
  specialize (IH s). lia.
Qed.

Lemma drop_while_split (p : ascii -> bool) (s : string) :
  exists ws, s = (ws ++ Js.drop_while p s)%string /\ Js.all_chars p ws = true.
Proof.
  induction s as [|c s [ws [Hs Hws]]]; [exists EmptyString; auto|].
  simpl. destruct (p c) eqn:E; [|exists EmptyString; auto].
  exists (String c ws). simpl. rewrite E, Hws. split; [congruence | auto].
Qed.

Lemma space_is_not_lt (ws : string) :
  Js.all_chars Js.is_space ws = true -> no_lt ws = true.
Proof.
  induction ws as [|c ws IH]; simpl; [reflexivity|].
  intros H. apply andb_true_iff in H. destruct H as [Hc Hws].
  rewrite (IH Hws), andb_true_r.
  destruct (Ascii.eqb c "<") eqn:E; [|reflexivity].
  apply Ascii.eqb_eq in E. subst c. discriminate.
Qed.

(** What a match of the closing tag at the start of a string is. *)
Lemma script_close_at_spec (t : string) :
  Js.script_close_at t <> None <->
  exists ws rest,
    Js.all_chars Js.is_space ws = true
    /\ t = ("</script" ++ ws ++ ">" ++ rest)%string.
Proof.
  unfold Js.script_close_at. split.
  - destruct (prefix Js.script_close t) eqn:Hp; [|congruence].
    apply JsFacts.prefix_split in Hp. destruct Hp as [after ->].
    rewrite JsFacts.drop_app.
    destruct (drop_while_split Js.is_space after) as [ws [Hafter Hws]].
    destruct (Js.drop_while Js.is_space after) as [|c rest];
      [congruence|].
    destruct (ascii_dec c ">") as [-> | Hc].
    + intros _. exists ws, rest. split; [exact Hws|]. now rewrite Hafter at 1.
    + intros H. exfalso. apply H.
      destruct c as [[] [] [] [] [] [] [] []]; try reflexivity.
      now elim Hc.
  - intros [ws [rest [Hws ->]]].
    replace (prefix Js.script_close ("</script" ++ ws ++ ">" ++ rest))
      with true
      by (symmetry; apply JsFacts.prefix_split; eexists; reflexivity).
    change ("</script" ++ ws ++ ">" ++ rest)%string
      with (Js.script_close ++ ws ++ ">" ++ rest)%string.
    rewrite JsFacts.drop_app, TextFacts.drop_while_app_all by exact Hws.
    discriminate.
Qed.

(** What the escaping copies is what it read: a start of the output that
    holds no [<] is a start of the input. *)
Lemma escape_prefix_back (w : string) :
  forall r x,
    no_lt w = true ->
    Js.escape_script_close_from 0 r = (w ++ x)%string ->
    exists x', r = (w ++ x')%string.
Proof.
  induction w as [|a w IH]; intros r x Hw H; [exists r; reflexivity|].
  cbn [Js.all_chars] in Hw. apply andb_true_iff in Hw.
  destruct Hw as [Ha Hw]. apply negb_true_iff, Ascii.eqb_neq in Ha.
  destruct r as [|c r]; [discriminate|].
  cbn [Js.escape_script_close_from] in H.
  destruct (Js.script_close_at (String c r)).
  - simpl in H. injection H as H _. now elim Ha.
  - simpl in H. injection H as -> H.
    destruct (IH r x Hw H) as [x' ->]. exists x'. reflexivity.
Qed.

Lemma escape_leaves_no_match (n : nat) :
  forall s, (String.length s <= n)%nat ->
    forall p,
      Js.script_close_at (Js.drop p (Js.escape_script_close_from 0 s)) = None.
Proof.
  induction n as [|n IH]; intros s Hlen p.
  - destruct s; [|simpl in Hlen; lia]. destruct p; reflexivity.
  - destruct s as [|c r]; [destruct p; reflexivity|].
    simpl in Hlen. cbn [Js.escape_script_close_from].
    destruct (Js.script_close_at (String c r)) as [m|] eqn:Hm.
    + rewrite escape_from_drop.
      do 10 (destruct p as [|p]; [reflexivity|]).
      simpl. apply IH. pose proof (length_drop (m - 1) r). lia.
    + destruct p as [|p]; [|simpl; apply IH; lia].
      cbn [Js.drop].
      destruct (Js.script_close_at
                  (String c (Js.escape_script_close_from 0 r)))
        eqn:Hout; [exfalso|reflexivity].
      assert (Hsome : Js.script_close_at
                        (String c (Js.escape_script_close_from 0 r)) <> None)
        by congruence.
      apply script_close_at_spec in Hsome.
      destruct Hsome as [ws [rest [Hws Heq]]].
      simpl in Heq. injection Heq as -> Heq.
      destruct (escape_prefix_back ("/script" ++ ws ++ ">") r rest)
        as [x' ->].
      * simpl. rewrite JsFacts.all_chars_app, (space_is_not_lt ws Hws).
        reflexivity.
      * rewrite Heq. simpl. now rewrite append_assoc.
      * assert (Hin : Js.script_close_at
                        (String "<" (("/script" ++ ws ++ ">") ++ x'))
                      <> None).
        { apply script_close_at_spec. exists ws, x'. split; [exact Hws|].
          simpl. now rewrite append_assoc. }
        now elim Hin.
Qed.

Section Embedded.

Variable prettierOpts_parser : bool.
Variable prettier_format : Parser -> string -> option string.

Abbreviation prettierEmbeddedContent :=
  (prettierEmbeddedContent prettierOpts_parser prettier_format).

(** X22. The text that replaces the content of a [script] element holds
    no closing [script] tag: after the escaping, at no place in it does
    [</script], white space and [>] follow one another. *)
Theorem embedded_script_holds_no_closing_tag :
  forall (node node' : Node) (level : Z) (indent : string),
    isElementNamed ["script"] node = true ->
    prettierEmbeddedContent node level indent = Done node' ->
    exists formattedText,
      children node' = Some (embedded_children formattedText indent level)
      /\ forall p, Js.script_close_at (Js.drop p formattedText) = None.
Proof.
  intros node node' level indent Hscript.
  unfold prettierEmbeddedContent. rewrite Hscript.
  replace (isElementNamed ["style"] node) with false.
  - destruct (prettier_format _ _) as [formattedText|]; [|discriminate].
    intros H; injection H as <-. eexists. split; [reflexivity|].
    intros p. unfold Js.escape_script_close.
    now apply (escape_leaves_no_match _ _ (le_n _)).
  - revert Hscript. unfold isElementNamed. destruct (kind node); auto.
    cbn [existsb]. rewrite !orb_false_r. intros H.
    apply String.eqb_eq in H. now subst.
Qed.

End Embedded.

Lemma embedded_script_holds_no_closing_tag_witness :
  exists formattedText,
    children
      (set_children
         (embedded_children
            (Js.escape_script_close
               (indentPrettierOutput "a</script >b" 1)) "  " 1)
         (Element "script" [Text "a</script >b"]))
    = Some (embedded_children formattedText "  " 1)
    /\ forall p, Js.script_close_at (Js.drop p formattedText) = None.
Proof.
  exact (embedded_script_holds_no_closing_tag false prettier_echo
           (Element "script" [Text "a</script >b"]) _ 1 "  "
           eq_refl eq_refl).
Defined.

End EmbeddedScript.

(* ================================================================== *)
(** ** What every definition of the registry satisfies *)
(* ================================================================== *)

Module RegistryInvariants.
Import Registry.

Lemma own_value {A} (obj : list (string * A)) (k : string) (v : A) :
  own obj k = Some v -> In v (map snd obj).
Proof.
  induction obj as [|[k' v'] obj IH]; simpl; [discriminate|].
  destruct (String.eqb k' k); [|auto]. intros H; injection H as ->. now left.
Qed.

(** The definitions the lookup can hand out: the values of the table of
    the mode, and the default. *)
Lemma lookup_source (st : State) (tagName : string) (flag : bool)
    (d : HtmlTagDefinition) :
  reachable st ->
  fst (getHtmlTagDefinition tagName flag st) = Found d ->
  In d (new_HtmlTagDefinition no_options :: map snd (table flag)).
Proof.
  intros Hst.
  rewrite RegistryFacts.getHtmlTagDefinition_reads
    by now apply RegistryMore.reachable_coherent.
  destruct (own (table flag) tagName) as [d'|] eqn:E.
  - intros H; injection H as ->. right. eapply own_value, E.
  - destruct (mem tagName Object_prototype_names); [discriminate|].
    intros H; injection H as <-. now left.
Qed.

(** X23. Every definition the lookup hands out is sound in itself.  A
    void element is closed by its parent, and no definition can close
    itself.  A definition either requires no parent, and then never asks
    for an extra one, or it names the first of its required parents as the
    one to add; below that parent it asks for no extra parent, and without
    a parent it asks for one. *)
Theorem handed_out_definitions_are_sound :
  forall (st : State) (tagName : string) (flag : bool)
         (d : HtmlTagDefinition),
    reachable st ->
    fst (getHtmlTagDefinition tagName flag st) = Found d ->
    (isVoid d = true -> closedByParent d = true)
    /\ canSelfClose d = false
    /\ match parentToAdd d with
       | Some p =>
           (exists ps, requiredParents d = Some (p :: ps))
           /\ requireExtraParent d p = false
           /\ requireExtraParent d EmptyString = true
       | None =>
           requiredParents d = None
           /\ forall currentParent,
                requireExtraParent d currentParent = false
       end.
Proof.
  intros st tagName flag d Hst Hd.
  pose proof (lookup_source st tagName flag d Hst Hd) as Hin.
  clear Hst Hd.
  set (sound := fun d : HtmlTagDefinition =>
         implb (isVoid d) (closedByParent d)
         && negb (canSelfClose d)
         && match parentToAdd d, requiredParents d with
            | Some p, Some (q :: _) =>
                String.eqb p q
                && negb (requireExtraParent d p)
                && requireExtraParent d EmptyString
            | None, None => true
            | _, _ => false
            end).
  assert (Hall : forallb sound
                   (new_HtmlTagDefinition no_options :: map snd (table flag))
                 = true)
    by (destruct flag; vm_compute; reflexivity).
  rewrite forallb_forall in Hall. specialize (Hall d Hin).
  subst sound. cbv beta in Hall.
  apply andb_true_iff in Hall. destruct Hall as [Hall Hparents].
  apply andb_true_iff in Hall. destruct Hall as [Hvoid Hself].
  split; [|split].
  - intros Hv. now rewrite Hv in Hvoid.
  - now apply negb_true_iff.
  - destruct (parentToAdd d) as [p|], (requiredParents d) as [[|q ps]|] eqn:Er;
      try discriminate.
    + apply andb_true_iff in Hparents. destruct Hparents as [Hp Hempty].
      apply andb_true_iff in Hp. destruct Hp as [Hq Hp].
      apply String.eqb_eq in Hq. subst q.
      split; [eauto | split; [now apply negb_true_iff | exact Hempty]].
    + split; [reflexivity|]. intros currentParent.
      unfold requireExtraParent. now rewrite Er.
Qed.

Lemma handed_out_definitions_are_sound_witness :
  exists d,
    fst (getHtmlTagDefinition "tr" false initial) = Found d
    /\ parentToAdd d = Some "tbody"
    /\ requireExtraParent d "tbody" = false.
Proof.
  eexists. split; [reflexivity|]. split; [reflexivity|].
  exact (proj1 (proj2 (proj2 (proj2
           (handed_out_definitions_are_sound initial "tr" false _
              reachable_initial eq_refl))))).
Defined.

End RegistryInvariants.

(* ================================================================== *)
(** ** Closing children, and where the breaks go *)
(* ================================================================== *)

Module ClosedByChild.
Import Registry.

Lemma lower_upper_char (c : ascii) :
  Js.lower_char (Js.upper_char c) = Js.lower_char c.
Proof. destruct c as [[] [] [] [] [] [] [] []]; reflexivity. Qed.

Lemma toLowerCase_toUpperCase (s : string) :
  Js.toLowerCase (Js.toUpperCase s) = Js.toLowerCase s.
Proof.
  induction s as [|c s IH]; [reflexivity|]. simpl.
  now rewrite lower_upper_char, IH.
Qed.

(** X24. Whether a child closes an element does not depend on the case
    of the child's name, for a name of ASCII characters.  The names are
    looked up with [in], which also finds what every object inherits: the
    name [constructor] closes every element, whatever its definition. *)
Theorem isClosedByChild_ignores_case :
  forall (d : HtmlTagDefinition) (name : string),
    Js.is_ascii name = true ->
    isClosedByChild d (Js.toLowerCase name) = isClosedByChild d name
    /\ isClosedByChild d (Js.toUpperCase name) = isClosedByChild d name
    /\ isClosedByChild d "Constructor" = true.
Proof.
  intros d name _. unfold isClosedByChild.
  rewrite RegistryMore.toLowerCase_idem, toLowerCase_toUpperCase.
  repeat split. unfold js_in.
  replace (mem (Js.toLowerCase "Constructor") Object_prototype_names)
    with true by reflexivity.
  now rewrite !orb_true_r.
Qed.

Lemma isClosedByChild_ignores_case_witness :
  Js.is_ascii "Li" = true
  /\ isClosedByChild (new_HtmlTagDefinition
                        (args (Some ["li"]) None None None (Some true)
                           None None)) "LI" = true
  /\ isClosedByChild (new_HtmlTagDefinition
                        (args (Some ["li"]) None None None (Some true)
                           None None)) "Constructor" = true.
Proof.
  split; [reflexivity|].
  destruct (isClosedByChild_ignores_case
              (new_HtmlTagDefinition
                 (args (Some ["li"]) None None None (Some true) None None))
              "Li" eq_refl) as [_ [Hupper Hconstructor]].
  split; [exact Hupper | exact Hconstructor].
Defined.

End ClosedByChild.

Module FormatterBreaks.
Import Formatter.

(** X25. The hook that decides on a break before a child has a rule for
    [script] and [style] elements that never decides: what it grants, a
    break before such an element that is not the first child, the last
    rule grants to every child that is not text.  A break is wanted
    before a template expression, after a comment, and before any child
    that is not text, the first child of a root apart. *)
Theorem script_rule_never_decides :
  forall (node : Node) (children : list Node) (child : Node) (index : nat)
         (prev : option Node),
    beforeChildNodeAddedHook node children child index prev
    = handleTemplateExpression child children
      || is_ comment prev
      || (negb (NodeType_eqb (type node) root && (index =? 0)%nat)
          && negb (is_ text (Some child))).
Proof.
  intros node children child index prev. unfold beforeChildNodeAddedHook.
  destruct (handleTemplateExpression child children); [reflexivity|].
  destruct (is_ comment prev); [reflexivity|]. cbn [orb].
  destruct (isElementNamed ["script"; "style"] child) eqn:Enamed;
    cbn [andb]; [|now destruct (NodeType_eqb _ _ && _)].
  assert (Ht : is_ text (Some child) = false).
  { revert Enamed. unfold isElementNamed, is_, type.
    destruct (kind child); try discriminate. reflexivity. }
  rewrite Ht. destruct (index =? 0)%nat; cbn [negb andb];
    [now destruct (NodeType_eqb _ _) | now rewrite andb_false_r].
Qed.

(** X28. What follows a conditional comment.  After a comment whose
    text holds [if] in any case, a comment without [if] is set off by two
    linefeeds.  An element after it is set off by two linefeeds only when
    the [if] is written in lower case: the test before an element does
    not fold the case, and after a comment that holds [IF] the element
    gets the single linefeed that follows any comment. *)
Theorem break_after_conditional_comment :
  forall (node : Node) (children : list Node) (child : Node) (index : nat)
         (prev : option Node) (newline : bool),
    is_ comment prev = true ->
    lower_value_includes "if" prev = true ->
    (is_ comment (Some child) = true ->
     lower_value_includes "if" (Some child) = false ->
     break_before node children child index prev newline = Some double)
    /\ (isElement child = true ->
        break_before node children child index prev newline
        = Some (if value_includes "if" prev then double else single)).
Proof.
  intros node children child index prev newline Hprev Hif.
  unfold break_before, isElementAfterConditionalComment,
    isConCommentFollowedByComment.
  rewrite Hprev, Hif. cbn [andb]. split.
  - intros Hc Hno. rewrite Hc, Hno. cbn [andb negb].
    now rewrite orb_true_r.
  - intros He. rewrite He, andb_true_r.
    assert (Hc : is_ comment (Some child) = false).
    { revert He. unfold isElement, is_. destruct (type child);
        try discriminate. reflexivity. }
    rewrite Hc. cbn [andb]. rewrite orb_false_r.
    destruct (value_includes "if" prev); [reflexivity|].
    assert (Hends : endsWithNewline prev = false).
    { revert Hprev. unfold endsWithNewline, is_.
      destruct prev as [p|]; [|discriminate].
      destruct (type p); try discriminate. reflexivity. }
    assert (Hhook :
      beforeChildNodeAddedHook node children child index prev = true).
    { unfold beforeChildNodeAddedHook. rewrite Hprev.
      now destruct (handleTemplateExpression child children). }
    now rewrite Hends, Hhook.
Qed.

Lemma break_after_conditional_comment_witness :
  break_before conditional [] (Element "p" []) 1
    (Some (Comment "[IF IE]")) false = Some single
  /\ break_before conditional [] (Element "p" []) 1
       (Some (Comment "[if IE]")) false = Some double.
Proof.
  split.
  - exact (proj2 (break_after_conditional_comment conditional []
                    (Element "p" []) 1 (Some (Comment "[IF IE]")) false
                    eq_refl eq_refl) eq_refl).
  - exact (proj2 (break_after_conditional_comment conditional []
                    (Element "p" []) 1 (Some (Comment "[if IE]")) false
                    eq_refl eq_refl) eq_refl).
Defined.

Section Breaks.

Variable voids : list string.

Abbreviation isVoid := (isVoid voids).
Abbreviation rewrite_children := (rewrite_children voids).
Abbreviation not_text := (fun c : Node => negb (is_ text (Some c))).

Lemma forallb_text_interleaved indent originals result :
  Interleaved indent originals result ->
  forallb (fun c => is_ text (Some c)) result
    = forallb (fun c => is_ text (Some c)) originals.
Proof.
  induction 1 as [|c originals result _ IH|b originals result Hb _ IH];
    cbn [forallb]; [reflexivity | now rewrite IH|].
  destruct Hb as [lf [copies [_ ->]]]. exact IH.
Qed.

Lemma forallb_text_prepared indent level node :
  forallb (fun c => is_ text (Some c))
    (map (setData level) (prepared indent level node))
  = forallb (fun c => is_ text (Some c)) (children_or_empty node).
Proof.
  rewrite FormatterMore.forallb_text_map by reflexivity.
  unfold prepared. destruct (NodeType_eqb _ _); [reflexivity|].
  apply FormatterMore.forallb_text_map, FormatterMore.indent_text_type.
Qed.

Lemma existsb_not_text (l : list Node) :
  existsb not_text l = negb (forallb (fun c => is_ text (Some c)) l).
Proof.
  induction l as [|c l IH]; [reflexivity|]. cbn [existsb forallb].
  rewrite IH. now destruct (is_ text (Some c)).
Qed.

Lemma last_of_texts level (l : list Node) :
  forallb (fun c => is_ text (Some c)) l = true ->
  l = [] \/ is_ text (last (map (fun c => Some (setData level c)) l) None)
            = true.
Proof.
  destruct l as [|c l]; [now left|]. intros H. right.
  now apply FormatterMore.last_is_text.
Qed.

(** X26. When the visitor closes a node with a break.  The closing break
    is appended to the new child list exactly when some child of the node
    is not text and the node is not a void element, or when the node is
    not the root and a text child of it holds a linefeed.  So a node
    without children never gets one, and an element that holds only text
    on one line is closed on that line. *)
Theorem closing_break_exactly_when :
  forall (indent : string) (level : Z) (node : Node),
    let cs := prepared indent level node in
    let newline :=
      negb (NodeType_eqb (type node) root)
      && existsb has_linefeed (children_or_empty node) in
    children (rewrite_children indent level node)
    = Some (rebuild node cs indent level newline 0 None cs
            ++ (if (existsb not_text (children_or_empty node)
                    && negb (isVoid node))
                   || newline
                then [closing_break indent level]
                else [])).
Proof.
  intros indent level node cs newline.
  unfold Formatter.rewrite_children. fold (prepared indent level node).
  fold cs. fold newline.
  set (result := rebuild node cs indent level newline 0 None cs).
  assert (Htexts :
    forallb (fun c => is_ text (Some c)) result
    = forallb (fun c => is_ text (Some c)) (children_or_empty node)).
  { subst result.
    rewrite (forallb_text_interleaved indent _ _
               (FormatterFacts.rebuild_interleaved node cs indent level
                  newline cs 0 None)).
    apply forallb_text_prepared. }
  assert (Hhook :
    afterChildNodesAddedHook voids (set_children result node)
      (last (map (fun c => Some (setData level c)) cs) None)
    = existsb not_text (children_or_empty node) && negb (isVoid node)).
  { rewrite existsb_not_text. unfold afterChildNodesAddedHook.
    cbn [children_or_empty children set_children].
    change (Formatter.isVoid voids (set_children result node))
      with (isVoid node).
    assert (Hlen : List.length cs = List.length (children_or_empty node))
      by (subst cs; unfold prepared; destruct (NodeType_eqb _ _);
          [reflexivity | apply length_map]).
    destruct (children_or_empty node) as [|c0 rest] eqn:Ecs.
    - destruct cs; [reflexivity | discriminate].
    - assert (Hres : result <> []).
      { subst result. destruct cs as [|c1 cs1]; [discriminate|].
        cbn [rebuild]. destruct (break_before _ _ _ _ _ _); discriminate. }
      unfold containsOnlyTextNodes.
      destruct result as [|r0 result0] eqn:Eres; [now elim Hres|].
      rewrite Htexts. cbn [List.length Nat.ltb Nat.leb andb].
      destruct (forallb _ (c0 :: rest)) eqn:Hall; cbn [negb andb].
      + assert (Hcs : forallb (fun c => is_ text (Some c)) cs = true).
        { rewrite <- Hall, <- Ecs. subst cs. unfold prepared.
          destruct (NodeType_eqb _ _); [reflexivity|].
          apply FormatterMore.forallb_text_map,
                FormatterMore.indent_text_type. }
        destruct (last_of_texts level cs Hcs) as [Hnil | Hlast].
        * rewrite Hnil in Hlen. discriminate.
        * rewrite Hlast. cbn [negb]. now rewrite andb_false_r.
      + destruct (isVoid node); reflexivity. }
  rewrite Hhook. destruct (_ || _); [reflexivity|].
  cbn [children set_children]. now rewrite app_nil_r.
Qed.

(** *** A text that ends with a linefeed *)

Lemma test_trailing_lf_spec (s : string) :
  Js.test_trailing_lf s = true <->
  exists a ws,
    s = (a ++ String Js.LF ws)%string /\ Js.all_chars Js.is_space ws = true.
Proof.
  induction s as [|c s IH]; cbn [Js.test_trailing_lf].
  - split; [discriminate|]. intros [a [ws [H _]]]. destruct a; discriminate.
  - rewrite orb_true_iff, andb_true_iff, IH. split.
    + intros [[Hc Hs] | [a [ws [-> Hws]]]].
      * apply Ascii.eqb_eq in Hc. subst c. exists EmptyString, s. auto.
      * exists (String c a), ws. auto.
    + intros [a [ws [H Hws]]]. destruct a as [|x a]; simpl in H.
      * injection H as -> ->. left. auto.
      * injection H as -> ->. right. eauto.
Qed.

Lemma drop_while_blank_keeps_lf (a ws : string) :
  exists a1,
    Js.drop_while Js.is_blank (a ++ String Js.LF ws)
    = (a1 ++ String Js.LF ws)%string.
Proof.
  induction a as [|c a [a1 IH]]; [exists EmptyString; reflexivity|].
  simpl. destruct (Js.is_blank c); [eauto|].
  exists (String c a). reflexivity.
Qed.

Lemma drop_while_end_after (p : ascii -> bool) (a : string) (c : ascii)
    (r : string) :
  p c = false ->
  Js.drop_while_end p (a ++ String c r)
  = (a ++ String c (Js.drop_while_end p r))%string.
Proof.
  intros Hc. induction a as [|x a IH].
  - simpl. destruct (Js.drop_while_end p r); [now rewrite Hc | reflexivity].
  - cbn [append Js.drop_while_end]. rewrite IH.
    destruct a; reflexivity.
Qed.

Lemma after_each_lf_app (ins x y : string) :
  Js.after_each_lf ins (x ++ y)
  = (Js.after_each_lf ins x ++ Js.after_each_lf ins y)%string.
Proof.
  induction x as [|c x IH]; [reflexivity|]. simpl.
  destruct (Js.is_lf c); simpl; rewrite IH;
    [now rewrite EmbeddedScript.append_assoc | reflexivity].
Qed.

Lemma after_each_lf_space (ins ws : string) :
  Js.all_chars Js.is_space ins = true ->
  Js.all_chars Js.is_space ws = true ->
  Js.all_chars Js.is_space (Js.after_each_lf ins ws) = true.
Proof.
  intros Hins. induction ws as [|c ws IH]; [reflexivity|]. simpl.
  intros H. apply andb_true_iff in H. destruct H as [Hc Hws].
  destruct (Js.is_lf c); simpl; rewrite Hc, ?JsFacts.all_chars_app, ?Hins;
    now rewrite IH.
Qed.

Lemma truthy_with_lf (a r : string) :
  Js.truthy (a ++ String Js.LF r) = true.
Proof. destruct a; reflexivity. Qed.

(** The first loop leaves a text that ends with a linefeed ending with a
    linefeed. *)
Lemma indent_text_ends_with_newline indent level t :
  Js.all_chars Js.is_space indent = true ->
  endsWithNewline (Some t) = true ->
  endsWithNewline (Some (indent_text indent level t)) = true.
Proof.
  intros Hind. unfold endsWithNewline, indent_text, is_, type, value.
  destruct t as [k ch d]. cbn [kind]. destruct k; try discriminate.
  cbn [kind set_kind NodeType_eqb andb]. intros H.
  apply andb_true_iff in H. destruct H as [_ H].
  apply test_trailing_lf_spec in H. destruct H as [a [ws [-> Hws]]].
  unfold Js.strip_blanks.
  destruct (drop_while_blank_keeps_lf a ws) as [a1 ->].
  rewrite drop_while_end_after by reflexivity.
  rewrite after_each_lf_app.
  change (Js.after_each_lf (Js.repeat indent level)
            (String Js.LF (Js.drop_while_end Js.is_blank ws)))
    with (String Js.LF
            (Js.repeat indent level
             ++ Js.after_each_lf (Js.repeat indent level)
                  (Js.drop_while_end Js.is_blank ws)))%string.
  rewrite truthy_with_lf. cbn [andb].
  apply test_trailing_lf_spec. eexists _, _. split; [reflexivity|].
  rewrite JsFacts.all_chars_app.
  assert (Hrep : Js.all_chars Js.is_space (Js.repeat indent level) = true)
    by now apply JsFacts.all_chars_repeat_nat.
  rewrite Hrep. cbn [andb]. apply after_each_lf_space; [exact Hrep|].
  now apply TextFacts.all_chars_drop_while_end.
Qed.

Lemma neighbours_stay {A} (x y z w : list A) (a b : A) :
  exists l1 l2,
    (x ++ y ++ a :: b :: z) ++ w = l1 ++ a :: b :: l2
    /\ (List.length x <= List.length l1)%nat.
Proof.
  exists (x ++ y), (z ++ w). split.
  - now rewrite <- !app_assoc.
  - rewrite length_app. lia.
Qed.

(** X27. No break after a text that ends with a linefeed.  When a text
    child ends with a linefeed, white space after it or not, the loop
    over the children puts nothing between it and the child that follows
    it: the two are neighbours in the new child list.  This holds under
    the root, whose text is left as it is, and elsewhere, where the text
    has been re-indented. *)
Theorem no_break_after_trailing_linefeed :
  forall (indent : string) (level : Z) (node : Node)
         (before after : list Node) (t c : Node),
    Js.all_chars Js.is_space indent = true ->
    children node = Some (before ++ t :: c :: after) ->
    endsWithNewline (Some t) = true ->
    let prepare := fun x : Node =>
      if NodeType_eqb (type node) root then x
      else indent_text indent level x in
    endsWithNewline (Some (prepare t)) = true
    /\ exists l1 l2,
         children (rewrite_children indent level node)
         = Some (l1 ++ setData level (prepare t)
                       :: setData level (prepare c) :: l2)
         /\ (List.length before <= List.length l1)%nat.
Proof.
  intros indent level node before after t c Hind Hcs Ht prepare.
  assert (Hends : endsWithNewline (Some (prepare t)) = true).
  { subst prepare. cbv beta. destruct (NodeType_eqb _ _); [exact Ht|].
    now apply indent_text_ends_with_newline. }
  split; [exact Hends|].
  unfold Formatter.rewrite_children. fold (prepared indent level node).
  assert (Hprep : prepared indent level node
                  = map prepare before ++ prepare t :: prepare c
                      :: map prepare after).
  { unfold prepared, children_or_empty. rewrite Hcs. subst prepare.
    destruct (NodeType_eqb _ _).
    - now rewrite !map_id.
    - now rewrite map_app. }
  cbv zeta. rewrite Hprep.
  set (nl := negb (NodeType_eqb (type node) root)
             && existsb has_linefeed (children_or_empty node)).
  rewrite FormatterFacts.rebuild_app. cbn [rebuild].
  set (cs := map prepare before ++ prepare t :: prepare c :: map prepare after).
  assert (Hnone :
    break_before node cs (setData level (prepare c))
      (S (0 + List.length (map prepare before)))
      (Some (setData level (prepare t))) nl = None).
  { unfold break_before, isElementAfterConditionalComment,
      isConCommentFollowedByComment.
    change (endsWithNewline (Some (setData level (prepare t))))
      with (endsWithNewline (Some (prepare t))).
    rewrite Hends.
    replace (is_ comment (Some (setData level (prepare t)))) with false.
    - cbn [negb andb orb Nat.eqb]. now rewrite andb_false_r.
    - revert Hends. unfold endsWithNewline, is_.
      change (type (setData level (prepare t))) with (type (prepare t)).
      destruct (type (prepare t)); try discriminate. reflexivity. }
  rewrite Hnone. cbn [app].
  pose proof (FormatterMore.rebuild_length node cs indent level nl
                (map prepare before) 0 None) as Hlen.
  rewrite length_map in Hlen.
  destruct (_ || _); cbn [children set_children];
    match goal with
    | |- exists l1 l2,
           Some ((?x ++ ?y ++ ?a :: ?b :: ?z) ++ ?w) = _ /\ _ =>
        destruct (neighbours_stay x y z w a b) as [l1 [l2 [Heq Hl1]]];
        exists l1, l2; rewrite Heq; split; [reflexivity | lia]
    | |- exists l1 l2,
           Some (?x ++ ?y ++ ?a :: ?b :: ?z) = _ /\ _ =>
        destruct (neighbours_stay x y z [] a b) as [l1 [l2 [Heq Hl1]]];
        rewrite app_nil_r in Heq;
        exists l1, l2; rewrite Heq; split; [reflexivity | lia]
    end.
Qed.

End Breaks.

Lemma no_break_after_trailing_linefeed_witness :
  exists l1 l2,
    children
      (Formatter.rewrite_children html_void_elements "  " 1
         (Element "p" [Text ("a" ++ single); Element "b" []]))
    = Some (l1 ++ setData 1 (Text ("a" ++ single ++ "  "))
               :: setData 1 (Element "b" []) :: l2)
    /\ (0 <= List.length l1)%nat.
Proof.
  exact (proj2 (no_break_after_trailing_linefeed html_void_elements
                  "  " 1 (Element "p" [Text ("a" ++ single); Element "b" []])
                  [] [] (Text ("a" ++ single)) (Element "b" [])
                  eq_refl eq_refl eq_refl)).
Defined.

End FormatterBreaks.

(* ================================================================== *)
(** * The levels of the pass *)
(* ================================================================== *)

Module FormatterLevels.
Import Formatter.

Lemma indent_comment_setData indent level v c :
  kind (indent_comment indent level (setData v c))
  = kind (indent_comment indent level c).
Proof. unfold indent_comment. cbn [setData kind]. now destruct (kind c). Qed.

Lemma first_element_exists (l : list Node) (k : nat) :
  first_element l = Some k -> existsb isElement l = true.
Proof.
  revert k. induction l as [|c l IH]; intros k; [discriminate|].
  cbn [first_element existsb]. destruct (isElement c); [reflexivity|].
  destruct (first_element l) as [k'|]; [|discriminate].
  intros _. now apply (IH k').
Qed.

Lemma first_element_tail (c : Node) (l : list Node) (k : nat) :
  first_element (c :: l) = Some (S k) ->
  isElement c = false /\ first_element l = Some k.
Proof.
  cbn [first_element]. destruct (isElement c); [discriminate|].
  destruct (first_element l) as [k'|]; [|discriminate].
  intros H; injection H as <-. auto.
Qed.

Lemma Annotated_placed indent level originals walked :
  Annotated indent level originals walked ->
  forall i c,
    nth_error walked i = Some c ->
    Placed indent level (S i =? List.length walked)%nat c.
Proof.
  induction 1 as [|b Hb|c c' originals walked [_ Hc] _ IH
                  |b c c' originals walked Hb [_ Hc] _ IH];
    intros i x Hx.
  - destruct i; discriminate.
  - destruct i as [|i]; [|destruct i; discriminate].
    injection Hx as <-. right; right; right. auto.
  - destruct i as [|i].
    + injection Hx as <-. now left.
    + apply (IH i x Hx).
  - destruct i as [|[|i]].
    + injection Hx as <-. right.
      destruct Hb as [Hb | Hb]; [left | right; left]; exact Hb.
    + injection Hx as <-. now left.
    + apply (IH i x Hx).
Qed.

Section EngineLevels.

Variable voids : list string.
Variable sensitive : list string.
Variable minify : Node -> Node.
Variable prettierOpts_parser : bool.
Variable prettier_format : Parser -> string -> option string.

Abbreviation visitor :=
  (visitor voids sensitive prettierOpts_parser prettier_format).
Abbreviation one :=
  (one voids sensitive prettierOpts_parser prettier_format).
Abbreviation visit :=
  (visit voids sensitive prettierOpts_parser prettier_format).
Abbreviation transform :=
  (transform voids sensitive minify prettierOpts_parser prettier_format).
Abbreviation ignore := (ignore sensitive).
Abbreviation rewrite_children := (rewrite_children voids).
Abbreviation skip_sensitive :=
  (skip_sensitive prettierOpts_parser prettier_format).
Abbreviation reached := (reached sensitive).
Abbreviation plain := (plain sensitive).

Abbreviation visitor_cases :=
  (FormatterFacts.visitor_cases voids sensitive prettierOpts_parser
     prettier_format).
Abbreviation one_result :=
  (FormatterFacts.one_result voids sensitive prettierOpts_parser
     prettier_format).

Lemma ignore_one (n : Node) : tagName n = None -> ignore [n] = false.
Proof. unfold Formatter.ignore. simpl. now intros ->. Qed.

Lemma ignore_kind (l : list Node) (n n' : Node) :
  tagName n = tagName n' -> ignore (l ++ [n]) = ignore (l ++ [n']).
Proof.
  intros H. unfold Formatter.ignore. rewrite !rev_app_distr. simpl.
  now rewrite H.
Qed.

Lemma tagName_kind (n n' : Node) : kind n = kind n' -> tagName n = tagName n'.
Proof. unfold tagName. now intros ->. Qed.

Lemma one_walked fuel indent usePrettier indentInitial x index ps x' r :
  one fuel indent usePrettier indentInitial x index ps = Done (x', r) ->
  ignore ps = false ->
  Walked indent (level_of indentInitial ps - 1) x x'.
Proof.
  intros H Hps. apply one_result in H.
  destruct H as [node1 [Hv [Hk [Hd _]]]].
  unfold Walked. rewrite Hk, Hd.
  replace (level_of indentInitial ps - 1 + 1)%Z
    with (level_of indentInitial ps) by lia.
  apply visitor_cases in Hv.
  destruct Hv as [[k [_ Hv]] | [[_ [Hign [Hv _]]] | [_ [_ Hv]]]].
  - injection Hv as -> _. auto.
  - apply FormatterFacts.skip_sensitive_keeps in Hv.
    destruct Hv as [-> ->]. repeat split; auto.
    intros Ht. exfalso.
    rewrite FormatterFacts.ignore_app, Hps, ignore_one in Hign;
      [discriminate|].
    now rewrite FormatterFacts.indent_comment_tagName.
  - injection Hv as -> _.
    destruct (FormatterFacts.rewrite_children_keeps voids indent
                (level_of indentInitial ps)
                (indent_comment indent (level_of indentInitial ps) x))
      as [-> ->].
    rewrite FormatterFacts.indent_comment_indentLevel. auto.
Qed.

(** The walk through a node the visitor has rewritten. *)
Lemma one_continue fuel indent usePrettier indentInitial node index parents
    node' :
  one fuel indent usePrettier indentInitial node index parents
    = Done (node', CONTINUE) ->
  let level := level_of indentInitial parents in
  let node1 := rewrite_children indent level
                 (indent_comment indent level node) in
  exists fuel' cs walked,
    fuel = S fuel'
    /\ ignore_flag node index parents = None
    /\ ignore (parents ++ [node1]) = false
    /\ children node1 = Some cs
    /\ all_from
         (fun child i =>
            one fuel' indent usePrettier indentInitial child (Some i)
              (parents ++ [node1]))
         0 0 cs = Done walked
    /\ node' = set_children walked node1.
Proof.
  intros H level node1.
  destruct fuel as [|fuel]; [discriminate|]. cbn [Formatter.one] in H.
  destruct (visitor indent usePrettier indentInitial node index parents)
    as [[n1 result1]| |] eqn:Ev; cbn [bind] in H; try discriminate.
  assert (result1 = CONTINUE) as ->.
  { destruct (children n1); [|now injection H as _ ->].
    destruct result1; try discriminate; [reflexivity|].
    destruct (all_from _ 0 0 l); cbn [bind] in H; discriminate. }
  apply FormatterFacts.visitor_continue in Ev.
  destruct Ev as [Hflag [Hign ->]]. fold level in Hign, H. fold node1 in H.
  destruct (FormatterFacts.rewrite_children_interleaved voids indent level
              (indent_comment indent level node)) as [cs [Hcs _]].
  fold node1 in Hcs. rewrite Hcs in H.
  destruct (all_from _ 0 0 cs) as [walked| |] eqn:Ew; cbn [bind] in H;
    try discriminate.
  injection H as <-. exists fuel, cs, walked.
  repeat split; auto.
  rewrite <- Hign. apply ignore_kind, tagName_kind.
  apply FormatterFacts.rewrite_children_keeps.
Qed.

Lemma rebuild_annotated node children indent level newline rest :
  forall index prevChild tail walked,
    tail = [] \/ tail = [closing_break indent level] ->
    Forall2 (Walked indent level)
      (rebuild node children indent level newline index prevChild rest
         ++ tail)
      walked ->
    Annotated indent level rest walked.
Proof.
  assert (Hbreak : forall v b',
            Walked indent level (text_node v) b' -> Break v b').
  { intros v b' [Hk [_ Hd]]. split.
    - destruct Hk as [Hk | Hk]; exact Hk.
    - now apply Hd. }
  assert (Hkept : forall c c',
            Walked indent level (setData level c) c' ->
            Kept indent level c c').
  { intros c c' [Hk [Hd _]]. split; [|now apply Hd].
    rewrite indent_comment_setData in Hk. exact Hk. }
  induction rest as [|c rest IH]; intros index prevChild tail walked Htail H.
  - cbn [rebuild app] in H. destruct Htail as [-> | ->].
    + inversion H. constructor.
    + inversion H as [|? b' ? ? Hb Hnil]; subst. inversion Hnil; subst.
      apply Annotated_closing. apply Hbreak. exact Hb.
  - cbn [rebuild] in H.
    destruct (break_before _ _ _ _ _ _) as [lf|] eqn:E.
    + cbn [app] in H.
      inversion H as [|? b' ? ? Hb H1]; subst.
      inversion H1 as [|? c' ? walked' Hc H2]; subst.
      apply Annotated_break.
      * apply FormatterFacts.break_before_cases in E.
        destruct E as [-> | ->]; [left | right]; apply Hbreak; exact Hb.
      * now apply Hkept.
      * eapply IH; eauto.
    + cbn [app] in H.
      inversion H as [|? c' ? walked' Hc H2]; subst.
      apply Annotated_child; [now apply Hkept|].
      eapply IH; eauto.
Qed.

Lemma rewrite_children_rebuilt indent level node :
  exists newline tail,
    (tail = [] \/ tail = [closing_break indent level])
    /\ children (rewrite_children indent level node)
       = Some (rebuild node (prepared indent level node) indent level
                 newline 0 None (prepared indent level node) ++ tail).
Proof.
  unfold Formatter.rewrite_children. fold (prepared indent level node).
  destruct (_ || _); eexists _, _.
  - split; [right; reflexivity | reflexivity].
  - split; [left; reflexivity | cbn [children set_children]].
    now rewrite app_nil_r.
Qed.

Lemma all_from_walked indent usePrettier indentInitial fuel chain :
  ignore chain = false ->
  forall rest index next rest',
    all_from
      (fun child i =>
         one fuel indent usePrettier indentInitial child (Some i) chain)
      index next rest = Done rest' ->
    Forall2 (Walked indent (level_of indentInitial chain - 1)) rest rest'.
Proof.
  intros Hchain.
  apply (FormatterFacts.all_from_Forall2
           (Walked indent (level_of indentInitial chain - 1))).
  - intros c. repeat split; auto.
  - intros c i [c' a] Hr. cbn [fst]. eapply one_walked; eauto.
Qed.

(** The child list of a node after the walk, against the one it had. *)
Lemma one_annotated fuel indent usePrettier indentInitial node index parents
    node' :
  one fuel indent usePrettier indentInitial node index parents
    = Done (node', CONTINUE) ->
  let level := level_of indentInitial parents in
  exists walked,
    children node' = Some walked
    /\ Annotated indent level (prepared indent level node) walked.
Proof.
  intros H level. apply one_continue in H. fold level in H.
  destruct H as [fuel' [cs [walked [_ [_ [Hign [Hcs [Hall ->]]]]]]]].
  exists walked. split; [reflexivity|].
  apply all_from_walked in Hall; [|exact Hign].
  rewrite FormatterFacts.level_of_child in Hall.
  replace (level_of indentInitial parents + 1 - 1)%Z with level in Hall
    by (unfold level; lia).
  destruct (rewrite_children_rebuilt indent level
              (indent_comment indent level node))
    as [newline [tail [Htail Hreb]]].
  rewrite Hcs in Hreb. injection Hreb as ->.
  rewrite FormatterFacts.prepared_indent_comment in Hall.
  eapply rebuild_annotated; eauto.
Qed.

(** *** Which children the traversal visits *)

Section Siblings.

Variable indent : string.
Variable usePrettier indentInitial : bool.
Variable fuel : nat.
Variable parents : list Node.
Variable parent : Node.
Variable cs : list Node.
Hypothesis parent_children : children parent = Some cs.

Abbreviation visit_child :=
  (fun child i =>
     one fuel indent usePrettier indentInitial child (Some i)
       (parents ++ [parent])).

Lemma visit_goto c i r next :
  visit_child c i = Done r -> snd r = GOTO next ->
  is_flag (fst r) = true
  /\ isElement (fst r) = false
  /\ isElement c = false
  /\ exists k,
       first_element (skipn i cs) = Some k /\ next = (i + k + 1)%nat.
Proof.
  destruct r as [c' a]. cbn [snd fst]. intros H ->.
  apply one_result in H. destruct H as [node1 [Hv [Hk _]]].
  apply visitor_cases in Hv.
  destruct Hv as [[k [Hflag Hv]] | [[_ [_ [_ Hv]]] | [_ [_ Hv]]]];
    try discriminate.
  injection Hv as -> <-. revert Hflag.
  unfold is_flag, isElement, type, ignore_flag. rewrite Hk.
  destruct (kind c) as [| | |v|]; try discriminate.
  destruct (Js.includes _ _); [|discriminate].
  rewrite map_app. cbn [map]. rewrite last_last.
  unfold children_or_empty. rewrite parent_children.
  destruct (first_element (skipn i cs)) as [k0|]; [|discriminate].
  intros H; injection H as <-. repeat split. eauto.
Qed.

Lemma all_from_elements (rest : list Node) :
  forall index next rest',
    all_from visit_child index next rest = Done rest' ->
    existsb isElement rest' = existsb isElement rest.
Proof.
  intros index next rest' H.
  assert (Hall : Forall2 (fun c c' => isElement c' = isElement c) rest rest').
  { revert H.
    apply (FormatterFacts.all_from_Forall2
             (fun c c' => isElement c' = isElement c));
      [intros c; reflexivity|].
    intros c i [c' a] Hr. cbn [fst].
    apply (FormatterFacts.one_survives voids sensitive prettierOpts_parser
             prettier_format) in Hr.
    destruct Hr as [Ht _]. unfold isElement. now rewrite Ht. }
  clear H. induction Hall as [|c c' l l' Hc _ IH]; [reflexivity|].
  cbn [existsb]. now rewrite Hc, IH.
Qed.

(** Every child the traversal does not pass over is the outcome of a
    walk of its own. *)
Lemma all_from_visited (rest : list Node) :
  forall index next rest' open,
    rest = skipn index cs ->
    ((index < next)%nat ->
       open = true /\ first_element rest = Some (next - 1 - index)%nat) ->
    all_from visit_child index next rest = Done rest' ->
    forall j cj,
      nth_error rest' j = Some cj ->
      shielded_from open rest' j = false ->
      exists x r,
        nth_error rest j = Some x
        /\ visit_child x (index + j) = Done (cj, r).
Proof.
  induction rest as [|h rest IH];
    intros index next rest' open Hrest Hinv Hall j cj Hj Hsh.
  { cbn [all_from] in Hall. injection Hall as <-. destruct j; discriminate. }
  pose proof (FormatterMore.skipn_tail index cs h rest (eq_sym Hrest))
    as Hrest1.
  symmetry in Hrest1.
  pose proof Hall as Helements. apply all_from_elements in Helements.
  cbn [all_from] in Hall.
  destruct (index <? next)%nat eqn:Elt.
  - apply Nat.ltb_lt in Elt. destruct (Hinv Elt) as [-> Hfirst].
    destruct (all_from visit_child (S index) next rest) as [rest''| |] eqn:E;
      cbn [bind] in Hall; try discriminate.
    injection Hall as <-.
    destruct j as [|j].
    + exfalso. cbn [shielded_from andb] in Hsh.
      rewrite Helements, (first_element_exists _ _ Hfirst) in Hsh.
      discriminate.
    + cbn [shielded_from nth_error] in Hsh, Hj.
      destruct (IH (S index) next rest''
                  (negb (isElement h) && (true || is_flag h)) Hrest1)
        with (j := j) (cj := cj) as [x [r [Hx Hr]]]; auto.
      * intros Hlt.
        replace (next - 1 - index)%nat with (S (next - 1 - S index))
          in Hfirst by lia.
        apply first_element_tail in Hfirst. destruct Hfirst as [-> Hf].
        split; [reflexivity | exact Hf].
      * exists x, r. split; [exact Hx|].
        now replace (index + S j)%nat with (S index + j)%nat by lia.
  - destruct (visit_child h index) as [r| |] eqn:Ev; cbn [bind] in Hall;
      try discriminate.
    destruct (all_from visit_child (S index) _ rest) as [rest''| |] eqn:E;
      cbn [bind] in Hall; try discriminate.
    injection Hall as <-.
    destruct j as [|j].
    + cbn [nth_error] in Hj. injection Hj as <-.
      exists h, (snd r). split; [reflexivity|].
      rewrite Nat.add_0_r, Ev. now destruct r.
    + cbn [shielded_from nth_error] in Hsh, Hj.
      destruct (IH (S index)
                  (match snd r with GOTO k => k | _ => S index end) rest''
                  (negb (isElement (fst r)) && (open || is_flag (fst r)))
                  Hrest1)
        with (j := j) (cj := cj) as [x [r' [Hx Hr]]]; auto.
      * intros Hlt. destruct (snd r) as [| |n] eqn:Er; try lia.
        destruct (visit_goto h index r n Ev Er)
          as [Hflag [Hne [_ [k [Hk ->]]]]].
        rewrite Hflag, Hne, orb_true_r. split; [reflexivity|].
        rewrite <- Hrest in Hk.
        destruct k as [|k]; [lia|].
        apply first_element_tail in Hk. destruct Hk as [_ Hk].
        rewrite Hk. f_equal. lia.
      * exists x, r'. split; [exact Hx|].
        now replace (index + S j)%nat with (S index + j)%nat by lia.
Qed.

End Siblings.

Lemma plain_kind (n n' : Node) : kind n = kind n' -> plain n = plain n'.
Proof.
  intros H. unfold Formatter.plain, type, Formatter.ignore, tagName. simpl.
  now rewrite H.
Qed.

Lemma plain_indent_comment indent level n :
  plain (indent_comment indent level n) = plain n.
Proof.
  unfold Formatter.plain.
  rewrite FormatterFacts.indent_comment_type.
  unfold Formatter.ignore. simpl.
  now rewrite FormatterFacts.indent_comment_tagName.
Qed.

Lemma plain_spec (n : Node) :
  plain n = true -> type n <> comment /\ ignore [n] = false.
Proof.
  unfold Formatter.plain. intros H. apply andb_true_iff in H.
  destruct H as [Hc Hi]. apply negb_true_iff in Hc, Hi. split; [|exact Hi].
  intros Ht. rewrite Ht in Hc. discriminate.
Qed.

(** A plain node outside white-space sensitive subtrees is rewritten. *)
Lemma one_plain fuel indent usePrettier indentInitial node index parents
    node' result :
  one fuel indent usePrettier indentInitial node index parents
    = Done (node', result) ->
  ignore parents = false ->
  plain node' = true ->
  result = CONTINUE.
Proof.
  intros H Hps Hplain. apply one_result in H.
  destruct H as [node1 [Hv [Hk _]]].
  rewrite (plain_kind node' node1 Hk) in Hplain.
  apply visitor_cases in Hv.
  destruct Hv as [[k [Hflag Hv]] | [[_ [Hign [Hv _]]] | [_ [_ Hv]]]].
  - exfalso. injection Hv as -> _.
    apply plain_spec in Hplain. destruct Hplain as [Hc _]. apply Hc.
    revert Hflag. unfold ignore_flag, type.
    destruct (kind node); try discriminate. reflexivity.
  - exfalso. apply FormatterFacts.skip_sensitive_keeps in Hv.
    destruct Hv as [Hk1 _].
    rewrite (plain_kind node1 _ Hk1) in Hplain.
    apply plain_spec in Hplain. destruct Hplain as [_ Hi].
    rewrite FormatterFacts.ignore_app, Hps, Hi in Hign. discriminate.
  - now injection Hv as _ <-.
Qed.

(** The pass, from any node on: where the traversal gets, the children
    are placed for the level of their parent, which is the level of the
    node the walk began at and one more for every step down. *)
Lemma one_reached indent usePrettier indentInitial (fuel : nat) :
  forall node index parents node' result,
    one fuel indent usePrettier indentInitial node index parents
      = Done (node', result) ->
    ignore parents = false ->
    forall path parent i c,
      reached node' path = Some parent ->
      nth_error (children_or_empty parent) i = Some c ->
      Placed indent
        (level_of indentInitial parents + Z.of_nat (List.length path))
        (S i =? List.length (children_or_empty parent))%nat c.
Proof.
  induction fuel as [|fuel IH];
    intros node index parents node' result H Hps path parent i c Hreach Hc;
    [discriminate|].
  assert (Hplain : plain node' = true).
  { destruct path; cbn [Formatter.reached] in Hreach;
      destruct (plain node'); congruence. }
  pose proof (one_plain _ _ _ _ _ _ _ _ _ H Hps Hplain) as ->.
  pose proof (one_annotated _ _ _ _ _ _ _ _ H) as [walked [Hw Hann]].
  apply one_continue in H.
  destruct H as [fuel' [cs [walked' [Hfuel [_ [Hign [Hcs [Hall Hnode]]]]]]]].
  injection Hfuel as <-.
  assert (walked' = walked) as ->.
  { rewrite Hnode in Hw. cbn [children set_children] in Hw. congruence. }
  destruct path as [|j rest]; cbn [Formatter.reached] in Hreach;
    rewrite Hplain in Hreach.
  - injection Hreach as <-. unfold children_or_empty in *. rewrite Hw in *.
    cbn [List.length]. rewrite Z.add_0_r.
    eapply Annotated_placed; eauto.
  - unfold children_or_empty in Hreach at 1 2. rewrite Hw in Hreach.
    destruct (shielded walked j) eqn:Hsh; [discriminate|].
    destruct (nth_error walked j) as [cj|] eqn:Hj; [|discriminate].
    destruct (all_from_visited indent usePrettier indentInitial fuel parents
                _ cs Hcs cs 0 0 walked false eq_refl) with (j := j) (cj := cj)
      as [x [r [_ Hr]]]; auto; [lia|].
    cbn beta in Hr.
    pose proof (IH _ _ _ _ _ Hr Hign rest parent i c Hreach Hc) as Hplaced.
    rewrite FormatterFacts.level_of_child in Hplaced.
    replace (level_of indentInitial parents
             + Z.of_nat (List.length (j :: rest)))%Z
      with (level_of indentInitial parents + 1
            + Z.of_nat (List.length rest))%Z
      by (cbn [List.length]; lia).
    exact Hplaced.
Qed.

(** C8, as the code has it.  The walk through a node never annotates that
    node unless it skips it: a white-space sensitive node that the walk
    skips is annotated with its level less one, and any other node keeps
    the annotation it was found with, so that the top node of the tree,
    which is nobody's child, ends the pass without one.  When the walk
    has rewritten the node's child list, the new list is the children the
    node had, in their order and each annotated with the node's level,
    and the breaks put before them and after the last; the breaks are
    without annotation. *)
Theorem walk_annotates_children :
  forall (fuel : nat) (indent : string) (usePrettier indentInitial : bool)
         (node : Node) (index : option nat) (parents : list Node)
         (node' : Node) (result : Action),
    one fuel indent usePrettier indentInitial node index parents
      = Done (node', result) ->
    let level := level_of indentInitial parents in
    match result with
    | SKIP => indentLevel node' = Some (level - 1)%Z
    | CONTINUE =>
        indentLevel node' = indentLevel node
        /\ exists walked,
             children node' = Some walked
             /\ Annotated indent level (prepared indent level node) walked
    | GOTO _ => indentLevel node' = indentLevel node
    end.
Proof.
  intros fuel indent usePrettier indentInitial node index parents node'
    result H level.
  destruct result.
  - split; [|eapply one_annotated; exact H].
    apply one_result in H. destruct H as [node1 [Hv [_ [Hd _]]]].
    rewrite Hd. apply FormatterFacts.visitor_continue in Hv.
    destruct Hv as [_ [_ ->]]. fold level.
    destruct (FormatterFacts.rewrite_children_keeps voids indent level
                (indent_comment indent level node)) as [_ ->].
    apply FormatterFacts.indent_comment_indentLevel.
  - apply one_result in H. destruct H as [node1 [Hv [_ [_ Hs]]]].
    rewrite (Hs eq_refl). apply visitor_cases in Hv.
    destruct Hv as [[k [_ Hv]] | [[_ [_ [Hv _]]] | [_ [_ Hv]]]];
      try discriminate.
    apply FormatterFacts.skip_sensitive_keeps in Hv. apply Hv.
  - apply one_result in H. destruct H as [node1 [Hv [_ [Hd _]]]].
    rewrite Hd. apply visitor_cases in Hv.
    destruct Hv as [[k [_ Hv]] | [[_ [_ [_ Hv]]] | [_ [_ Hv]]]];
      try discriminate.
    now injection Hv as ->.
Qed.

(** C1, as the code has it.  The level the visitor works with at a node
    is the number of the node's ancestors, and one is taken off exactly
    when the tree holds an [html], [body] or [head] element; in a tree
    without such an element nothing is taken off.  This is the level with
    which the visitor rewrites a node; and in the formatted tree, wherever
    the traversal got, a node with [n] ancestors has its children
    annotated with that level, [n] or [n - 1], and the breaks among them
    indented for it. *)
Theorem level_of_page_shift :
  forall (options : Settings) (tree formatted : Node),
    transform options tree = Done formatted ->
    let indent := indent_of options in
    let levels (shift : Z) : Prop :=
      (forall (usePrettier : bool) (node : Node) (index : option nat)
              (parents : list Node),
         type node <> comment ->
         ignore (parents ++ [node]) = false ->
         visitor indent usePrettier (isPageMode tree) node index parents
         = Done (rewrite_children indent
                   (Z.of_nat (List.length parents) - shift) node,
                 CONTINUE))
      /\ (forall (path : list nat) (parent : Node) (i : nat) (c : Node),
            reached formatted path = Some parent ->
            nth_error (children_or_empty parent) i = Some c ->
            Placed indent (Z.of_nat (List.length path) - shift)
              (S i =? List.length (children_or_empty parent))%nat c) in
    ((exists d, Within d tree /\ is_page_element d = true) -> levels 1%Z)
    /\ ((forall d, Within d tree -> is_page_element d = false) ->
          levels 0%Z).
Proof.
  intros options tree formatted H indent levels.
  assert (Hlevels : levels (if isPageMode tree then 0 else 1)%Z).
  { split.
    - intros usePrettier node index parents Hnc Hign.
      rewrite (FormatterFacts.visitor_not_sensitive voids sensitive
                 prettierOpts_parser prettier_format indent usePrettier
                 (isPageMode tree) node index parents Hign).
      rewrite (FormatterFacts.ignore_flag_not_comment node index parents Hnc).
      rewrite (FormatterFacts.indent_comment_other indent _ node Hnc).
      unfold level_of. destruct (isPageMode tree); cbn [negb];
        [now rewrite Z.sub_0_r | reflexivity].
    - intros path parent i c Hreach Hc.
      unfold Formatter.transform, Formatter.visit in H.
      destruct (Formatter.one _ _ _ _ _ _ _ _ _ _ _) as [[node' result]| |]
        eqn:E; cbn [bind] in H; try discriminate.
      injection H as <-. cbn [fst] in Hreach.
      pose proof (one_reached _ _ _ _ _ _ _ _ _ E eq_refl path parent i c
                    Hreach Hc) as Hplaced.
      replace (Z.of_nat (List.length path)
               - (if isPageMode tree then 0 else 1))%Z
        with (level_of (isPageMode tree) []
              + Z.of_nat (List.length path))%Z;
        [exact Hplaced|].
      unfold level_of. cbn [List.length].
      destruct (isPageMode tree); cbn [negb]; lia. }
  split.
  - intros Hpage.
    apply (FormatterFacts.isPageMode_false_iff tree) in Hpage.
    now rewrite Hpage in Hlevels.
  - intros Hfragment. destruct (isPageMode tree) eqn:E; [exact Hlevels|].
    apply (FormatterFacts.isPageMode_false_iff tree) in E.
    destruct E as [d [Hw Hd]]. rewrite (Hfragment d Hw) in Hd. discriminate.
Qed.

End EngineLevels.

Lemma walk_annotates_children_witness :
  (exists walked,
     children (fst (run_one_result 2 "  " true true conditional
                      (Some 0%nat) [Root [conditional]])) = Some walked
     /\ Annotated "  " 1 [Comment "[if IE]"; Element "p" []] walked)
  /\ indentLevel (skipped 1 preformatted) = Some 0%Z.
Proof.
  split.
  - exact (proj2 (walk_annotates_children html_void_elements
                    html_whitespace_sensitive_tag_names false prettier_echo
                    2 "  " true true conditional (Some 0%nat)
                    [Root [conditional]]
                    (fst (run_one_result 2 "  " true true conditional
                            (Some 0%nat) [Root [conditional]]))
                    CONTINUE eq_refl)).
  - exact (walk_annotates_children html_void_elements
             html_whitespace_sensitive_tag_names false prettier_echo 1 "  "
             true true preformatted (Some 0%nat) [Root [preformatted]]
             (skipped 1 preformatted) SKIP eq_refl).
Defined.

Lemma level_of_page_shift_witness :
  Placed "  " 1 false
    (walked_element "p" 1 [walked_text "A" (Some 2%Z)])
  /\ Placed "  " 1 false
       (walked_element "p" 1 [walked_text "B" (Some 2%Z)]).
Proof.
  split.
  - refine (proj2 (proj1 (level_of_page_shift html_void_elements
                            html_whitespace_sensitive_tag_names
                            rehype_minify_whitespace false prettier_echo
                            two_spaces page formatted_page eq_refl) _)
              [0; 3]%nat
              (walked_element "body" 0
                 [ walked_text (String "010" "  ") None;
                   walked_element "p" 1 [walked_text "A" (Some 2%Z)];
                   walked_text (String "010" "") None ])
              1%nat _ eq_refl eq_refl).
    exists (Element "html"
              [Element "head" []; Element "body" [Element "p" [Text "A"]]]).
    split; [|reflexivity].
    eapply Within_child; [reflexivity | left; reflexivity | apply Within_self].
  - refine (proj2 (proj2 (level_of_page_shift html_void_elements
                            html_whitespace_sensitive_tag_names
                            rehype_minify_whitespace false prettier_echo
                            two_spaces fragment formatted_fragment eq_refl) _)
              [0]%nat
              (walked_element "div" 0
                 [ walked_text (String "010" "  ") None;
                   walked_element "p" 1 [walked_text "A" (Some 2%Z)];
                   walked_text (String "010" "  ") None;
                   walked_element "p" 1 [walked_text "B" (Some 2%Z)];
                   walked_text (String "010" "") None ])
              3%nat _ eq_refl eq_refl).
    intros d Hd.
    exact (proj1 (FormatterFacts.find_spec is_page_element fragment)
             eq_refl d Hd).
Defined.

End FormatterLevels.
